(** * Ecasound: option parsing, proxy server and chainsetup lifecycle

    A shallow embedding of
    - [kvutils/kvu_utils.cpp] (tokenizers, string helpers and the
      option-argument parser),
    - [libecasound/audioio-proxy-server.cpp] (the registry of clients,
      stop, and one pass of the i/o thread),
    - [libecasound/eca-chainsetup.cpp] (buffering-mode selection, object
      vectors, chains, MIDI devices, enable),
    with the properties the specification states about them and further
    properties of the code. *)

From Stdlib Require Import ZArith Ascii String List Lia Bool DecimalString.
From Stdlib Require DecimalZ DecimalFacts.
From stdpp Require Import base option list gmap strings.

Local Open Scope nat_scope.

(* ===================================================================== *)
(** * Part I: definitions                                                 *)
(* ===================================================================== *)

(** ** kvutils/kvu_utils.cpp *)

Module kvu.

(** A [std::string] is a sequence of characters; an iterator into it is
    an index, [s.end()] being [length s]. *)
Abbreviation cstring := (list ascii).

Definition str (s : string) : cstring := list_ascii_of_string s.

Definition backslash : ascii := "\"%char.
Definition comma : ascii := ","%char.
Definition colon : ascii := ":"%char.
Definition minus : ascii := "-"%char.
Definition dquote : ascii := "034"%char.

(** [isspace] of the C locale: space, \t, \n, \v, \f, \r. *)
Definition isspace (c : ascii) : bool :=
  let n := nat_of_ascii c in
  (n =? 32) || ((9 <=? n) && (n <=? 13)).

(** [std::find(first, last, value)] on a range given as a list: the
    offset of the first [value], or the length of the range. *)
Fixpoint find_offset (value : ascii) (l : cstring) : nat :=
  match l with
  | [] => 0
  | c :: l' => if Ascii.eqb c value then 0 else S (find_offset value l')
  end.

(** [find(s.begin() + first, s.end(), value)] as an index into [s]. *)
Definition std_find (s : cstring) (first : nat) (value : ascii) : nat :=
  first + find_offset value (drop first s).

(** [string(b, e)] for iterators [b <= e] of [s]. *)
Definition substr (s : cstring) (b e : nat) : cstring :=
  take (e - b) (drop b s).

(** [*(s.begin() + i)] *)
Definition char_at (s : cstring) (i : nat) : ascii :=
  nth i s zero.

(** [kvu_string_to_tokens_quoted]: the [for] loop over the iterator [p].
    The escape branch does [p++; stmp += *p;] without testing [p] against
    [s.end()]: on a backslash that is the last character the read is
    outside the string, which is [None] here. *)
Fixpoint string_to_tokens_quoted_loop (s : cstring) (vec : list cstring)
    (stmp : cstring) (quoteflag : bool) : option (list cstring) :=
  match s with
  | [] => Some (if (0 <? length stmp) then vec ++ [stmp] else vec)
  | c :: rest =>
      if Ascii.eqb c dquote then
        string_to_tokens_quoted_loop rest vec stmp (negb quoteflag)
      else if Ascii.eqb c backslash then
        match rest with
        | [] => None
        | c' :: rest' =>
            string_to_tokens_quoted_loop rest' vec (stmp ++ [c']) quoteflag
        end
      else if negb (isspace c) || quoteflag then
        string_to_tokens_quoted_loop rest vec (stmp ++ [c]) quoteflag
      else
        match stmp with
        | [] => string_to_tokens_quoted_loop rest vec stmp quoteflag
        | _ => string_to_tokens_quoted_loop rest (vec ++ [stmp]) [] quoteflag
        end
  end.

Definition kvu_string_to_tokens_quoted (s : cstring) : option (list cstring) :=
  string_to_tokens_quoted_loop s [] [] false.

(** [kvu_vector_to_string] *)
Fixpoint kvu_vector_to_string (v : list cstring) (separator : cstring)
    : cstring :=
  match v with
  | [] => []
  | p :: rest =>
      p ++ (match rest with [] => [] | _ :: _ => separator end)
        ++ kvu_vector_to_string rest separator
  end.

(** [kvu_priv_find_next_instance]: the [while] loop.  [ret] is declared
    without an initial value, so it is [None] until the first [find];
    [None] also stands for an exhausted loop counter. *)
Fixpoint find_next_instance_loop (fuel : nat) (arg : cstring) (curpos : nat)
    (ret : option nat) (value : ascii) : option nat :=
  match fuel with
  | O => None
  | S fuel' =>
      if curpos =? length arg then ret
      else
        let ret := std_find arg curpos value in
        if negb (ret =? length arg) && negb (ret =? 0)
           && Ascii.eqb (char_at arg (ret - 1)) backslash
        then find_next_instance_loop fuel' arg (ret + 1) (Some ret) value
        else Some ret
  end.

Definition kvu_priv_find_next_instance (arg : cstring) (start : nat)
    (value : ascii) : option nat :=
  find_next_instance_loop (S (length arg)) arg start None value.

(** [input->find("\\,")]: position of the first backslash-comma, [None]
    for [string::npos]. *)
Fixpoint find_backslash_comma (l : cstring) : option nat :=
  match l with
  | [] => None
  | c1 :: l' =>
      match l' with
      | c2 :: _ =>
          if Ascii.eqb c1 backslash && Ascii.eqb c2 comma then Some 0
          else S <$> find_backslash_comma l'
      | [] => None
      end
  end.

(** [input->replace(pos, len, by)] *)
Definition replace (input : cstring) (pos len : nat) (by_ : cstring)
    : cstring :=
  take pos input ++ by_ ++ drop (pos + len) input.

(** [kvu_priv_strip_escapes]: find and replace until nothing is found. *)
Fixpoint strip_escapes_loop (fuel : nat) (input : cstring) : option cstring :=
  match fuel with
  | O => None
  | S fuel' =>
      match find_backslash_comma input with
      | None => Some input
      | Some pos => strip_escapes_loop fuel' (replace input pos 2 [comma])
      end
  end.

Definition kvu_priv_strip_escapes (input : cstring) : option cstring :=
  strip_escapes_loop (S (length input)) input.

(** [kvu_get_arguments]: the [for] loop starting at iterator [b]. *)
Fixpoint get_arguments_loop (fuel : nat) (argu : cstring) (b : nat)
    (resvec : list cstring) : option (list cstring) :=
  match fuel with
  | O => None
  | S fuel' =>
      if b =? length argu then Some resvec
      else
        e ← kvu_priv_find_next_instance argu b comma;
        let target := substr argu b e in
        resvec' ← (if 0 <? length target
                   then (t ← kvu_priv_strip_escapes target;
                         Some (resvec ++ [t]))
                   else Some resvec);
        if e =? length argu then Some resvec'
        else get_arguments_loop fuel' argu (S e) resvec'
  end.

Definition kvu_get_arguments (argu : cstring) : option (list cstring) :=
  let b := std_find argu 0 colon in
  if b =? length argu then
    if 0 <? length argu then
      get_arguments_loop (S (length argu)) argu 0 []
    else Some []
  else get_arguments_loop (S (length argu)) argu (S b) [].

(** [kvu_get_argument_prefix].  [string(b, e)] with [e] before [b] has no
    defined value: [None]. *)
Definition kvu_get_argument_prefix (argu : cstring) : option cstring :=
  let b := std_find argu 0 minus in
  let e := std_find argu 0 colon in
  if b =? length argu then Some []
  else
    let b := S b in
    if b =? length argu then Some []
    else if e <? b then None
    else Some (substr argu b e).


(** *** Reference functions for the statements and proofs *)


(** A backslash immediately followed by a comma occurs in [t]. *)
Definition has_backslash_comma (t : cstring) : Prop :=
  ∃ p q, t = p ++ backslash :: comma :: q.



(** The offset, from the current position, that
    [kvu_priv_find_next_instance] returns, as a function of the character
    before the current position and of the rest of the string. *)
Fixpoint next_instance_offset (value : ascii) (prev : option ascii)
    (s : cstring) : nat :=
  match s with
  | [] => 0
  | c :: s' =>
      if Ascii.eqb c value then
        match prev with
        | Some p =>
            if Ascii.eqb p backslash then
              match s' with
              | [] => 0
              | _ :: _ => S (next_instance_offset value (Some c) s')
              end
            else 0
        | None => 0
        end
      else S (next_instance_offset value (Some c) s')
  end.

(** The character before the rest of the string, once [u] is skipped. *)
Definition last_or (prev : option ascii) (u : cstring) : option ascii :=
  match last u with Some c => Some c | None => prev end.

(** The result of [kvu_priv_strip_escapes]: a backslash disappears when
    what follows it, once stripped, starts with a comma. *)
Fixpoint stripped (l : cstring) : cstring :=
  match l with
  | [] => []
  | c :: l' =>
      let r := stripped l' in
      match r with
      | c2 :: _ =>
          if Ascii.eqb c backslash && Ascii.eqb c2 comma then r else c :: r
      | [] => c :: r
      end
  end.

(** The option grammar in the specification's words: the argument list
    is cut at every comma that has no backslash before it, ... *)
Fixpoint split_unescaped (prev : option ascii) (cur : cstring) (s : cstring)
    : list cstring :=
  match s with
  | [] => [cur]
  | c :: s' =>
      if Ascii.eqb c comma
         && negb (bool_decide (prev = Some backslash))
      then cur :: split_unescaped (Some c) [] s'
      else split_unescaped (Some c) (cur ++ [c]) s'
  end.

(** ... a backslash-comma is a literal comma, ... *)
Fixpoint unescape (s : cstring) : cstring :=
  match s with
  | [] => []
  | c1 :: s' =>
      match s' with
      | c2 :: s'' =>
          if Ascii.eqb c1 backslash && Ascii.eqb c2 comma
          then comma :: unescape s''
          else c1 :: unescape s'
      | [] => [c1]
      end
  end.

(** ... and empty arguments are skipped.  The argument list starts after
    the first colon (the whole string when there is none). *)
Definition spec_get_arguments (argu : cstring) : list cstring :=
  let b := std_find argu 0 colon in
  let args := if b =? length argu then argu else drop (S b) argu in
  let prev := if b =? length argu then None else Some colon in
  unescape <$> filter (λ t, t ≠ []) (split_unescaped prev [] args).

(** The string ends with a backslash that no earlier backslash escapes. *)
Fixpoint ends_with_unescaped_backslash (s : cstring) : bool :=
  match s with
  | [] => false
  | c :: rest =>
      if Ascii.eqb c backslash then
        match rest with
        | [] => true
        | _ :: rest' => ends_with_unescaped_backslash rest'
        end
      else ends_with_unescaped_backslash rest
  end.

(** A run of characters that are neither quotes, backslashes nor white
    space. *)
Definition plain_word (w : cstring) : Prop :=
  Forall (λ c, c ≠ dquote ∧ c ≠ backslash ∧ isspace c = false) w.

(** *** The other functions of [kvu_utils.cpp] *)

Definition space : ascii := " "%char.

(** [kvu_string_to_tokens]: the [for] loop over the characters. *)
Fixpoint string_to_tokens_loop (s : cstring) (vec : list cstring)
    (stmp : cstring) : list cstring :=
  match s with
  | [] => if 0 <? length stmp then vec ++ [stmp] else vec
  | c :: rest =>
      if negb (isspace c) then string_to_tokens_loop rest vec (stmp ++ [c])
      else
        match stmp with
        | [] => string_to_tokens_loop rest vec stmp
        | _ => string_to_tokens_loop rest (vec ++ [stmp]) []
        end
  end.

Definition kvu_string_to_tokens (s : cstring) : list cstring :=
  string_to_tokens_loop s [] [].

Definition kvu_string_to_words (s : cstring) : list cstring :=
  kvu_string_to_tokens s.

(** [kvu_string_to_vector] *)
Fixpoint string_to_vector_loop (str : cstring) (separator : ascii)
    (vec : list cstring) (stmp : cstring) : list cstring :=
  match str with
  | [] => if 0 <? length stmp then vec ++ [stmp] else vec
  | c :: rest =>
      if negb (Ascii.eqb c separator) then
        string_to_vector_loop rest separator vec (stmp ++ [c])
      else
        match stmp with
        | [] => string_to_vector_loop rest separator vec stmp
        | _ => string_to_vector_loop rest separator (vec ++ [stmp]) []
        end
  end.

Definition kvu_string_to_vector (str : cstring) (separator : ascii)
    : list cstring :=
  string_to_vector_loop str separator [] [].

(** [kvu_string_search_and_replace]: [stmp] starts as a copy of [str]
    and the loop assigns [stmp[p]] for [p] from 0 to [str.size()], with
    [k] indices to go. *)
Fixpoint search_and_replace_loop (str : cstring) (from to : ascii)
    (k p : nat) (stmp : cstring) : cstring :=
  match k with
  | O => stmp
  | S k' =>
      search_and_replace_loop str from to k' (S p)
        (<[p := if Ascii.eqb (char_at str p) from then to
                else char_at str p]> stmp)
  end.

Definition kvu_string_search_and_replace (str : cstring) (from to : ascii)
    : cstring :=
  search_and_replace_loop str from to (length str) 0 str.

(** [kvu_vector_search_and_replace].  The test of the loop looks for a
    comma in the string, not for [from]. *)
Fixpoint vector_search_and_replace_loop (str_vector : list cstring)
    (from to : ascii) (vstmp : list cstring) : list cstring :=
  match str_vector with
  | [] => vstmp
  | p :: rest =>
      vector_search_and_replace_loop rest from to
        (vstmp ++ [if negb (find_offset comma p =? length p)
                   then kvu_string_search_and_replace p from to
                   else p])
  end.

Definition kvu_vector_search_and_replace (str_vector : list cstring)
    (from to : ascii) : list cstring :=
  vector_search_and_replace_loop str_vector from to [].

(** The first loop of the two functions below, which stops at the first
    character that is not a space, on the range given as a list: what
    is left of the range at [p]. *)
Fixpoint skip_spaces (l : cstring) : cstring :=
  match l with
  | [] => []
  | c :: l' => if negb (Ascii.eqb c space) then l else skip_spaces l'
  end.

(** [for(; p != a.rend(); p++) { r = *p + r; }] *)
Fixpoint prepend_each (l : cstring) (r : cstring) : cstring :=
  match l with
  | [] => r
  | c :: l' => prepend_each l' (c :: r)
  end.

(** [for(; p != a.end(); p++) { r += *p; }] *)
Fixpoint append_each (l : cstring) (r : cstring) : cstring :=
  match l with
  | [] => r
  | c :: l' => append_each l' (r ++ [c])
  end.

(** [kvu_remove_trailing_spaces]: the reverse iterators walk [rev a]. *)
Definition kvu_remove_trailing_spaces (a : cstring) : cstring :=
  prepend_each (skip_spaces (rev a)) [].

(** [kvu_remove_preceding_spaces] *)
Definition kvu_remove_preceding_spaces (a : cstring) : cstring :=
  append_each (skip_spaces a) [].

(** [for(q = ...; q != a.begin() && *q == ' '; q--);] from index [q]. *)
Fixpoint skip_spaces_back (a : cstring) (q : nat) : nat :=
  match q with
  | O => O
  | S q' => if Ascii.eqb (char_at a q) space then skip_spaces_back a q' else q
  end.

(** [kvu_remove_surrounding_spaces].  On the empty string [a.end() - 1]
    is before [a.begin()], and on a string of two or more spaces [p] ends
    at [a.end()], after [q + 1]: neither has a defined result, which is
    [None] here. *)
Definition kvu_remove_surrounding_spaces (a : cstring) : option cstring :=
  match length a with
  | O => None
  | S n =>
      let p := length a - length (skip_spaces a) in
      let q := skip_spaces_back a n in
      if p <=? q + 1 then Some (substr a p (q + 1)) else None
  end.

(** The functions that go through [toupper] and [tolower] of the C
    library, which depend on the locale and are taken as parameters. *)
Section case_conversion.
Context (toupper tolower : ascii → ascii).

(** [kvu_convert_to_uppercase], [kvu_to_uppercase]: [*p = toupper( *p )]
    for every position. *)
Fixpoint to_uppercase_loop (r : cstring) : cstring :=
  match r with
  | [] => []
  | c :: r' => toupper c :: to_uppercase_loop r'
  end.

Fixpoint to_lowercase_loop (r : cstring) : cstring :=
  match r with
  | [] => []
  | c :: r' => tolower c :: to_lowercase_loop r'
  end.

Definition kvu_convert_to_uppercase (a : cstring) : cstring :=
  to_uppercase_loop a.
Definition kvu_convert_to_lowercase (a : cstring) : cstring :=
  to_lowercase_loop a.
Definition kvu_to_uppercase (a : cstring) : cstring := to_uppercase_loop a.
Definition kvu_to_lowercase (a : cstring) : cstring := to_lowercase_loop a.

(** [kvu_string_icmp] *)
Definition kvu_string_icmp (first second : cstring) : bool :=
  let a := kvu_remove_trailing_spaces first in
  let a := kvu_remove_preceding_spaces a in
  let a := kvu_convert_to_uppercase a in
  let b := kvu_remove_trailing_spaces second in
  let b := kvu_remove_preceding_spaces b in
  let b := kvu_convert_to_uppercase b in
  bool_decide (a = b).

End case_conversion.

(** [toupper] and [tolower] of the C locale. *)
Definition toupper_C (c : ascii) : ascii :=
  let n := nat_of_ascii c in
  if (97 <=? n) && (n <=? 122) then ascii_of_nat (n - 32) else c.
Definition tolower_C (c : ascii) : ascii :=
  let n := nat_of_ascii c in
  if (65 <=? n) && (n <=? 90) then ascii_of_nat (n + 32) else c.

(** [static_cast<int>] of a [size_t]. *)
Definition int_of_size (n : nat) : Z :=
  ((Z.of_nat n + 2 ^ 31) `mod` 2 ^ 32 - 2 ^ 31)%Z.

(** [kvu_get_number_of_arguments] *)
Definition kvu_get_number_of_arguments (arg : cstring) : option Z :=
  temp ← kvu_get_arguments arg; Some (int_of_size (length temp)).

(** [kvu_get_argument_number].  [temp[number - 1]] is outside the vector
    when [number] is less than 1: [None]. *)
Definition kvu_get_argument_number (number : Z) (arg : cstring)
    : option cstring :=
  temp ← kvu_get_arguments arg;
  if (number <=? int_of_size (length temp))%Z then
    if (1 <=? number)%Z then temp !! Z.to_nat (number - 1) else None
  else Some [].

(** The loop that [kvu_string_to_tokens] and [kvu_string_to_vector]
    share, over the test that makes a character a separator. *)
Fixpoint split_loop (is_sep : ascii → bool) (s : cstring)
    (vec : list cstring) (stmp : cstring) : list cstring :=
  match s with
  | [] => if 0 <? length stmp then vec ++ [stmp] else vec
  | c :: rest =>
      if negb (is_sep c) then split_loop is_sep rest vec (stmp ++ [c])
      else
        match stmp with
        | [] => split_loop is_sep rest vec stmp
        | _ => split_loop is_sep rest (vec ++ [stmp]) []
        end
  end.

(** A token: not empty and without separator. *)
Definition token_of (is_sep : ascii → bool) (t : cstring) : Prop :=
  t ≠ [] ∧ Forall (λ c, is_sep c = false) t.

(** The replacement of [from] by [to] in one character. *)
Definition replace_char (from to : ascii) (c : ascii) : ascii :=
  if Ascii.eqb c from then to else c.

(** A character of the string is not a space. *)
Definition has_non_space (a : cstring) : Prop :=
  Exists (λ c, c ≠ space) a.

End kvu.

(** ** libecasound/audioio-proxy-server.cpp *)

Module proxy_server.

Local Open Scope Z_scope.

(** An [AUDIO_IO*]; the objects themselves live in a store. *)
Abbreviation loc := positive.

Inductive Io_mode := io_read | io_write | io_readwrite.

Global Instance Io_mode_eq_dec : EqDecision Io_mode.
Proof. solve_decision. Defined.

(** What the i/o thread calls on a client ([audioio.h] is not in src):
    [read_buffer(sbuf)] fills the buffer it is given,
    [write_buffer(sbuf)] consumes it, [finished()] is a
    query.  Each may change the client. *)
Class AUDIO_IO (client SAMPLE_BUFFER : Type) := {
  read_buffer : client → SAMPLE_BUFFER → client * SAMPLE_BUFFER;
  write_buffer : client → SAMPLE_BUFFER → client;
  finished : client → bool;
}.

(** The members of [AUDIO_IO_PROXY_BUFFER] that the i/o thread touches;
    [readptr_rep], [writeptr_rep] and [finished_rep] are atomic
    integers. *)
Record AUDIO_IO_PROXY_BUFFER (SAMPLE_BUFFER : Type) := {
  readptr_rep : Z;
  writeptr_rep : Z;
  finished_rep : Z;
  io_mode_rep : Io_mode;
  sbufs_rep : list SAMPLE_BUFFER;
}.
Arguments readptr_rep {_} _.
Arguments writeptr_rep {_} _.
Arguments finished_rep {_} _.
Arguments io_mode_rep {_} _.
Arguments sbufs_rep {_} _.

(** The methods of [AUDIO_IO_PROXY_BUFFER] ([audioio-proxy-buffer.h] is
    not in src), left open. *)
Class PROXY_BUFFER_methods (SAMPLE_BUFFER : Type) := {
  write_space : AUDIO_IO_PROXY_BUFFER SAMPLE_BUFFER → Z;
  read_space : AUDIO_IO_PROXY_BUFFER SAMPLE_BUFFER → Z;
  advance_write_pointer :
    AUDIO_IO_PROXY_BUFFER SAMPLE_BUFFER → AUDIO_IO_PROXY_BUFFER SAMPLE_BUFFER;
  advance_read_pointer :
    AUDIO_IO_PROXY_BUFFER SAMPLE_BUFFER → AUDIO_IO_PROXY_BUFFER SAMPLE_BUFFER;
}.

Record AUDIO_IO_PROXY_SERVER (SAMPLE_BUFFER : Type) := {
  clients_rep : list (option loc);      (* [None] is the null pointer *)
  buffers_rep : list (AUDIO_IO_PROXY_BUFFER SAMPLE_BUFFER);
  running_rep : Z;
  full_rep : Z;
  stop_request_rep : Z;
  exit_request_rep : Z;
}.
Arguments clients_rep {_} _.
Arguments buffers_rep {_} _.
Arguments running_rep {_} _.
Arguments full_rep {_} _.
Arguments stop_request_rep {_} _.
Arguments exit_request_rep {_} _.

Inductive loop_ctl := ctl_continue | ctl_break.

Section io_thread.
Context {client SAMPLE_BUFFER : Type}.
Context `{!AUDIO_IO client SAMPLE_BUFFER, !PROXY_BUFFER_methods SAMPLE_BUFFER}.

Local Abbreviation BUFFER := (AUDIO_IO_PROXY_BUFFER SAMPLE_BUFFER).
Local Abbreviation SERVER := (AUDIO_IO_PROXY_SERVER SAMPLE_BUFFER).

(** [finished_rep.set(v)] *)
Definition set_finished_rep (b : BUFFER) (v : Z) : BUFFER :=
  {| readptr_rep := readptr_rep b; writeptr_rep := writeptr_rep b;
     finished_rep := v; io_mode_rep := io_mode_rep b;
     sbufs_rep := sbufs_rep b |}.

(** [sbufs_rep[i]], for [i] inside the vector. *)
Definition sbuf_at (b : BUFFER) (i : Z) : option SAMPLE_BUFFER :=
  if 0 <=? i then sbufs_rep b !! Z.to_nat i else None.

(** The buffer with slot [i] as the client left it. *)
Definition set_sbuf (b : BUFFER) (i : Z) (sb : SAMPLE_BUFFER) : BUFFER :=
  {| readptr_rep := readptr_rep b; writeptr_rep := writeptr_rep b;
     finished_rep := finished_rep b; io_mode_rep := io_mode_rep b;
     sbufs_rep := <[Z.to_nat i := sb]> (sbufs_rep b) |}.

(** [if (clients_rep[p]->finished() == true) buffers_rep[p]->finished_rep.set(1);] *)
Definition mark_finished (fin : bool) (b : BUFFER) : BUFFER :=
  if fin then set_finished_rep b 1 else b.

Definition set_buffers (ps : SERVER) (bs : list BUFFER) : SERVER :=
  {| clients_rep := clients_rep ps; buffers_rep := bs;
     running_rep := running_rep ps; full_rep := full_rep ps;
     stop_request_rep := stop_request_rep ps;
     exit_request_rep := exit_request_rep ps |}.

Definition set_full (ps : SERVER) (v : Z) : SERVER :=
  {| clients_rep := clients_rep ps; buffers_rep := buffers_rep ps;
     running_rep := running_rep ps; full_rep := v;
     stop_request_rep := stop_request_rep ps;
     exit_request_rep := exit_request_rep ps |}.

(** [stop_request_rep.set(0); running_rep.set(0);] *)
Definition clear_stop_request (ps : SERVER) : SERVER :=
  {| clients_rep := clients_rep ps; buffers_rep := buffers_rep ps;
     running_rep := 0; full_rep := full_rep ps;
     stop_request_rep := 0;
     exit_request_rep := exit_request_rep ps |}.

(** The state of a pass: the store of client objects, the server and the
    local [processed]. *)
Definition pass_state : Type := gmap loc client * SERVER * Z.

(** The body of the [for] loop over the clients, for index [p].  [None]
    is an access outside a vector or through a pointer to no object. *)
Definition io_thread_client (p : nat) (st : pass_state)
    : option pass_state :=
  let '(h, ps, processed) := st in
  c ← clients_rep ps !! p;
  match c with
  | None => Some st
  | Some l =>
      b ← buffers_rep ps !! p;
      if negb (finished_rep b =? 0) then Some st
      else if decide (io_mode_rep b = io_read) then
        if 0 <? write_space b then
          cl ← h !! l;
          slot ← sbuf_at b (writeptr_rep b);
          let '(cl', sb) := read_buffer cl slot in
          let b' := advance_write_pointer
                      (mark_finished (finished cl')
                         (set_sbuf b (writeptr_rep b) sb)) in
          Some (<[l := cl']> h, set_buffers ps (<[p := b']> (buffers_rep ps)),
                processed + 1)
        else Some st
      else
        if 0 <? read_space b then
          cl ← h !! l;
          slot ← sbuf_at b (readptr_rep b);
          let cl' := write_buffer cl slot in
          let b' := advance_read_pointer (mark_finished (finished cl') b) in
          Some (<[l := cl']> h, set_buffers ps (<[p := b']> (buffers_rep ps)),
                processed + 1)
        else Some st
  end.

(** [for (p = ...; p < clients_rep.size(); p++)], with [n] clients to
    go. *)
Fixpoint io_thread_clients (n : nat) (p : nat) (st : pass_state)
    : option pass_state :=
  match n with
  | O => Some st
  | S n' => st' ← io_thread_client p st; io_thread_clients n' (S p) st'
  end.

(** One turn of the [while(true)] loop of [io_thread], the engine thread
    being quiet meanwhile. *)
Definition io_thread_iteration (h : gmap loc client) (ps : SERVER)
    : option (gmap loc client * SERVER * loop_ctl) :=
  if running_rep ps =? 0 then
    (* usleep(50000) *)
    if exit_request_rep ps =? 1 then Some (h, ps, ctl_break)
    else Some (h, ps, ctl_continue)
  else
    '(h', ps', processed) ←
      io_thread_clients (length (clients_rep ps)) 0%nat (h, ps, 0);
    let ps' := if stop_request_rep ps' =? 1 then clear_stop_request ps'
               else ps' in
    if negb (processed =? 0) then Some (h', set_full ps' 0, ctl_continue)
    else
      (* usleep(50000) *)
      Some (h', set_full ps' 1, ctl_continue).

(** The client at a slot takes part in the pass: it is registered, its
    ring is not finished, and the ring has room in its direction. *)
Definition served (c : option loc) (b : BUFFER) : bool :=
  match c with
  | None => false
  | Some _ =>
      (finished_rep b =? 0)
      && (if decide (io_mode_rep b = io_read) then 0 <? write_space b
          else 0 <? read_space b)
  end.

(** The number of slots served in a pass. *)
Fixpoint served_count (cs : list (option loc)) (bs : list BUFFER) : Z :=
  match cs, bs with
  | c :: cs', b :: bs' => (if served c b then 1 else 0) + served_count cs' bs'
  | _, _ => 0
  end.

(** What a pass leaves at a slot that held client [c] and ring [b]:
    [h] and [h'] are the stores before and after, [ob'] the ring after. *)
Definition slot_outcome (h h' : gmap loc client) (c : option loc)
    (b : BUFFER) (ob' : option BUFFER) : Prop :=
  match c with
  | None => ob' = Some b
  | Some l =>
      if served c b then
        if decide (io_mode_rep b = io_read) then
          ∃ cl slot cl' sb,
            h !! l = Some cl ∧ sbuf_at b (writeptr_rep b) = Some slot
            ∧ read_buffer cl slot = (cl', sb) ∧ h' !! l = Some cl'
            ∧ ob' = Some (advance_write_pointer
                            (mark_finished (finished cl')
                               (set_sbuf b (writeptr_rep b) sb)))
        else
          ∃ cl slot cl',
            h !! l = Some cl ∧ sbuf_at b (readptr_rep b) = Some slot
            ∧ write_buffer cl slot = cl' ∧ h' !! l = Some cl'
            ∧ ob' = Some (advance_read_pointer
                            (mark_finished (finished cl') b))
      else ob' = Some b ∧ h' !! l = h !! l
  end.

(** The vectors and the store a pass can run on: a ring for every
    client, registered clients that exist and are registered once, and
    ring indices inside the rings. *)
Definition pass_ready (h : gmap loc client) (ps : SERVER) : Prop :=
  length (buffers_rep ps) = length (clients_rep ps)
  ∧ (∀ p l, clients_rep ps !! p = Some (Some l) → is_Some (h !! l))
  ∧ (∀ p1 p2 l, clients_rep ps !! p1 = Some (Some l) →
                clients_rep ps !! p2 = Some (Some l) → p1 = p2)
  ∧ (∀ p b, buffers_rep ps !! p = Some b →
            is_Some (sbuf_at b (writeptr_rep b))
            ∧ is_Some (sbuf_at b (readptr_rep b))).

End io_thread.

(** *** A ring and a client to run the pass on *)

(** Modelled from the spec: the methods of [AUDIO_IO_PROXY_BUFFER]
    ([audioio-proxy-buffer.h] is not in src).  The occupancy is the
    distance from the read index to the write index around the cycle,
    [write_space = N - occupancy], [read_space = occupancy], and the
    indices advance around the cycle. *)
Definition ring_occupancy {SB} (b : AUDIO_IO_PROXY_BUFFER SB) : Z :=
  (writeptr_rep b - readptr_rep b) `mod` Z.of_nat (length (sbufs_rep b)).

Global Instance ring_methods {SB} : PROXY_BUFFER_methods SB := {|
  write_space b := Z.of_nat (length (sbufs_rep b)) - ring_occupancy b;
  read_space b := ring_occupancy b;
  advance_write_pointer b :=
    {| readptr_rep := readptr_rep b;
       writeptr_rep := (writeptr_rep b + 1) `mod` Z.of_nat (length (sbufs_rep b));
       finished_rep := finished_rep b; io_mode_rep := io_mode_rep b;
       sbufs_rep := sbufs_rep b |};
  advance_read_pointer b :=
    {| readptr_rep := (readptr_rep b + 1) `mod` Z.of_nat (length (sbufs_rep b));
       writeptr_rep := writeptr_rep b;
       finished_rep := finished_rep b; io_mode_rep := io_mode_rep b;
       sbufs_rep := sbufs_rep b |};
|}.

(** A client that is a queue of blocks: reading takes the first block
    (silence, [0], when none is left), writing appends the block, and the
    client is finished when the queue is empty. *)
Global Instance queue_client : AUDIO_IO (list Z) Z := {|
  read_buffer cl _ := (tail cl, default 0 (head cl));
  write_buffer cl sb := cl ++ [sb];
  finished cl := bool_decide (cl = []);
|}.

Definition example_server : AUDIO_IO_PROXY_SERVER Z :=
  {| clients_rep := [Some 1%positive; None; Some 2%positive];
     buffers_rep :=
       [ {| readptr_rep := 0; writeptr_rep := 0; finished_rep := 0;
            io_mode_rep := io_read; sbufs_rep := [0; 0] |};
         {| readptr_rep := 0; writeptr_rep := 0; finished_rep := 0;
            io_mode_rep := io_read; sbufs_rep := [0; 0] |};
         {| readptr_rep := 0; writeptr_rep := 1; finished_rep := 0;
            io_mode_rep := io_write; sbufs_rep := [7; 0] |} ];
     running_rep := 1; full_rep := 0; stop_request_rep := 0;
     exit_request_rep := 0 |}.

Definition example_store : gmap loc (list Z) :=
  {[ 1%positive := [5; 6]; 2%positive := [] ]}.

(** *** Registration and stop *)

(** The members of [AUDIO_IO_PROXY_SERVER] that the registration
    functions use besides those of the pass. *)
Record AUDIO_IO_PROXY_SERVER_registry (SAMPLE_BUFFER : Type) := {
  server_rep : AUDIO_IO_PROXY_SERVER SAMPLE_BUFFER;
  client_map_rep : gmap loc Z;     (* map<AUDIO_IO*, int> *)
  buffercount_rep : Z;
  buffersize_rep : Z;
  samplerate_rep : Z;
  thread_running_rep : bool;
}.
Arguments server_rep {_} _.
Arguments client_map_rep {_} _.
Arguments buffercount_rep {_} _.
Arguments buffersize_rep {_} _.
Arguments samplerate_rep {_} _.
Arguments thread_running_rep {_} _.

Section registration.
Context {SAMPLE_BUFFER : Type}.

Local Abbreviation BUFFER := (AUDIO_IO_PROXY_BUFFER SAMPLE_BUFFER).
Local Abbreviation SERVER := (AUDIO_IO_PROXY_SERVER SAMPLE_BUFFER).
Local Abbreviation REGISTRY := (AUDIO_IO_PROXY_SERVER_registry SAMPLE_BUFFER).

(** [SAMPLE_SPECS::channel_count_default] and
    [new AUDIO_IO_PROXY_BUFFER(count, size, channels, rate)]; neither
    [sample-specs.h] nor the constructor is in src. *)
Context (channel_count_default : Z).
Context (new_AUDIO_IO_PROXY_BUFFER : Z → Z → Z → Z → BUFFER).

Definition set_server_rep (r : REGISTRY) (ps : SERVER) : REGISTRY :=
  {| server_rep := ps; client_map_rep := client_map_rep r;
     buffercount_rep := buffercount_rep r; buffersize_rep := buffersize_rep r;
     samplerate_rep := samplerate_rep r;
     thread_running_rep := thread_running_rep r |}.

Definition set_client_map_rep (r : REGISTRY) (m : gmap loc Z) : REGISTRY :=
  {| server_rep := server_rep r; client_map_rep := m;
     buffercount_rep := buffercount_rep r; buffersize_rep := buffersize_rep r;
     samplerate_rep := samplerate_rep r;
     thread_running_rep := thread_running_rep r |}.

Definition set_clients (ps : SERVER) (cs : list (option loc)) : SERVER :=
  {| clients_rep := cs; buffers_rep := buffers_rep ps;
     running_rep := running_rep ps; full_rep := full_rep ps;
     stop_request_rep := stop_request_rep ps;
     exit_request_rep := exit_request_rep ps |}.

(** [static_cast<int>] of a [size_t], as the map stores it. *)
Definition int_of_size (n : nat) : Z :=
  (Z.of_nat n + 2 ^ 31) `mod` 2 ^ 32 - 2 ^ 31.

(** [v[i]] for an [int] index: outside the vector when [i] is negative
    or not below the size. *)
Definition vector_at {A} (v : list A) (i : Z) : option A :=
  if 0 <=? i then v !! Z.to_nat i else None.

(** [register_client] *)
Definition register_client (r : REGISTRY) (aobject : loc) : REGISTRY :=
  let ps := server_rep r in
  let ps := set_clients ps (clients_rep ps ++ [Some aobject]) in
  let ps :=
    set_buffers ps
      (buffers_rep ps
         ++ [new_AUDIO_IO_PROXY_BUFFER (buffercount_rep r) (buffersize_rep r)
               channel_count_default (samplerate_rep r)]) in
  set_client_map_rep (set_server_rep r ps)
    (<[aobject := int_of_size (length (clients_rep ps) - 1)]>
       (client_map_rep r)).

(** [client_map_rep[aobject]]: the value, with the map after the
    access, which has put 0 at a key that was not there. *)
Definition client_map_index (m : gmap loc Z) (aobject : loc)
    : Z * gmap loc Z :=
  match m !! aobject with
  | Some i => (i, m)
  | None => (0, <[aobject := 0]> m)
  end.

(** [unregister_client]; [None] when the index is outside
    [clients_rep]. *)
Definition unregister_client (r : REGISTRY) (aobject : loc)
    : option REGISTRY :=
  let '(i, m) := client_map_index (client_map_rep r) aobject in
  let ps := server_rep r in
  _ ← vector_at (clients_rep ps) i;
  Some (set_client_map_rep
          (set_server_rep r
             (set_clients ps (<[Z.to_nat i := None]> (clients_rep ps))))
          m).

(** [get_client_buffer]: the inner [None] is the null pointer, the
    outer one an index outside a vector. *)
Definition get_client_buffer (r : REGISTRY) (aobject : loc)
    : option (option BUFFER) :=
  let ps := server_rep r in
  match client_map_rep r !! aobject with
  | None => Some None
  | Some i =>
      c ← vector_at (clients_rep ps) i;
      match c with
      | None => Some None
      | Some _ => b ← vector_at (buffers_rep ps) i; Some (Some b)
      end
  end.

(** [stop] *)
Definition stop (r : REGISTRY) : REGISTRY :=
  let ps := server_rep r in
  set_server_rep r
    {| clients_rep := clients_rep ps; buffers_rep := buffers_rep ps;
       running_rep := running_rep ps; full_rep := full_rep ps;
       stop_request_rep := 1;
       exit_request_rep := exit_request_rep ps |}.

(** The registry as the functions above keep it: a ring per client
    slot, and map entries that are indices of client slots. *)
Definition registry_ok (r : REGISTRY) : Prop :=
  length (buffers_rep (server_rep r)) = length (clients_rep (server_rep r))
  ∧ Z.of_nat (length (clients_rep (server_rep r))) < 2 ^ 31
  ∧ ∀ a i, client_map_rep r !! a = Some i →
           0 ≤ i < Z.of_nat (length (clients_rep (server_rep r))).

End registration.

(** A registry over [example_server], and rings of empty blocks for the
    constructor. *)
Definition example_registry : AUDIO_IO_PROXY_SERVER_registry Z :=
  {| server_rep := example_server;
     client_map_rep := {[ 1%positive := 0; 2%positive := 2 ]};
     buffercount_rep := 32; buffersize_rep := 1024; samplerate_rep := 44100;
     thread_running_rep := true |}.

Definition example_new_buffer (count size channels rate : Z)
    : AUDIO_IO_PROXY_BUFFER Z :=
  {| readptr_rep := 0; writeptr_rep := 0; finished_rep := 0;
     io_mode_rep := io_read; sbufs_rep := replicate (Z.to_nat count) 0 |}.

End proxy_server.

(** ** libecasound/eca-chainsetup.cpp *)

Module chainsetup.

Local Open Scope Z_scope.

(** An [AUDIO_IO*]; the objects themselves live in a store. *)
Abbreviation loc := positive.

Inductive Io_mode := io_read | io_write | io_readwrite.

Inductive Buffering_mode_t :=
  | cs_bmode_auto | cs_bmode_nonrt | cs_bmode_rt | cs_bmode_rtlowlatency
  | cs_bmode_none.

Global Instance Buffering_mode_t_eq_dec : EqDecision Buffering_mode_t.
Proof. solve_decision. Defined.

(** The exceptions that cross [enable]. *)
Inductive exn :=
  | SETUP_ERROR (message : string)          (* AUDIO_IO::SETUP_ERROR *)
  | ECA_ERROR (section message : string).

(** [int] and [long] values are integers; a value that is converted to
    [int] goes through [to_int]. *)
Definition to_int (z : Z) : Z := (z + 2 ^ 31) `mod` 2 ^ 32 - 2 ^ 31.

(** Modelled from the spec: [kvu_numtostr] ([kvu_numtostr.h] is not in
    src) prints the decimal numeral of a number. *)
Definition kvu_numtostr (z : Z) : string :=
  DecimalString.NilZero.string_of_int (Z.to_int z).

(** *** Audio objects *)

Record ECA_AUDIO_FORMAT := {
  sample_format : string;
  channels : Z;
  samples_per_second_rep : Z;
  interleaved : bool;
}.

Definition set_samples_per_second_rep (v : Z) (x : ECA_AUDIO_FORMAT) : ECA_AUDIO_FORMAT :=
  {| sample_format := sample_format x; channels := channels x;
  samples_per_second_rep := v; interleaved := interleaved x |}.

(** The class of an object as [dynamic_cast] sees it.  A proxy holds a
    pointer to the object it wraps. *)
Inductive AUDIO_IO_type :=
  | AUDIO_IO_DEVICE                          (* a realtime device *)
  | LOOP_DEVICE
  | NULLFILE
  | AUDIO_IO_FILE                            (* any other object *)
  | AUDIO_IO_BUFFERED_PROXY (child_repp : loc).

Global Instance AUDIO_IO_type_eq_dec : EqDecision AUDIO_IO_type.
Proof. solve_decision. Defined.

(** Modelled from the spec: [AUDIO_IO::open()] ([audioio.h] and the
    object classes are not in src) may fail with a setup error; an
    object that opens may take its sampling rate from the file or
    device, and an object may also stay closed without an exception,
    which [enable] tests for. *)
Inductive open_outcome :=
  | open_succeeds (rate : option Z)
  | open_stays_closed
  | open_throws (message : string).

Record AUDIO_IO := {
  aio_type : AUDIO_IO_type;  (* the dynamic type *)
  label : string;
  io_mode : Io_mode;
  audio_format : ECA_AUDIO_FORMAT;
  buffersize_rep : Z;
  open_rep : bool;  (* is_open() *)
  position_in_samples : Z;
  length_in_samples : Z;
  max_buffers_rep : bool;  (* AUDIO_IO_DEVICE::toggle_max_buffers *)
  ignore_xruns_rep : bool;  (* AUDIO_IO_DEVICE::toggle_ignore_xruns *)
  on_open : open_outcome;  (* what open() does on this object *)
}.

Definition set_io_mode (v : Io_mode) (x : AUDIO_IO) : AUDIO_IO :=
  {| aio_type := aio_type x; label := label x; io_mode := v; audio_format :=
  audio_format x; buffersize_rep := buffersize_rep x; open_rep := open_rep
  x; position_in_samples := position_in_samples x; length_in_samples :=
  length_in_samples x; max_buffers_rep := max_buffers_rep x;
  ignore_xruns_rep := ignore_xruns_rep x; on_open := on_open x |}.

Definition set_audio_format (v : ECA_AUDIO_FORMAT) (x : AUDIO_IO) : AUDIO_IO :=
  {| aio_type := aio_type x; label := label x; io_mode := io_mode x;
  audio_format := v; buffersize_rep := buffersize_rep x; open_rep :=
  open_rep x; position_in_samples := position_in_samples x;
  length_in_samples := length_in_samples x; max_buffers_rep :=
  max_buffers_rep x; ignore_xruns_rep := ignore_xruns_rep x; on_open :=
  on_open x |}.

Definition set_buffersize_rep (v : Z) (x : AUDIO_IO) : AUDIO_IO :=
  {| aio_type := aio_type x; label := label x; io_mode := io_mode x;
  audio_format := audio_format x; buffersize_rep := v; open_rep := open_rep
  x; position_in_samples := position_in_samples x; length_in_samples :=
  length_in_samples x; max_buffers_rep := max_buffers_rep x;
  ignore_xruns_rep := ignore_xruns_rep x; on_open := on_open x |}.

Definition set_open_rep (v : bool) (x : AUDIO_IO) : AUDIO_IO :=
  {| aio_type := aio_type x; label := label x; io_mode := io_mode x;
  audio_format := audio_format x; buffersize_rep := buffersize_rep x;
  open_rep := v; position_in_samples := position_in_samples x;
  length_in_samples := length_in_samples x; max_buffers_rep :=
  max_buffers_rep x; ignore_xruns_rep := ignore_xruns_rep x; on_open :=
  on_open x |}.

Definition set_max_buffers_rep (v : bool) (x : AUDIO_IO) : AUDIO_IO :=
  {| aio_type := aio_type x; label := label x; io_mode := io_mode x;
  audio_format := audio_format x; buffersize_rep := buffersize_rep x;
  open_rep := open_rep x; position_in_samples := position_in_samples x;
  length_in_samples := length_in_samples x; max_buffers_rep := v;
  ignore_xruns_rep := ignore_xruns_rep x; on_open := on_open x |}.

Definition set_ignore_xruns_rep (v : bool) (x : AUDIO_IO) : AUDIO_IO :=
  {| aio_type := aio_type x; label := label x; io_mode := io_mode x;
  audio_format := audio_format x; buffersize_rep := buffersize_rep x;
  open_rep := open_rep x; position_in_samples := position_in_samples x;
  length_in_samples := length_in_samples x; max_buffers_rep :=
  max_buffers_rep x; ignore_xruns_rep := v; on_open := on_open x |}.

Definition samples_per_second (o : AUDIO_IO) : Z :=
  samples_per_second_rep (audio_format o).

Definition set_samples_per_second (v : Z) (o : AUDIO_IO) : AUDIO_IO :=
  set_audio_format (set_samples_per_second_rep v (audio_format o)) o.

Definition is_device (o : AUDIO_IO) : bool :=
  bool_decide (aio_type o = AUDIO_IO_DEVICE).

Definition is_loop_device (o : AUDIO_IO) : bool :=
  bool_decide (aio_type o = LOOP_DEVICE).

Definition proxy_child (o : AUDIO_IO) : option loc :=
  match aio_type o with
  | AUDIO_IO_BUFFERED_PROXY c => Some c
  | _ => None
  end.

(** Modelled from the spec: the default audio format,
    [s16_le,2,44100,i]. *)
Definition default_format : ECA_AUDIO_FORMAT :=
  {| sample_format := "s16_le"; channels := 2;
     samples_per_second_rep := 44100; interleaved := true |}.

(** [new NULLFILE("null")] constructs this object. *)
Definition null_object : AUDIO_IO :=
  {| aio_type := NULLFILE; label := "null"; io_mode := io_read;
     audio_format := default_format; buffersize_rep := 0; open_rep := false;
     position_in_samples := 0; length_in_samples := 0;
     max_buffers_rep := false; ignore_xruns_rep := false;
     on_open := open_succeeds None |}.

(** Modelled from the spec: the constructor of [AUDIO_IO_BUFFERED_PROXY]
    ([audioio-buffered-proxy.cpp] is not in src).  The wrapper holds a
    reference to the direct object and presents its label and format;
    it is closed. *)
Definition proxy_object (child : loc) (c : AUDIO_IO) : AUDIO_IO :=
  {| aio_type := AUDIO_IO_BUFFERED_PROXY child; label := label c;
     io_mode := io_mode c; audio_format := audio_format c;
     buffersize_rep := buffersize_rep c; open_rep := false;
     position_in_samples := position_in_samples c;
     length_in_samples := length_in_samples c;
     max_buffers_rep := false; ignore_xruns_rep := false;
     on_open := open_succeeds None |}.

Record MIDI_IO := {
  midi_label : string;
  midi_open_rep : bool;  (* is_open() *)
  midi_nonblocking : bool;
  midi_opens : bool;  (* whether open() opens the device *)
}.

Definition set_midi_open_rep (v : bool) (x : MIDI_IO) : MIDI_IO :=
  {| midi_label := midi_label x; midi_open_rep := v; midi_nonblocking :=
  midi_nonblocking x; midi_opens := midi_opens x |}.

Definition set_midi_nonblocking (v : bool) (x : MIDI_IO) : MIDI_IO :=
  {| midi_label := midi_label x; midi_open_rep := midi_open_rep x;
  midi_nonblocking := v; midi_opens := midi_opens x |}.

(** The chain as the chainsetup uses it ([eca-chain.h] of this version
    is not in src): the connected input and output are indices into the
    chainsetup's vectors. *)
Record CHAIN := {
  chainname : string;
  input_id_rep : Z;  (* connected_input(), -1 when there is none *)
  output_id_rep : Z;  (* connected_output(), -1 when there is none *)
  chainops : list string;  (* the chain operators *)
  initialized_rep : bool;
  chain_samples_per_second : Z;
}.

Definition set_input_id_rep (v : Z) (x : CHAIN) : CHAIN :=
  {| chainname := chainname x; input_id_rep := v; output_id_rep :=
  output_id_rep x; chainops := chainops x; initialized_rep :=
  initialized_rep x; chain_samples_per_second := chain_samples_per_second x
  |}.

Definition set_output_id_rep (v : Z) (x : CHAIN) : CHAIN :=
  {| chainname := chainname x; input_id_rep := input_id_rep x; output_id_rep
  := v; chainops := chainops x; initialized_rep := initialized_rep x;
  chain_samples_per_second := chain_samples_per_second x |}.

Definition set_initialized_rep (v : bool) (x : CHAIN) : CHAIN :=
  {| chainname := chainname x; input_id_rep := input_id_rep x; output_id_rep
  := output_id_rep x; chainops := chainops x; initialized_rep := v;
  chain_samples_per_second := chain_samples_per_second x |}.

Definition set_chain_samples_per_second (v : Z) (x : CHAIN) : CHAIN :=
  {| chainname := chainname x; input_id_rep := input_id_rep x; output_id_rep
  := output_id_rep x; chainops := chainops x; initialized_rep :=
  initialized_rep x; chain_samples_per_second := v |}.

Definition connected_input (q : CHAIN) : Z := input_id_rep q.
Definition connected_output (q : CHAIN) : Z := output_id_rep q.
Definition disconnect_input (q : CHAIN) : CHAIN :=
  set_initialized_rep false (set_input_id_rep (-1) q).
Definition disconnect_output (q : CHAIN) : CHAIN :=
  set_initialized_rep false (set_output_id_rep (-1) q).
Definition connect_input (c : Z) (q : CHAIN) : CHAIN :=
  set_initialized_rep false (set_input_id_rep c q).
Definition connect_output (c : Z) (q : CHAIN) : CHAIN :=
  set_initialized_rep false (set_output_id_rep c q).

Definition example_chain (name : string) : CHAIN :=
  {| chainname := name; input_id_rep := -1; output_id_rep := -1;
     chainops := []; initialized_rep := false;
     chain_samples_per_second := 44100 |}.

(** *** The chainsetup *)

(** Modelled from the spec: [ECA_CHAINSETUP_BUFPARAMS]
    ([eca-chainsetup-bufparams.h] is not in src), the parameter tuple of
    a buffering mode, each field set or unset. *)
Record ECA_CHAINSETUP_BUFPARAMS := {
  bp_buffersize : option Z;
  bp_raised_priority : option bool;
  bp_sched_priority : option Z;
  bp_double_buffering : option bool;
  bp_double_buffer_size : option Z;
  bp_max_buffers : option bool;
}.

Definition set_bp_raised_priority (v : option bool) (x : ECA_CHAINSETUP_BUFPARAMS) : ECA_CHAINSETUP_BUFPARAMS :=
  {| bp_buffersize := bp_buffersize x; bp_raised_priority := v;
  bp_sched_priority := bp_sched_priority x; bp_double_buffering :=
  bp_double_buffering x; bp_double_buffer_size := bp_double_buffer_size x;
  bp_max_buffers := bp_max_buffers x |}.

Definition set_bp_double_buffering (v : option bool) (x : ECA_CHAINSETUP_BUFPARAMS) : ECA_CHAINSETUP_BUFPARAMS :=
  {| bp_buffersize := bp_buffersize x; bp_raised_priority :=
  bp_raised_priority x; bp_sched_priority := bp_sched_priority x;
  bp_double_buffering := v; bp_double_buffer_size := bp_double_buffer_size
  x; bp_max_buffers := bp_max_buffers x |}.

Definition bufparams (bs : Z) (rp : bool) (sp : Z) (db : bool) (dbs : Z)
    (mb : bool) : ECA_CHAINSETUP_BUFPARAMS :=
  {| bp_buffersize := Some bs; bp_raised_priority := Some rp;
     bp_sched_priority := Some sp; bp_double_buffering := Some db;
     bp_double_buffer_size := Some dbs; bp_max_buffers := Some mb |}.

Definition bufparams_unset : ECA_CHAINSETUP_BUFPARAMS :=
  {| bp_buffersize := None; bp_raised_priority := None;
     bp_sched_priority := None; bp_double_buffering := None;
     bp_double_buffer_size := None; bp_max_buffers := None |}.

(** [default_bmode_nonrt_const], [default_bmode_rt_const] and
    [default_bmode_rtlowlatency_const] *)
Definition default_bmode_nonrt := bufparams 1024 true 50 true 100000 true.
Definition default_bmode_rt := bufparams 1024 true 50 true 100000 true.
Definition default_bmode_rtlowlatency :=
  bufparams 256 true 50 true 100000 false.

Record ECA_CHAINSETUP_impl := {
  bmode_nonrt_rep : ECA_CHAINSETUP_BUFPARAMS;
  bmode_rt_rep : ECA_CHAINSETUP_BUFPARAMS;
  bmode_rtlowlatency_rep : ECA_CHAINSETUP_BUFPARAMS;
  bmode_active_rep : ECA_CHAINSETUP_BUFPARAMS;
  bmode_override_rep : ECA_CHAINSETUP_BUFPARAMS;
  default_audio_format_rep : ECA_AUDIO_FORMAT;
  pserver_buffercount : Z;  (* pserver_rep.buffercount_rep *)
  pserver_buffersize : Z;  (* pserver_rep.buffersize_rep *)
  midi_server_enabled : bool;  (* midi_server_rep.is_enabled() *)
}.

Definition set_bmode_active_rep (v : ECA_CHAINSETUP_BUFPARAMS) (x : ECA_CHAINSETUP_impl) : ECA_CHAINSETUP_impl :=
  {| bmode_nonrt_rep := bmode_nonrt_rep x; bmode_rt_rep := bmode_rt_rep x;
  bmode_rtlowlatency_rep := bmode_rtlowlatency_rep x; bmode_active_rep := v;
  bmode_override_rep := bmode_override_rep x; default_audio_format_rep :=
  default_audio_format_rep x; pserver_buffercount := pserver_buffercount x;
  pserver_buffersize := pserver_buffersize x; midi_server_enabled :=
  midi_server_enabled x |}.

Definition set_bmode_override_rep (v : ECA_CHAINSETUP_BUFPARAMS) (x : ECA_CHAINSETUP_impl) : ECA_CHAINSETUP_impl :=
  {| bmode_nonrt_rep := bmode_nonrt_rep x; bmode_rt_rep := bmode_rt_rep x;
  bmode_rtlowlatency_rep := bmode_rtlowlatency_rep x; bmode_active_rep :=
  bmode_active_rep x; bmode_override_rep := v; default_audio_format_rep :=
  default_audio_format_rep x; pserver_buffercount := pserver_buffercount x;
  pserver_buffersize := pserver_buffersize x; midi_server_enabled :=
  midi_server_enabled x |}.

Definition set_pserver_buffercount (v : Z) (x : ECA_CHAINSETUP_impl) : ECA_CHAINSETUP_impl :=
  {| bmode_nonrt_rep := bmode_nonrt_rep x; bmode_rt_rep := bmode_rt_rep x;
  bmode_rtlowlatency_rep := bmode_rtlowlatency_rep x; bmode_active_rep :=
  bmode_active_rep x; bmode_override_rep := bmode_override_rep x;
  default_audio_format_rep := default_audio_format_rep x;
  pserver_buffercount := v; pserver_buffersize := pserver_buffersize x;
  midi_server_enabled := midi_server_enabled x |}.

Definition set_pserver_buffersize (v : Z) (x : ECA_CHAINSETUP_impl) : ECA_CHAINSETUP_impl :=
  {| bmode_nonrt_rep := bmode_nonrt_rep x; bmode_rt_rep := bmode_rt_rep x;
  bmode_rtlowlatency_rep := bmode_rtlowlatency_rep x; bmode_active_rep :=
  bmode_active_rep x; bmode_override_rep := bmode_override_rep x;
  default_audio_format_rep := default_audio_format_rep x;
  pserver_buffercount := pserver_buffercount x; pserver_buffersize := v;
  midi_server_enabled := midi_server_enabled x |}.

Definition set_midi_server_enabled (v : bool) (x : ECA_CHAINSETUP_impl) : ECA_CHAINSETUP_impl :=
  {| bmode_nonrt_rep := bmode_nonrt_rep x; bmode_rt_rep := bmode_rt_rep x;
  bmode_rtlowlatency_rep := bmode_rtlowlatency_rep x; bmode_active_rep :=
  bmode_active_rep x; bmode_override_rep := bmode_override_rep x;
  default_audio_format_rep := default_audio_format_rep x;
  pserver_buffercount := pserver_buffercount x; pserver_buffersize :=
  pserver_buffersize x; midi_server_enabled := v |}.

Record ECA_CHAINSETUP := {
  store : gmap loc AUDIO_IO;  (* the objects the pointers refer to *)
  inputs : list loc;
  inputs_direct_rep : list loc;
  outputs : list loc;
  outputs_direct_rep : list loc;
  input_start_pos : list Z;
  output_start_pos : list Z;
  chains : list CHAIN;
  selected_chainids : list string;
  midi_devices : list MIDI_IO;
  impl_repp : ECA_CHAINSETUP_impl;
  buffering_mode_rep : Buffering_mode_t;
  active_buffering_mode_rep : Buffering_mode_t;
  rtcaps_rep : bool;
  multitrack_mode_rep : bool;
  multitrack_mode_override_rep : bool;
  memory_locked_rep : bool;
  is_enabled_rep : bool;
  is_locked_rep : bool;
  proxy_clients_rep : Z;
  ignore_xruns_flag : bool;  (* ignore_xruns_rep *)
  cs_samples_per_second : Z;  (* ECA_CHAINSETUP_POSITION::samples_per_second() *)
  cs_length_in_samples : Z;  (* ECA_CHAINSETUP_POSITION::length_in_samples() *)
  cs_length_set : bool;  (* ECA_CHAINSETUP_POSITION::length_set() *)
  mlockall_ok : bool;  (* mlockall() is there and succeeds *)
}.

Definition set_store (v : gmap loc AUDIO_IO) (x : ECA_CHAINSETUP) : ECA_CHAINSETUP :=
  {| store := v; inputs := inputs x; inputs_direct_rep := inputs_direct_rep
  x; outputs := outputs x; outputs_direct_rep := outputs_direct_rep x;
  input_start_pos := input_start_pos x; output_start_pos := output_start_pos
  x; chains := chains x; selected_chainids := selected_chainids x;
  midi_devices := midi_devices x; impl_repp := impl_repp x;
  buffering_mode_rep := buffering_mode_rep x; active_buffering_mode_rep :=
  active_buffering_mode_rep x; rtcaps_rep := rtcaps_rep x;
  multitrack_mode_rep := multitrack_mode_rep x; multitrack_mode_override_rep
  := multitrack_mode_override_rep x; memory_locked_rep := memory_locked_rep
  x; is_enabled_rep := is_enabled_rep x; is_locked_rep := is_locked_rep x;
  proxy_clients_rep := proxy_clients_rep x; ignore_xruns_flag :=
  ignore_xruns_flag x; cs_samples_per_second := cs_samples_per_second x;
  cs_length_in_samples := cs_length_in_samples x; cs_length_set :=
  cs_length_set x; mlockall_ok := mlockall_ok x |}.

Definition set_inputs (v : list loc) (x : ECA_CHAINSETUP) : ECA_CHAINSETUP :=
  {| store := store x; inputs := v; inputs_direct_rep := inputs_direct_rep
  x; outputs := outputs x; outputs_direct_rep := outputs_direct_rep x;
  input_start_pos := input_start_pos x; output_start_pos := output_start_pos
  x; chains := chains x; selected_chainids := selected_chainids x;
  midi_devices := midi_devices x; impl_repp := impl_repp x;
  buffering_mode_rep := buffering_mode_rep x; active_buffering_mode_rep :=
  active_buffering_mode_rep x; rtcaps_rep := rtcaps_rep x;
  multitrack_mode_rep := multitrack_mode_rep x; multitrack_mode_override_rep
  := multitrack_mode_override_rep x; memory_locked_rep := memory_locked_rep
  x; is_enabled_rep := is_enabled_rep x; is_locked_rep := is_locked_rep x;
  proxy_clients_rep := proxy_clients_rep x; ignore_xruns_flag :=
  ignore_xruns_flag x; cs_samples_per_second := cs_samples_per_second x;
  cs_length_in_samples := cs_length_in_samples x; cs_length_set :=
  cs_length_set x; mlockall_ok := mlockall_ok x |}.

Definition set_inputs_direct_rep (v : list loc) (x : ECA_CHAINSETUP) : ECA_CHAINSETUP :=
  {| store := store x; inputs := inputs x; inputs_direct_rep := v; outputs
  := outputs x; outputs_direct_rep := outputs_direct_rep x; input_start_pos
  := input_start_pos x; output_start_pos := output_start_pos x; chains :=
  chains x; selected_chainids := selected_chainids x; midi_devices :=
  midi_devices x; impl_repp := impl_repp x; buffering_mode_rep :=
  buffering_mode_rep x; active_buffering_mode_rep :=
  active_buffering_mode_rep x; rtcaps_rep := rtcaps_rep x;
  multitrack_mode_rep := multitrack_mode_rep x; multitrack_mode_override_rep
  := multitrack_mode_override_rep x; memory_locked_rep := memory_locked_rep
  x; is_enabled_rep := is_enabled_rep x; is_locked_rep := is_locked_rep x;
  proxy_clients_rep := proxy_clients_rep x; ignore_xruns_flag :=
  ignore_xruns_flag x; cs_samples_per_second := cs_samples_per_second x;
  cs_length_in_samples := cs_length_in_samples x; cs_length_set :=
  cs_length_set x; mlockall_ok := mlockall_ok x |}.

Definition set_outputs (v : list loc) (x : ECA_CHAINSETUP) : ECA_CHAINSETUP :=
  {| store := store x; inputs := inputs x; inputs_direct_rep :=
  inputs_direct_rep x; outputs := v; outputs_direct_rep :=
  outputs_direct_rep x; input_start_pos := input_start_pos x;
  output_start_pos := output_start_pos x; chains := chains x;
  selected_chainids := selected_chainids x; midi_devices := midi_devices x;
  impl_repp := impl_repp x; buffering_mode_rep := buffering_mode_rep x;
  active_buffering_mode_rep := active_buffering_mode_rep x; rtcaps_rep :=
  rtcaps_rep x; multitrack_mode_rep := multitrack_mode_rep x;
  multitrack_mode_override_rep := multitrack_mode_override_rep x;
  memory_locked_rep := memory_locked_rep x; is_enabled_rep := is_enabled_rep
  x; is_locked_rep := is_locked_rep x; proxy_clients_rep :=
  proxy_clients_rep x; ignore_xruns_flag := ignore_xruns_flag x;
  cs_samples_per_second := cs_samples_per_second x; cs_length_in_samples :=
  cs_length_in_samples x; cs_length_set := cs_length_set x; mlockall_ok :=
  mlockall_ok x |}.

Definition set_outputs_direct_rep (v : list loc) (x : ECA_CHAINSETUP) : ECA_CHAINSETUP :=
  {| store := store x; inputs := inputs x; inputs_direct_rep :=
  inputs_direct_rep x; outputs := outputs x; outputs_direct_rep := v;
  input_start_pos := input_start_pos x; output_start_pos := output_start_pos
  x; chains := chains x; selected_chainids := selected_chainids x;
  midi_devices := midi_devices x; impl_repp := impl_repp x;
  buffering_mode_rep := buffering_mode_rep x; active_buffering_mode_rep :=
  active_buffering_mode_rep x; rtcaps_rep := rtcaps_rep x;
  multitrack_mode_rep := multitrack_mode_rep x; multitrack_mode_override_rep
  := multitrack_mode_override_rep x; memory_locked_rep := memory_locked_rep
  x; is_enabled_rep := is_enabled_rep x; is_locked_rep := is_locked_rep x;
  proxy_clients_rep := proxy_clients_rep x; ignore_xruns_flag :=
  ignore_xruns_flag x; cs_samples_per_second := cs_samples_per_second x;
  cs_length_in_samples := cs_length_in_samples x; cs_length_set :=
  cs_length_set x; mlockall_ok := mlockall_ok x |}.

Definition set_input_start_pos (v : list Z) (x : ECA_CHAINSETUP) : ECA_CHAINSETUP :=
  {| store := store x; inputs := inputs x; inputs_direct_rep :=
  inputs_direct_rep x; outputs := outputs x; outputs_direct_rep :=
  outputs_direct_rep x; input_start_pos := v; output_start_pos :=
  output_start_pos x; chains := chains x; selected_chainids :=
  selected_chainids x; midi_devices := midi_devices x; impl_repp :=
  impl_repp x; buffering_mode_rep := buffering_mode_rep x;
  active_buffering_mode_rep := active_buffering_mode_rep x; rtcaps_rep :=
  rtcaps_rep x; multitrack_mode_rep := multitrack_mode_rep x;
  multitrack_mode_override_rep := multitrack_mode_override_rep x;
  memory_locked_rep := memory_locked_rep x; is_enabled_rep := is_enabled_rep
  x; is_locked_rep := is_locked_rep x; proxy_clients_rep :=
  proxy_clients_rep x; ignore_xruns_flag := ignore_xruns_flag x;
  cs_samples_per_second := cs_samples_per_second x; cs_length_in_samples :=
  cs_length_in_samples x; cs_length_set := cs_length_set x; mlockall_ok :=
  mlockall_ok x |}.

Definition set_output_start_pos (v : list Z) (x : ECA_CHAINSETUP) : ECA_CHAINSETUP :=
  {| store := store x; inputs := inputs x; inputs_direct_rep :=
  inputs_direct_rep x; outputs := outputs x; outputs_direct_rep :=
  outputs_direct_rep x; input_start_pos := input_start_pos x;
  output_start_pos := v; chains := chains x; selected_chainids :=
  selected_chainids x; midi_devices := midi_devices x; impl_repp :=
  impl_repp x; buffering_mode_rep := buffering_mode_rep x;
  active_buffering_mode_rep := active_buffering_mode_rep x; rtcaps_rep :=
  rtcaps_rep x; multitrack_mode_rep := multitrack_mode_rep x;
  multitrack_mode_override_rep := multitrack_mode_override_rep x;
  memory_locked_rep := memory_locked_rep x; is_enabled_rep := is_enabled_rep
  x; is_locked_rep := is_locked_rep x; proxy_clients_rep :=
  proxy_clients_rep x; ignore_xruns_flag := ignore_xruns_flag x;
  cs_samples_per_second := cs_samples_per_second x; cs_length_in_samples :=
  cs_length_in_samples x; cs_length_set := cs_length_set x; mlockall_ok :=
  mlockall_ok x |}.

Definition set_chains (v : list CHAIN) (x : ECA_CHAINSETUP) : ECA_CHAINSETUP :=
  {| store := store x; inputs := inputs x; inputs_direct_rep :=
  inputs_direct_rep x; outputs := outputs x; outputs_direct_rep :=
  outputs_direct_rep x; input_start_pos := input_start_pos x;
  output_start_pos := output_start_pos x; chains := v; selected_chainids :=
  selected_chainids x; midi_devices := midi_devices x; impl_repp :=
  impl_repp x; buffering_mode_rep := buffering_mode_rep x;
  active_buffering_mode_rep := active_buffering_mode_rep x; rtcaps_rep :=
  rtcaps_rep x; multitrack_mode_rep := multitrack_mode_rep x;
  multitrack_mode_override_rep := multitrack_mode_override_rep x;
  memory_locked_rep := memory_locked_rep x; is_enabled_rep := is_enabled_rep
  x; is_locked_rep := is_locked_rep x; proxy_clients_rep :=
  proxy_clients_rep x; ignore_xruns_flag := ignore_xruns_flag x;
  cs_samples_per_second := cs_samples_per_second x; cs_length_in_samples :=
  cs_length_in_samples x; cs_length_set := cs_length_set x; mlockall_ok :=
  mlockall_ok x |}.

Definition set_midi_devices (v : list MIDI_IO) (x : ECA_CHAINSETUP) : ECA_CHAINSETUP :=
  {| store := store x; inputs := inputs x; inputs_direct_rep :=
  inputs_direct_rep x; outputs := outputs x; outputs_direct_rep :=
  outputs_direct_rep x; input_start_pos := input_start_pos x;
  output_start_pos := output_start_pos x; chains := chains x;
  selected_chainids := selected_chainids x; midi_devices := v; impl_repp :=
  impl_repp x; buffering_mode_rep := buffering_mode_rep x;
  active_buffering_mode_rep := active_buffering_mode_rep x; rtcaps_rep :=
  rtcaps_rep x; multitrack_mode_rep := multitrack_mode_rep x;
  multitrack_mode_override_rep := multitrack_mode_override_rep x;
  memory_locked_rep := memory_locked_rep x; is_enabled_rep := is_enabled_rep
  x; is_locked_rep := is_locked_rep x; proxy_clients_rep :=
  proxy_clients_rep x; ignore_xruns_flag := ignore_xruns_flag x;
  cs_samples_per_second := cs_samples_per_second x; cs_length_in_samples :=
  cs_length_in_samples x; cs_length_set := cs_length_set x; mlockall_ok :=
  mlockall_ok x |}.

Definition set_impl_repp (v : ECA_CHAINSETUP_impl) (x : ECA_CHAINSETUP) : ECA_CHAINSETUP :=
  {| store := store x; inputs := inputs x; inputs_direct_rep :=
  inputs_direct_rep x; outputs := outputs x; outputs_direct_rep :=
  outputs_direct_rep x; input_start_pos := input_start_pos x;
  output_start_pos := output_start_pos x; chains := chains x;
  selected_chainids := selected_chainids x; midi_devices := midi_devices x;
  impl_repp := v; buffering_mode_rep := buffering_mode_rep x;
  active_buffering_mode_rep := active_buffering_mode_rep x; rtcaps_rep :=
  rtcaps_rep x; multitrack_mode_rep := multitrack_mode_rep x;
  multitrack_mode_override_rep := multitrack_mode_override_rep x;
  memory_locked_rep := memory_locked_rep x; is_enabled_rep := is_enabled_rep
  x; is_locked_rep := is_locked_rep x; proxy_clients_rep :=
  proxy_clients_rep x; ignore_xruns_flag := ignore_xruns_flag x;
  cs_samples_per_second := cs_samples_per_second x; cs_length_in_samples :=
  cs_length_in_samples x; cs_length_set := cs_length_set x; mlockall_ok :=
  mlockall_ok x |}.

Definition set_active_buffering_mode_rep (v : Buffering_mode_t) (x : ECA_CHAINSETUP) : ECA_CHAINSETUP :=
  {| store := store x; inputs := inputs x; inputs_direct_rep :=
  inputs_direct_rep x; outputs := outputs x; outputs_direct_rep :=
  outputs_direct_rep x; input_start_pos := input_start_pos x;
  output_start_pos := output_start_pos x; chains := chains x;
  selected_chainids := selected_chainids x; midi_devices := midi_devices x;
  impl_repp := impl_repp x; buffering_mode_rep := buffering_mode_rep x;
  active_buffering_mode_rep := v; rtcaps_rep := rtcaps_rep x;
  multitrack_mode_rep := multitrack_mode_rep x; multitrack_mode_override_rep
  := multitrack_mode_override_rep x; memory_locked_rep := memory_locked_rep
  x; is_enabled_rep := is_enabled_rep x; is_locked_rep := is_locked_rep x;
  proxy_clients_rep := proxy_clients_rep x; ignore_xruns_flag :=
  ignore_xruns_flag x; cs_samples_per_second := cs_samples_per_second x;
  cs_length_in_samples := cs_length_in_samples x; cs_length_set :=
  cs_length_set x; mlockall_ok := mlockall_ok x |}.

Definition set_multitrack_mode_rep (v : bool) (x : ECA_CHAINSETUP) : ECA_CHAINSETUP :=
  {| store := store x; inputs := inputs x; inputs_direct_rep :=
  inputs_direct_rep x; outputs := outputs x; outputs_direct_rep :=
  outputs_direct_rep x; input_start_pos := input_start_pos x;
  output_start_pos := output_start_pos x; chains := chains x;
  selected_chainids := selected_chainids x; midi_devices := midi_devices x;
  impl_repp := impl_repp x; buffering_mode_rep := buffering_mode_rep x;
  active_buffering_mode_rep := active_buffering_mode_rep x; rtcaps_rep :=
  rtcaps_rep x; multitrack_mode_rep := v; multitrack_mode_override_rep :=
  multitrack_mode_override_rep x; memory_locked_rep := memory_locked_rep x;
  is_enabled_rep := is_enabled_rep x; is_locked_rep := is_locked_rep x;
  proxy_clients_rep := proxy_clients_rep x; ignore_xruns_flag :=
  ignore_xruns_flag x; cs_samples_per_second := cs_samples_per_second x;
  cs_length_in_samples := cs_length_in_samples x; cs_length_set :=
  cs_length_set x; mlockall_ok := mlockall_ok x |}.

Definition set_memory_locked_rep (v : bool) (x : ECA_CHAINSETUP) : ECA_CHAINSETUP :=
  {| store := store x; inputs := inputs x; inputs_direct_rep :=
  inputs_direct_rep x; outputs := outputs x; outputs_direct_rep :=
  outputs_direct_rep x; input_start_pos := input_start_pos x;
  output_start_pos := output_start_pos x; chains := chains x;
  selected_chainids := selected_chainids x; midi_devices := midi_devices x;
  impl_repp := impl_repp x; buffering_mode_rep := buffering_mode_rep x;
  active_buffering_mode_rep := active_buffering_mode_rep x; rtcaps_rep :=
  rtcaps_rep x; multitrack_mode_rep := multitrack_mode_rep x;
  multitrack_mode_override_rep := multitrack_mode_override_rep x;
  memory_locked_rep := v; is_enabled_rep := is_enabled_rep x; is_locked_rep
  := is_locked_rep x; proxy_clients_rep := proxy_clients_rep x;
  ignore_xruns_flag := ignore_xruns_flag x; cs_samples_per_second :=
  cs_samples_per_second x; cs_length_in_samples := cs_length_in_samples x;
  cs_length_set := cs_length_set x; mlockall_ok := mlockall_ok x |}.

Definition set_is_enabled_rep (v : bool) (x : ECA_CHAINSETUP) : ECA_CHAINSETUP :=
  {| store := store x; inputs := inputs x; inputs_direct_rep :=
  inputs_direct_rep x; outputs := outputs x; outputs_direct_rep :=
  outputs_direct_rep x; input_start_pos := input_start_pos x;
  output_start_pos := output_start_pos x; chains := chains x;
  selected_chainids := selected_chainids x; midi_devices := midi_devices x;
  impl_repp := impl_repp x; buffering_mode_rep := buffering_mode_rep x;
  active_buffering_mode_rep := active_buffering_mode_rep x; rtcaps_rep :=
  rtcaps_rep x; multitrack_mode_rep := multitrack_mode_rep x;
  multitrack_mode_override_rep := multitrack_mode_override_rep x;
  memory_locked_rep := memory_locked_rep x; is_enabled_rep := v;
  is_locked_rep := is_locked_rep x; proxy_clients_rep := proxy_clients_rep
  x; ignore_xruns_flag := ignore_xruns_flag x; cs_samples_per_second :=
  cs_samples_per_second x; cs_length_in_samples := cs_length_in_samples x;
  cs_length_set := cs_length_set x; mlockall_ok := mlockall_ok x |}.

Definition set_proxy_clients_rep (v : Z) (x : ECA_CHAINSETUP) : ECA_CHAINSETUP :=
  {| store := store x; inputs := inputs x; inputs_direct_rep :=
  inputs_direct_rep x; outputs := outputs x; outputs_direct_rep :=
  outputs_direct_rep x; input_start_pos := input_start_pos x;
  output_start_pos := output_start_pos x; chains := chains x;
  selected_chainids := selected_chainids x; midi_devices := midi_devices x;
  impl_repp := impl_repp x; buffering_mode_rep := buffering_mode_rep x;
  active_buffering_mode_rep := active_buffering_mode_rep x; rtcaps_rep :=
  rtcaps_rep x; multitrack_mode_rep := multitrack_mode_rep x;
  multitrack_mode_override_rep := multitrack_mode_override_rep x;
  memory_locked_rep := memory_locked_rep x; is_enabled_rep := is_enabled_rep
  x; is_locked_rep := is_locked_rep x; proxy_clients_rep := v;
  ignore_xruns_flag := ignore_xruns_flag x; cs_samples_per_second :=
  cs_samples_per_second x; cs_length_in_samples := cs_length_in_samples x;
  cs_length_set := cs_length_set x; mlockall_ok := mlockall_ok x |}.

Definition set_cs_samples_per_second (v : Z) (x : ECA_CHAINSETUP) : ECA_CHAINSETUP :=
  {| store := store x; inputs := inputs x; inputs_direct_rep :=
  inputs_direct_rep x; outputs := outputs x; outputs_direct_rep :=
  outputs_direct_rep x; input_start_pos := input_start_pos x;
  output_start_pos := output_start_pos x; chains := chains x;
  selected_chainids := selected_chainids x; midi_devices := midi_devices x;
  impl_repp := impl_repp x; buffering_mode_rep := buffering_mode_rep x;
  active_buffering_mode_rep := active_buffering_mode_rep x; rtcaps_rep :=
  rtcaps_rep x; multitrack_mode_rep := multitrack_mode_rep x;
  multitrack_mode_override_rep := multitrack_mode_override_rep x;
  memory_locked_rep := memory_locked_rep x; is_enabled_rep := is_enabled_rep
  x; is_locked_rep := is_locked_rep x; proxy_clients_rep :=
  proxy_clients_rep x; ignore_xruns_flag := ignore_xruns_flag x;
  cs_samples_per_second := v; cs_length_in_samples := cs_length_in_samples
  x; cs_length_set := cs_length_set x; mlockall_ok := mlockall_ok x |}.

Definition set_cs_length_in_samples (v : Z) (x : ECA_CHAINSETUP) : ECA_CHAINSETUP :=
  {| store := store x; inputs := inputs x; inputs_direct_rep :=
  inputs_direct_rep x; outputs := outputs x; outputs_direct_rep :=
  outputs_direct_rep x; input_start_pos := input_start_pos x;
  output_start_pos := output_start_pos x; chains := chains x;
  selected_chainids := selected_chainids x; midi_devices := midi_devices x;
  impl_repp := impl_repp x; buffering_mode_rep := buffering_mode_rep x;
  active_buffering_mode_rep := active_buffering_mode_rep x; rtcaps_rep :=
  rtcaps_rep x; multitrack_mode_rep := multitrack_mode_rep x;
  multitrack_mode_override_rep := multitrack_mode_override_rep x;
  memory_locked_rep := memory_locked_rep x; is_enabled_rep := is_enabled_rep
  x; is_locked_rep := is_locked_rep x; proxy_clients_rep :=
  proxy_clients_rep x; ignore_xruns_flag := ignore_xruns_flag x;
  cs_samples_per_second := cs_samples_per_second x; cs_length_in_samples :=
  v; cs_length_set := cs_length_set x; mlockall_ok := mlockall_ok x |}.

Definition set_cs_length_set (v : bool) (x : ECA_CHAINSETUP) : ECA_CHAINSETUP :=
  {| store := store x; inputs := inputs x; inputs_direct_rep :=
  inputs_direct_rep x; outputs := outputs x; outputs_direct_rep :=
  outputs_direct_rep x; input_start_pos := input_start_pos x;
  output_start_pos := output_start_pos x; chains := chains x;
  selected_chainids := selected_chainids x; midi_devices := midi_devices x;
  impl_repp := impl_repp x; buffering_mode_rep := buffering_mode_rep x;
  active_buffering_mode_rep := active_buffering_mode_rep x; rtcaps_rep :=
  rtcaps_rep x; multitrack_mode_rep := multitrack_mode_rep x;
  multitrack_mode_override_rep := multitrack_mode_override_rep x;
  memory_locked_rep := memory_locked_rep x; is_enabled_rep := is_enabled_rep
  x; is_locked_rep := is_locked_rep x; proxy_clients_rep :=
  proxy_clients_rep x; ignore_xruns_flag := ignore_xruns_flag x;
  cs_samples_per_second := cs_samples_per_second x; cs_length_in_samples :=
  cs_length_in_samples x; cs_length_set := v; mlockall_ok := mlockall_ok x
  |}.

Definition set_selected_chainids (v : list string) (x : ECA_CHAINSETUP) : ECA_CHAINSETUP :=
  {| store := store x; inputs := inputs x; inputs_direct_rep :=
  inputs_direct_rep x; outputs := outputs x; outputs_direct_rep :=
  outputs_direct_rep x; input_start_pos := input_start_pos x;
  output_start_pos := output_start_pos x; chains := chains x;
  selected_chainids := v; midi_devices := midi_devices x; impl_repp :=
  impl_repp x; buffering_mode_rep := buffering_mode_rep x;
  active_buffering_mode_rep := active_buffering_mode_rep x; rtcaps_rep :=
  rtcaps_rep x; multitrack_mode_rep := multitrack_mode_rep x;
  multitrack_mode_override_rep := multitrack_mode_override_rep x;
  memory_locked_rep := memory_locked_rep x; is_enabled_rep := is_enabled_rep
  x; is_locked_rep := is_locked_rep x; proxy_clients_rep :=
  proxy_clients_rep x; ignore_xruns_flag := ignore_xruns_flag x;
  cs_samples_per_second := cs_samples_per_second x; cs_length_in_samples :=
  cs_length_in_samples x; cs_length_set := cs_length_set x; mlockall_ok :=
  mlockall_ok x |}.

Definition set_multitrack_mode_override_rep (v : bool) (x : ECA_CHAINSETUP) : ECA_CHAINSETUP :=
  {| store := store x; inputs := inputs x; inputs_direct_rep :=
  inputs_direct_rep x; outputs := outputs x; outputs_direct_rep :=
  outputs_direct_rep x; input_start_pos := input_start_pos x;
  output_start_pos := output_start_pos x; chains := chains x;
  selected_chainids := selected_chainids x; midi_devices := midi_devices x;
  impl_repp := impl_repp x; buffering_mode_rep := buffering_mode_rep x;
  active_buffering_mode_rep := active_buffering_mode_rep x; rtcaps_rep :=
  rtcaps_rep x; multitrack_mode_rep := multitrack_mode_rep x;
  multitrack_mode_override_rep := v; memory_locked_rep := memory_locked_rep
  x; is_enabled_rep := is_enabled_rep x; is_locked_rep := is_locked_rep x;
  proxy_clients_rep := proxy_clients_rep x; ignore_xruns_flag :=
  ignore_xruns_flag x; cs_samples_per_second := cs_samples_per_second x;
  cs_length_in_samples := cs_length_in_samples x; cs_length_set :=
  cs_length_set x; mlockall_ok := mlockall_ok x |}.

(** Two chains, both selected. *)
Definition set_selected_two_chains (x : ECA_CHAINSETUP) : ECA_CHAINSETUP :=
  set_selected_chainids ["c1"; "c2"]
    (set_chains [example_chain "c1"; example_chain "c2"] x).

(** *** Effects: state, exceptions, undefined behaviour *)

Inductive outcome (A : Type) :=
  | Ok (a : A) (cs : ECA_CHAINSETUP)
  | Throw (e : exn) (cs : ECA_CHAINSETUP)   (* what was done stays done *)
  | Undefined.                  (* no object behind a pointer, an index
                                   outside a vector, a division by zero *)
Arguments Ok {_} _ _.
Arguments Throw {_} _ _.
Arguments Undefined {_}.

Definition M (A : Type) : Type := ECA_CHAINSETUP → outcome A.

Global Instance M_ret : MRet M := λ A a cs, Ok a cs.
Global Instance M_bind : MBind M := λ A B f m cs,
  match m cs with
  | Ok a cs' => f a cs'
  | Throw e cs' => Throw e cs'
  | Undefined => Undefined
  end.

Definition get : M ECA_CHAINSETUP := λ cs, Ok cs cs.
Definition modify (f : ECA_CHAINSETUP → ECA_CHAINSETUP) : M unit :=
  λ cs, Ok tt (f cs).
Definition throw {A} (e : exn) : M A := λ cs, Throw e cs.
Definition undefined {A} : M A := λ _, Undefined.
Definition lift {A} (o : option A) : M A :=
  match o with Some a => mret a | None => undefined end.
Definition when (c : bool) (m : M unit) : M unit :=
  if c then m else mret tt.

(** [try { m } catch (e) { handler e }] *)
Definition try_catch {A} (m : M A) (handler : exn → M A) : M A := λ cs,
  match m cs with
  | Throw e cs' => handler e cs'
  | o => o
  end.

(** A [for] loop over a vector that the body does not resize. *)
Fixpoint for_each {A} (v : list A) (body : A → M unit) : M unit :=
  match v with
  | [] => mret tt
  | a :: v' => body a;; for_each v' body
  end.

(** [*p], [*p = o], [new], [delete p] *)
Definition deref (p : loc) : M AUDIO_IO :=
  cs ← get; lift (store cs !! p).
Definition assign (p : loc) (o : AUDIO_IO) : M unit :=
  modify (λ cs, set_store (<[p := o]> (store cs)) cs).
Definition update (p : loc) (f : AUDIO_IO → AUDIO_IO) : M unit :=
  o ← deref p; assign p (f o).
Definition new_object (o : AUDIO_IO) : M loc :=
  cs ← get;
  let p := fresh (dom (store cs)) in
  assign p o;; mret p.
Definition delete_object (p : loc) : M unit :=
  _ ← deref p; modify (λ cs, set_store (delete p (store cs)) cs).

(** [v[n]] and [v[n] = x] on a vector *)
Definition at_index {A} (v : list A) (n : nat) : M A := lift (v !! n).
Definition store_index {A} (v : list A) (n : nat) (x : A) : M (list A) :=
  if decide (n < length v)%nat then mret (<[n := x]> v) else undefined.

(** *** Virtual member functions of the audio objects *)

(** [set_buffersize]: the proxy passes it to its child
    ([audioio-buffered-proxy.h]). *)
Definition aio_set_buffersize (p : loc) (v : Z) : M unit :=
  o ← deref p;
  match proxy_child o with
  | Some c => update c (set_buffersize_rep v)
  | None => assign p (set_buffersize_rep v o)
  end.

(** [position_in_samples()] and [length_in_samples()]: the proxy asks
    its child ([audioio-buffered-proxy.h]). *)
Definition aio_position_in_samples (p : loc) : M Z :=
  o ← deref p;
  match proxy_child o with
  | Some c => oc ← deref c; mret (position_in_samples oc)
  | None => mret (position_in_samples o)
  end.

Definition aio_length_in_samples (p : loc) : M Z :=
  o ← deref p;
  match proxy_child o with
  | Some c => oc ← deref c; mret (length_in_samples oc)
  | None => mret (length_in_samples o)
  end.

(** [open()] of an object that is not a proxy. *)
Definition open_direct (p : loc) : M unit :=
  o ← deref p;
  match on_open o with
  | open_succeeds None => assign p (set_open_rep true o)
  | open_succeeds (Some r) =>
      assign p (set_open_rep true (set_samples_per_second r o))
  | open_stays_closed => mret tt
  | open_throws msg => throw (SETUP_ERROR msg)
  end.

(** Modelled from the spec: [AUDIO_IO_BUFFERED_PROXY::open()]
    ([audioio-buffered-proxy.cpp] is not in src).  It is the direct
    object that gets opened; the wrapper then presents the format of the
    direct object and is open when the direct object is. *)
Definition aio_open (p : loc) : M unit :=
  o ← deref p;
  match proxy_child o with
  | Some c =>
      oc ← deref c;
      when (negb (open_rep oc)) (open_direct c);;
      oc ← deref c;
      update p (λ o, set_open_rep (open_rep oc)
                       (set_audio_format (audio_format oc) o))
  | None => open_direct p
  end.

(** *** Buffering parameters *)

Definition bp_value {A} (d : A) (override active : option A) : A :=
  match override with
  | Some v => v
  | None => default d active
  end.

Definition buffersize (cs : ECA_CHAINSETUP) : Z :=
  bp_value 0 (bp_buffersize (bmode_override_rep (impl_repp cs)))
    (bp_buffersize (bmode_active_rep (impl_repp cs))).

Definition raised_priority (cs : ECA_CHAINSETUP) : bool :=
  bp_value false (bp_raised_priority (bmode_override_rep (impl_repp cs)))
    (bp_raised_priority (bmode_active_rep (impl_repp cs))).

Definition double_buffering (cs : ECA_CHAINSETUP) : bool :=
  bp_value false (bp_double_buffering (bmode_override_rep (impl_repp cs)))
    (bp_double_buffering (bmode_active_rep (impl_repp cs))).

Definition double_buffer_size (cs : ECA_CHAINSETUP) : Z :=
  bp_value 0 (bp_double_buffer_size (bmode_override_rep (impl_repp cs)))
    (bp_double_buffer_size (bmode_active_rep (impl_repp cs))).

Definition max_buffers (cs : ECA_CHAINSETUP) : bool :=
  bp_value false (bp_max_buffers (bmode_override_rep (impl_repp cs)))
    (bp_max_buffers (bmode_active_rep (impl_repp cs))).

Definition ignore_xruns (cs : ECA_CHAINSETUP) : bool := ignore_xruns_flag cs.

Definition default_audio_format (cs : ECA_CHAINSETUP) : ECA_AUDIO_FORMAT :=
  default_audio_format_rep (impl_repp cs).

(** [toggle_raised_priority(value)] writes the override. *)
Definition toggle_raised_priority (value : bool) : M unit :=
  modify (λ cs,
    set_impl_repp
      (set_bmode_override_rep
         (set_bp_raised_priority (Some value)
            (bmode_override_rep (impl_repp cs)))
         (impl_repp cs)) cs).

Definition set_bmode_active (bp : ECA_CHAINSETUP_BUFPARAMS) : M unit :=
  modify (λ cs, set_impl_repp (set_bmode_active_rep bp (impl_repp cs)) cs).

(** *** Counting the objects *)

(** [dynamic_cast<AUDIO_IO_DEVICE*>(p) != 0] *)
Definition dynamic_cast_DEVICE (h : gmap loc AUDIO_IO) (p : loc)
    : option bool :=
  o ← h !! p; Some (is_device o).

Fixpoint count_devices (h : gmap loc AUDIO_IO) (v : list loc) (res : Z)
    : option Z :=
  match v with
  | [] => Some res
  | p :: v' =>
      d ← dynamic_cast_DEVICE h p;
      count_devices h v' (if (d : bool) then res + 1 else res)
  end.

Definition number_of_realtime_inputs (cs : ECA_CHAINSETUP) : option Z :=
  count_devices (store cs) (inputs_direct_rep cs) 0.

Definition number_of_realtime_outputs (cs : ECA_CHAINSETUP) : option Z :=
  count_devices (store cs) (outputs_direct_rep cs) 0.

Definition number_of_non_realtime_inputs (cs : ECA_CHAINSETUP) : option Z :=
  n ← number_of_realtime_inputs cs;
  Some (to_int (Z.of_nat (length (inputs cs)) - n)).

Definition number_of_non_realtime_outputs (cs : ECA_CHAINSETUP) : option Z :=
  n ← number_of_realtime_outputs cs;
  Some (to_int (Z.of_nat (length (outputs cs)) - n)).

Definition number_of_chain_operators (cs : ECA_CHAINSETUP) : Z :=
  foldl (λ cops q, cops + Z.of_nat (length (chainops q))) 0 (chains cs).

(** [a && b] and [a || b], the right operand being evaluated only when
    the left one does not decide. *)
Definition and_then (a b : option bool) : option bool :=
  x ← a; if (x : bool) then b else Some false.
Definition or_else (a b : option bool) : option bool :=
  x ← a; if (x : bool) then Some true else b.

Definition has_realtime_objects (cs : ECA_CHAINSETUP) : option bool :=
  or_else ((λ n, 0 <? n) <$> number_of_realtime_inputs cs)
          ((λ n, 0 <? n) <$> number_of_realtime_outputs cs).

Definition has_nonrealtime_objects (cs : ECA_CHAINSETUP) : option bool :=
  i ← number_of_realtime_inputs cs;
  o ← number_of_realtime_outputs cs;
  Some (i + o <? to_int (Z.of_nat (length (inputs_direct_rep cs)
                                   + length (outputs_direct_rep cs)))).

(** *** [select_active_buffering_mode] *)

(** The condition of the multitrack [if]. *)
Definition multitrack_condition (cs : ECA_CHAINSETUP) : option bool :=
  and_then
    (Some (negb (multitrack_mode_override_rep cs
                 && negb (multitrack_mode_rep cs))))
    (or_else
       (Some (multitrack_mode_override_rep cs && multitrack_mode_rep cs))
       (and_then ((λ n, 0 <? n) <$> number_of_realtime_inputs cs)
       (and_then ((λ n, 0 <? n) <$> number_of_realtime_outputs cs)
       (and_then ((λ n, 0 <? n) <$> number_of_non_realtime_inputs cs)
       (and_then ((λ n, 0 <? n) <$> number_of_non_realtime_outputs cs)
                 (Some (1 <? length (chains cs))%nat)))))).

(** The condition of case 3. *)
Definition one_way_condition (cs : ECA_CHAINSETUP) : option bool :=
  and_then
    (Some (number_of_chain_operators cs =? 0))
    (or_else ((λ n, n =? 0) <$> number_of_realtime_inputs cs)
             ((λ n, n =? 0) <$> number_of_realtime_outputs cs)).

Definition select_active_buffering_mode : M unit :=
  cs ← get;
  when (bool_decide (buffering_mode_rep cs = cs_bmode_none))
       (modify (set_active_buffering_mode_rep cs_bmode_auto));;
  mt ← lift (multitrack_condition cs);
  modify (set_multitrack_mode_rep mt);;
  (if bool_decide (buffering_mode_rep cs = cs_bmode_auto) then
     modify (set_active_buffering_mode_rep cs_bmode_nonrt);;
     rt ← lift (has_realtime_objects cs);
     if (rt : bool) then
       if (mt : bool) then
         modify (set_active_buffering_mode_rep cs_bmode_rt)
       else if negb (rtcaps_rep cs) then
         toggle_raised_priority false;;
         modify (set_active_buffering_mode_rep cs_bmode_rt)
       else
         one_way ← lift (one_way_condition cs);
         if (one_way : bool) then
           modify (set_active_buffering_mode_rep cs_bmode_rt)
         else
           modify (set_active_buffering_mode_rep cs_bmode_rtlowlatency)
     else
       modify (set_active_buffering_mode_rep cs_bmode_nonrt)
   else
     modify (set_active_buffering_mode_rep (buffering_mode_rep cs)));;
  cs ← get;
  match active_buffering_mode_rep cs with
  | cs_bmode_nonrt => set_bmode_active (bmode_nonrt_rep (impl_repp cs))
  | cs_bmode_rt => set_bmode_active (bmode_rt_rep (impl_repp cs))
  | cs_bmode_rtlowlatency =>
      set_bmode_active (bmode_rtlowlatency_rep (impl_repp cs))
  | _ => mret tt
  end.

(** The topology half of the multitrack condition, [rti] and [rto]
    being the numbers of realtime inputs and outputs. *)
Definition multitrack_topology (cs : ECA_CHAINSETUP) (rti rto : Z) : bool :=
  (0 <? rti) && (0 <? rto)
  && (0 <? to_int (Z.of_nat (length (inputs cs)) - rti))
  && (0 <? to_int (Z.of_nat (length (outputs cs)) - rto))
  && (1 <? length (chains cs))%nat.

(** The parameters that go with a selected mode. *)
Definition bmode_params (cs : ECA_CHAINSETUP) (m : Buffering_mode_t)
    : ECA_CHAINSETUP_BUFPARAMS :=
  match m with
  | cs_bmode_nonrt => bmode_nonrt_rep (impl_repp cs)
  | cs_bmode_rt => bmode_rt_rep (impl_repp cs)
  | cs_bmode_rtlowlatency => bmode_rtlowlatency_rep (impl_repp cs)
  | _ => bmode_active_rep (impl_repp cs)
  end.

(** *** Proxies and the object vectors *)

(** The functions that take a pointer to [inputs] or to [outputs] take
    the side instead. *)
Inductive side := input_side | output_side.

Definition front (s : side) (cs : ECA_CHAINSETUP) : list loc :=
  match s with input_side => inputs cs | output_side => outputs cs end.
Definition direct (s : side) (cs : ECA_CHAINSETUP) : list loc :=
  match s with
  | input_side => inputs_direct_rep cs
  | output_side => outputs_direct_rep cs
  end.
Definition set_front (s : side) (v : list loc) : M unit :=
  modify (match s with
          | input_side => set_inputs v
          | output_side => set_outputs v
          end).
Definition set_direct (s : side) (v : list loc) : M unit :=
  modify (match s with
          | input_side => set_inputs_direct_rep v
          | output_side => set_outputs_direct_rep v
          end).

Definition add_proxy_clients (d : Z) : M unit :=
  modify (λ cs, set_proxy_clients_rep (proxy_clients_rep cs + d) cs).

(** [add_audio_object_helper] *)
Definition add_audio_object_helper (aio : loc) : M loc :=
  o ← deref aio;
  if negb (is_device o) && negb (is_loop_device o) then
    retobj ← new_object (proxy_object aio o);
    add_proxy_clients 1;;
    mret retobj
  else mret aio.

(** [remove_audio_object_helper] *)
Definition remove_audio_object_helper (aio : loc) : M unit :=
  o ← deref aio;
  match proxy_child o with
  | Some _ => delete_object aio;; add_proxy_clients (-1)
  | None => mret tt
  end.

(** [switch_to_direct_mode_helper]: the loop from index [n], with [k]
    indices to go. *)
Fixpoint switch_to_direct_mode_loop (s : side) (k n : nat) : M unit :=
  match k with
  | O => mret tt
  | S k' =>
      cs ← get;
      p ← at_index (front s cs) n;
      o ← deref p;
      match proxy_child o with
      | Some _ =>
          delete_object p;;
          cs ← get;
          d ← at_index (direct s cs) n;
          v ← store_index (front s cs) n d;
          set_front s v;;
          add_proxy_clients (-1)
      | None => mret tt
      end;;
      switch_to_direct_mode_loop s k' (S n)
  end.

Definition switch_to_direct_mode_helper (s : side) : M unit :=
  cs ← get; switch_to_direct_mode_loop s (length (front s cs)) 0.

Definition switch_to_direct_mode : M unit :=
  switch_to_direct_mode_helper input_side;;
  switch_to_direct_mode_helper output_side.

(** [switch_to_proxy_mode_helper] *)
Fixpoint switch_to_proxy_mode_loop (s : side) (k n : nat) : M unit :=
  match k with
  | O => mret tt
  | S k' =>
      cs ← get;
      d ← at_index (direct s cs) n;
      p ← add_audio_object_helper d;
      cs ← get;
      v ← store_index (front s cs) n p;
      set_front s v;;
      switch_to_proxy_mode_loop s k' (S n)
  end.

Definition switch_to_proxy_mode_helper (s : side) : M unit :=
  cs ← get; switch_to_proxy_mode_loop s (length (direct s cs)) 0.

Definition switch_to_proxy_mode : M unit :=
  switch_to_proxy_mode_helper input_side;;
  switch_to_proxy_mode_helper output_side.

(** [lock_all_memory] and [unlock_all_memory] *)
Definition lock_all_memory : M unit :=
  cs ← get;
  when (mlockall_ok cs) (modify (set_memory_locked_rep true)).

Definition unlock_all_memory : M unit :=
  modify (set_memory_locked_rep false).

(** [pserver_rep.set_buffer_defaults(buffers, buffersize)] *)
Definition set_buffer_defaults (buffers buffersize : Z) : M unit :=
  modify (λ cs,
    set_impl_repp
      (set_pserver_buffercount (to_int buffers)
         (set_pserver_buffersize buffersize (impl_repp cs))) cs).

Definition toggle_active_double_buffering (v : bool) : M unit :=
  cs ← get;
  set_bmode_active
    (set_bp_double_buffering (Some v) (bmode_active_rep (impl_repp cs))).

(** [enable_active_buffering_mode] *)
Definition enable_active_buffering_mode : M unit :=
  cs ← get;
  (if raised_priority cs then lock_all_memory else unlock_all_memory);;
  cs ← get;
  if double_buffering cs then
    rt ← lift (has_realtime_objects cs);
    (if negb (rt : bool) then
       switch_to_direct_mode;; toggle_active_double_buffering false
     else
       nonrt ← lift (has_nonrealtime_objects cs);
       if negb (nonrt : bool) then
         switch_to_direct_mode;; toggle_active_double_buffering false
       else
         when (proxy_clients_rep cs =? 0) switch_to_proxy_mode);;
    cs ← get;
    if buffersize cs =? 0 then undefined
    else set_buffer_defaults (double_buffer_size cs ÷ buffersize cs)
           (buffersize cs)
  else
    when (0 <? proxy_clients_rep cs) switch_to_direct_mode.

(** *** Adding and removing objects *)

Definition map_chains (f : CHAIN → CHAIN) : M unit :=
  modify (λ cs, set_chains (f <$> chains cs) cs).

(** The chain's connection on one side. *)
Definition connected (s : side) (q : CHAIN) : Z :=
  match s with
  | input_side => connected_input q
  | output_side => connected_output q
  end.
Definition disconnect (s : side) (q : CHAIN) : CHAIN :=
  match s with
  | input_side => disconnect_input q
  | output_side => disconnect_output q
  end.
Definition connect (s : side) (c : Z) (q : CHAIN) : CHAIN :=
  match s with
  | input_side => connect_input c q
  | output_side => connect_output c q
  end.

(** [attach_input_to_selected_chains] and
    [attach_output_to_selected_chains], which differ in the side only:
    the [while] loop over [c], with [k] indices to go. *)
Fixpoint attach_to_selected_chains_loop (s : side) (obj : loc) (k c : nat)
    : M unit :=
  match k with
  | O => mret tt
  | S k' =>
      cs ← get;
      p ← at_index (front s cs) c;
      when (bool_decide (p = obj))
        (map_chains (λ q, if connected s q =? to_int (Z.of_nat c)
                          then disconnect s q else q);;
         for_each (selected_chainids cs) (λ id,
           map_chains (λ q, if String.eqb id (chainname q)
                            then connect s (to_int (Z.of_nat c)) q else q)));;
      attach_to_selected_chains_loop s obj k' (S c)
  end.

Definition attach_input_to_selected_chains (obj : loc) : M unit :=
  cs ← get;
  attach_to_selected_chains_loop input_side obj (length (inputs cs)) 0.

Definition attach_output_to_selected_chains (obj : loc) : M unit :=
  cs ← get;
  attach_to_selected_chains_loop output_side obj (length (outputs cs)) 0.

(** [add_input].  The object managers are left out: no vector, chain or
    flag depends on them. *)
Definition add_input (aio : loc) : M unit :=
  update aio (set_io_mode io_read);;
  cs ← get;
  update aio (set_audio_format (default_audio_format cs));;
  aio_set_buffersize aio (buffersize cs);;
  layerobj ← add_audio_object_helper aio;
  modify (λ cs, set_inputs (inputs cs ++ [layerobj]) cs);;
  modify (λ cs, set_inputs_direct_rep (inputs_direct_rep cs ++ [aio]) cs);;
  modify (λ cs, set_input_start_pos (input_start_pos cs ++ [0]) cs);;
  attach_input_to_selected_chains layerobj.

(** [add_output] *)
Definition add_output (aio : loc) (truncate : bool) : M unit :=
  cs ← get;
  update aio (set_audio_format (default_audio_format cs));;
  aio_set_buffersize aio (buffersize cs);;
  update aio (set_io_mode (if truncate then io_write else io_readwrite));;
  layerobj ← add_audio_object_helper aio;
  modify (λ cs, set_outputs (outputs cs ++ [layerobj]) cs);;
  modify (λ cs, set_outputs_direct_rep (outputs_direct_rep cs ++ [aio]) cs);;
  modify (λ cs, set_output_start_pos (output_start_pos cs ++ [0]) cs);;
  attach_output_to_selected_chains layerobj.

(** [remove_audio_input] and [remove_audio_output], which differ in the
    side only: the [for] loop over [n], with [k] indices to go.  The
    assignment [v[n] = direct[n] = new NULLFILE("null")] allocates,
    then writes the direct vector, then the front one. *)
Fixpoint remove_audio_object_loop (s : side) (lbl : string) (k n : nat)
    : M unit :=
  match k with
  | O => mret tt
  | S k' =>
      cs ← get;
      p ← at_index (front s cs) n;
      o ← deref p;
      when (String.eqb (label o) lbl)
        (remove_audio_object_helper p;;
         map_chains (λ q, if connected s q =? to_int (Z.of_nat n)
                          then disconnect s q else q);;
         cs ← get;
         d ← at_index (direct s cs) n;
         delete_object d;;
         nullobj ← new_object null_object;
         cs ← get;
         vd ← store_index (direct s cs) n nullobj;
         set_direct s vd;;
         cs ← get;
         vf ← store_index (front s cs) n nullobj;
         set_front s vf);;
      remove_audio_object_loop s lbl k' (S n)
  end.

Definition remove_audio_input (lbl : string) : M unit :=
  cs ← get;
  remove_audio_object_loop input_side lbl (length (inputs cs)) 0.

Definition remove_audio_output (lbl : string) : M unit :=
  cs ← get;
  remove_audio_object_loop output_side lbl (length (outputs cs)) 0.

Definition other_side (s : side) : side :=
  match s with input_side => output_side | output_side => input_side end.

(** The vectors of one side are consistent: they have the same length,
    the pointers of a slot lead to objects, a proxy is not its own
    direct object, and two slots share no pointer. *)
Definition side_ok (s : side) (cs : ECA_CHAINSETUP) : Prop :=
  length (direct s cs) = length (front s cs)
  ∧ (∀ (n : nat) f d,
       front s cs !! n = Some f → direct s cs !! n = Some d →
       ∃ o, store cs !! f = Some o ∧ is_Some (store cs !! d)
            ∧ (is_Some (proxy_child o) → f ≠ d))
  ∧ (∀ (n m : nat) f d f' d',
       n ≠ m →
       front s cs !! n = Some f → direct s cs !! n = Some d →
       front s cs !! m = Some f' → direct s cs !! m = Some d' →
       f ≠ f' ∧ f ≠ d' ∧ d ≠ f' ∧ d ≠ d').

(** The front and direct vectors have the same length, on both sides. *)
Definition vectors_parallel (cs : ECA_CHAINSETUP) : Prop :=
  length (inputs_direct_rep cs) = length (inputs cs)
  ∧ length (outputs_direct_rep cs) = length (outputs cs).

(** Slot [n] of side [s] holds an object labelled [lbl]. *)
Definition labelled (s : side) (lbl : string) (cs : ECA_CHAINSETUP)
    (n : nat) : Prop :=
  ∃ f o, front s cs !! n = Some f ∧ store cs !! f = Some o
         ∧ String.eqb (label o) lbl = true.

(** The slots of side [s] after the objects labelled [lbl] were
    removed from [cs]: a removed slot holds, in both vectors, one
    pointer to a null object; any other slot holds what it held. *)
Definition slots_after_remove (s : side) (lbl : string)
    (cs cs' : ECA_CHAINSETUP) : Prop :=
  ∀ (n : nat) f d o,
    front s cs !! n = Some f → direct s cs !! n = Some d →
    store cs !! f = Some o →
    if String.eqb (label o) lbl then
      ∃ l, front s cs' !! n = Some l ∧ direct s cs' !! n = Some l
           ∧ store cs' !! l = Some null_object
    else
      front s cs' !! n = Some f ∧ direct s cs' !! n = Some d
      ∧ store cs' !! f = Some o ∧ store cs' !! d = store cs !! d.

(** The chains after the removal: a chain connected to a removed slot
    is disconnected, any other chain is as it was. *)
Definition chains_after_remove (s : side) (lbl : string)
    (cs cs' : ECA_CHAINSETUP) : Prop :=
  length (chains cs') = length (chains cs)
  ∧ ∀ (m : nat) q,
      chains cs !! m = Some q →
      ((∃ n : nat, labelled s lbl cs n ∧ connected s q = to_int (Z.of_nat n)) →
       chains cs' !! m = Some (disconnect s q))
      ∧ ((∀ n : nat, labelled s lbl cs n → connected s q ≠ to_int (Z.of_nat n)) →
         chains cs' !! m = Some q).

(** *** [enable] *)

(** The message of [check_object_samplerate]. *)
Definition samplerate_message (lbl : string) (rate srate : Z) : string :=
  "All audio objects must have a common"
  +:+ " sampling rate; sampling rate of audio object '"
  +:+ lbl
  +:+ "' differs from engine rate ("
  +:+ kvu_numtostr rate
  +:+ " <-> "
  +:+ kvu_numtostr srate
  +:+ "); unable to continue.".

(** [check_object_samplerate] *)
Definition check_object_samplerate (obj : loc) (srate : Z) : M unit :=
  o ← deref obj;
  if negb (samples_per_second o =? srate) then
    throw (ECA_ERROR "ECA-CHAINSETUP"
             (samplerate_message (label o) (samples_per_second o) srate))
  else mret tt.

(** [enable_audio_object_helper].  The seek goes to the position the
    object is at, and [audio_object_info] logs: neither changes what is
    modelled. *)
Definition enable_audio_object_helper (aobj : loc) : M unit :=
  cs ← get;
  aio_set_buffersize aobj (buffersize cs);;
  o ← deref aobj;
  when (is_device o)
    (update aobj (set_max_buffers_rep (max_buffers cs));;
     update aobj (set_ignore_xruns_rep (ignore_xruns cs)));;
  o ← deref aobj;
  when (negb (open_rep o)) (aio_open aobj);;
  o ← deref aobj;
  when (open_rep o) (_ ← aio_position_in_samples aobj; mret tt).

(** [set_samples_per_second] *)
Definition cs_set_samples_per_second (new_value : Z) : M unit :=
  cs ← get;
  for_each (inputs cs) (λ q, update q (set_samples_per_second new_value));;
  for_each (outputs cs) (λ q, update q (set_samples_per_second new_value));;
  map_chains (set_chain_samples_per_second new_value);;
  modify (set_cs_samples_per_second new_value).

(** [calculate_processing_length] *)
Fixpoint max_input_length_loop (v : list loc) (max_input_length : Z) : M Z :=
  match v with
  | [] => mret max_input_length
  | p :: v' =>
      len ← aio_length_in_samples p;
      max_input_length_loop v'
        (if max_input_length <? len then len else max_input_length)
  end.

Definition calculate_processing_length : M unit :=
  cs ← get;
  max_input_length ← max_input_length_loop (inputs cs) 0;
  when (negb (cs_length_set cs) && (0 <? max_input_length))
    (modify (λ cs, set_cs_length_set true
                     (set_cs_length_in_samples max_input_length cs))).

(** Step 2 of [enable]: open the input devices. *)
Definition enable_open_inputs : M unit :=
  cs ← get;
  for_each (inputs cs) (λ q,
    enable_audio_object_helper q;;
    o ← deref q;
    when (negb (open_rep o))
      (throw (ECA_ERROR "ECA-CHAINSETUP"
                "Open failed without explicit exception!"))).

(** Step 3: the common sampling rate of the inputs; the result is
    [first_srate]. *)
Definition enable_check_input_rates : M Z :=
  cs ← get;
  match inputs cs with
  | [] => mret 0
  | q0 :: rest =>
      o ← deref q0;
      let first_srate := samples_per_second o in
      for_each rest (λ q, check_object_samplerate q first_srate);;
      mret first_srate
  end.

(** Step 5: open the output devices. *)
Definition enable_open_outputs (first_srate : Z) : M unit :=
  cs ← get;
  for_each (outputs cs) (λ q,
    enable_audio_object_helper q;;
    o ← deref q;
    when (negb (open_rep o))
      (throw (ECA_ERROR "ECA-CHAINSETUP"
                "Open failed without explicit exception!"));;
    check_object_samplerate q first_srate).

(** Steps 6 and 7: the MIDI server and the MIDI devices. *)
Fixpoint enable_midi_devices (done todo : list MIDI_IO) : M unit :=
  match todo with
  | [] => modify (set_midi_devices done)
  | q :: todo' =>
      let q := set_midi_nonblocking true q in
      let q := if midi_open_rep q then q
               else set_midi_open_rep (midi_opens q) q in
      if midi_open_rep q then enable_midi_devices (done ++ [q]) todo'
      else
        modify (set_midi_devices (done ++ q :: todo'));;
        throw (ECA_ERROR "ECA-CHAINSETUP"
                 ("Unable to open MIDI-device: " +:+ midi_label q +:+ "."))
  end.

Definition enable_midi : M unit :=
  cs ← get;
  when (negb (midi_server_enabled (impl_repp cs))
        && (0 <? length (midi_devices cs))%nat)
    (modify (λ cs, set_impl_repp
                     (set_midi_server_enabled true (impl_repp cs)) cs));;
  enable_midi_devices [] (midi_devices cs).

(** Step 1 of [enable]. *)
Definition enable_buffering : M unit :=
  select_active_buffering_mode;; enable_active_buffering_mode.

(** The steps after the buffering mode is applied. *)
Definition enable_objects : M unit :=
  enable_open_inputs;;
  first_srate ← enable_check_input_rates;
  cs_set_samples_per_second first_srate;;
  enable_open_outputs first_srate;;
  enable_midi;;
  calculate_processing_length.

(** [enable] *)
Definition enable : M unit :=
  try_catch
    (cs ← get;
     when (negb (is_enabled_rep cs)) (enable_buffering;; enable_objects);;
     modify (set_is_enabled_rep true))
    (λ e,
       match e with
       | SETUP_ERROR message =>
           throw (ECA_ERROR "ECA-CHAINSETUP"
                    ("Enabling chainsetup: " +:+ message))
       | _ => throw e
       end).

(** *** The objects during [enable] *)

(** The pointers of the input and output vectors lead to objects, and a
    proxy wraps an object that is not a proxy. *)
Definition objects_wf (cs : ECA_CHAINSETUP) : Prop :=
  (∀ p, p ∈ inputs cs ++ outputs cs → is_Some (store cs !! p))
  ∧ (∀ p o c, store cs !! p = Some o → proxy_child o = Some c →
       ∃ oc, store cs !! c = Some oc ∧ proxy_child oc = None).

(** [objects_wf] as a check that can be run. *)
Definition objects_wfb (cs : ECA_CHAINSETUP) : bool :=
  forallb (λ p, bool_decide (is_Some (store cs !! p)))
    (inputs cs ++ outputs cs)
  && forallb
       (λ po : loc * AUDIO_IO,
          match proxy_child po.2 with
          | Some c =>
              match store cs !! c with
              | Some oc => bool_decide (proxy_child oc = None)
              | None => false
              end
          | None => true
          end)
       (map_to_list (store cs)).

Definition open_fails (oo : open_outcome) : Prop :=
  match oo with
  | open_succeeds _ => False
  | open_stays_closed | open_throws _ => True
  end.

(** Opening the object behind [q] fails: it is closed and its [open]
    throws or leaves it closed; for a proxy, this holds of the direct
    object. *)
Definition cannot_open (cs : ECA_CHAINSETUP) (q : loc) : Prop :=
  ∃ o, store cs !! q = Some o ∧ open_rep o = false
       ∧ match proxy_child o with
         | Some c =>
             ∃ oc, store cs !! c = Some oc ∧ open_rep oc = false
                   ∧ open_fails (on_open oc)
         | None => open_fails (on_open o)
         end.

(** The object behind [q] is open. *)
Definition opened (cs : ECA_CHAINSETUP) (q : loc) : Prop :=
  ∃ o, store cs !! q = Some o ∧ open_rep o = true.

(** What the steps of [enable] after the buffering mode leave alone:
    the vectors, the enabled flag, which objects exist, their classes
    and what their [open] does; an open object stays open, and an
    object is open afterwards only if it was, or its [open] succeeds,
    or, for a proxy, its direct object is open afterwards. *)
Definition evolves (cs cs' : ECA_CHAINSETUP) : Prop :=
  inputs cs' = inputs cs ∧ outputs cs' = outputs cs
  ∧ is_enabled_rep cs' = is_enabled_rep cs
  ∧ (∀ x, store cs' !! x = None ↔ store cs !! x = None)
  ∧ (∀ x ox ox', store cs !! x = Some ox → store cs' !! x = Some ox' →
       aio_type ox' = aio_type ox ∧ on_open ox' = on_open ox
       ∧ (open_rep ox = true → open_rep ox' = true)
       ∧ (open_rep ox' = true →
          open_rep ox = true
          ∨ match proxy_child ox with
            | None => ¬ open_fails (on_open ox)
            | Some c =>
                ∃ oc', store cs' !! c = Some oc' ∧ open_rep oc' = true
            end)).

(** The exceptions of the steps of [enable]: a setup error of an
    object, or an error of the chainsetup. *)
Definition enable_exn (e : exn) : Prop :=
  match e with
  | SETUP_ERROR _ => True
  | ECA_ERROR section _ => section = "ECA-CHAINSETUP"
  end.

(** [m] keeps [I], whether it returns or throws. *)
Definition preserves (I : ECA_CHAINSETUP → Prop) {A} (m : M A) : Prop :=
  ∀ cs, I cs →
    match m cs with
    | Ok _ cs' | Throw _ cs' => I cs'
    | Undefined => True
    end.

(** [m], run from [cs], returns a value and a state that satisfy [Q],
    or throws an exception that, with the state it leaves, satisfies
    [E]; its behaviour is defined. *)
Definition runs {A} (m : M A) (cs : ECA_CHAINSETUP)
    (Q : A → ECA_CHAINSETUP → Prop) (E : exn → ECA_CHAINSETUP → Prop) : Prop :=
  match m cs with
  | Ok a cs' => Q a cs'
  | Throw e cs' => E e cs'
  | Undefined => False
  end.

(** *** Chainsetups to run the functions on *)

(** The state [set_defaults] leaves, with the hardcoded defaults. *)
Definition initial_chainsetup (rtcaps : bool) : ECA_CHAINSETUP :=
  {| store := ∅; inputs := []; inputs_direct_rep := [];
     outputs := []; outputs_direct_rep := [];
     input_start_pos := []; output_start_pos := [];
     chains := []; selected_chainids := []; midi_devices := [];
     impl_repp :=
       {| bmode_nonrt_rep := default_bmode_nonrt;
          bmode_rt_rep := default_bmode_rt;
          bmode_rtlowlatency_rep := default_bmode_rtlowlatency;
          bmode_active_rep := default_bmode_nonrt;
          bmode_override_rep := bufparams_unset;
          default_audio_format_rep := default_format;
          pserver_buffercount := 32; pserver_buffersize := 1024;
          midi_server_enabled := false |};
     buffering_mode_rep := cs_bmode_auto;
     active_buffering_mode_rep := cs_bmode_none;
     rtcaps_rep := rtcaps;
     multitrack_mode_rep := false; multitrack_mode_override_rep := false;
     memory_locked_rep := false;
     is_enabled_rep := false; is_locked_rep := false;
     proxy_clients_rep := 0; ignore_xruns_flag := true;
     cs_samples_per_second := 44100; cs_length_in_samples := 0;
     cs_length_set := false; mlockall_ok := rtcaps |}.

Definition example_object (t : AUDIO_IO_type) (lbl : string)
    (opens : open_outcome) : AUDIO_IO :=
  {| aio_type := t; label := lbl; io_mode := io_read;
     audio_format := default_format; buffersize_rep := 0; open_rep := false;
     position_in_samples := 0; length_in_samples := 0;
     max_buffers_rep := false; ignore_xruns_rep := false;
     on_open := opens |}.

(** The state after [m], or [cs] itself when [m] does not return. *)
Definition state_after (m : M unit) (cs : ECA_CHAINSETUP) : ECA_CHAINSETUP :=
  match m cs with Ok _ cs' => cs' | _ => cs end.

(** Scenario B of the specification: two chains, a realtime and a file
    input, a realtime and a file output. *)
Definition scenario_B (rtcaps : bool) : ECA_CHAINSETUP :=
  state_after
    (add_input 1%positive;; add_input 2%positive;;
     add_output 3%positive true;; add_output 4%positive true)
    (set_selected_two_chains
       (set_store
          {[ 1%positive := example_object AUDIO_IO_DEVICE "alsa-in"
                             (open_succeeds None);
             2%positive := example_object AUDIO_IO_FILE "a.wav"
                             (open_succeeds (Some 44100));
             3%positive := example_object AUDIO_IO_DEVICE "alsa-out"
                             (open_succeeds None);
             4%positive := example_object AUDIO_IO_FILE "out.wav"
                             (open_succeeds None) ]}
          (initial_chainsetup rtcaps))).

(** Scenario B after the user has switched the multitrack mode off:
    the override is set and the mode is false. *)
Definition scenario_B_multitrack_off : ECA_CHAINSETUP :=
  set_multitrack_mode_override_rep true (scenario_B true).

(** Two file inputs of 44100 and 48000 samples per second and a null
    output. *)
Definition two_rates : ECA_CHAINSETUP :=
  state_after
    (add_input 1%positive;; add_input 2%positive;;
     add_output 3%positive true)
    (set_selected_two_chains
       (set_store
          {[ 1%positive := example_object AUDIO_IO_FILE "a.wav"
                             (open_succeeds (Some 44100));
             2%positive := example_object AUDIO_IO_FILE "b.wav"
                             (open_succeeds (Some 48000));
             3%positive := example_object NULLFILE "null"
                             (open_succeeds None) ]}
          (initial_chainsetup false))).

(** A file input that opens and a file output whose [open] throws. *)
Definition broken_output : ECA_CHAINSETUP :=
  state_after
    (add_input 1%positive;; add_output 2%positive true)
    (set_selected_two_chains
       (set_store
          {[ 1%positive := example_object AUDIO_IO_FILE "a.wav"
                             (open_succeeds (Some 44100));
             2%positive := example_object AUDIO_IO_FILE "/nowhere/out.wav"
                             (open_throws "AUDIOIO-WAVE: unable to open") ]}
          (initial_chainsetup false))).

(** *** The chains of the chainsetup *)

Definition set_chainname (v : string) (x : CHAIN) : CHAIN :=
  {| chainname := v; input_id_rep := input_id_rep x; output_id_rep :=
  output_id_rep x; chainops := chainops x; initialized_rep :=
  initialized_rep x; chain_samples_per_second := chain_samples_per_second x
  |}.

(** [chain_names] *)
Fixpoint chain_names_loop (qs : list CHAIN) (result : list string)
    : list string :=
  match qs with
  | [] => result
  | p :: qs' => chain_names_loop qs' (result ++ [chainname p])
  end.

Definition chain_names (cs : ECA_CHAINSETUP) : list string :=
  chain_names_loop (chains cs) [].

Section chain_management.
(** What [new CHAIN()] constructs ([eca-chain.cpp] is not in src). *)
Context (new_CHAIN : CHAIN).

(** [add_chain_helper] *)
Definition add_chain_helper (name : string) : M unit :=
  modify (λ cs, set_chains (chains cs ++ [new_CHAIN]) cs);;
  modify (λ cs,
    match chains cs with
    | [] => cs
    | _ :: _ =>
        set_chains
          (<[(length (chains cs) - 1)%nat
               := set_chainname name (List.last (chains cs) new_CHAIN)]>
             (chains cs)) cs
    end).

(** The inner loop of [add_new_chains]: [exists] after the chains [qs]. *)
Fixpoint chain_exists_loop (p : string) (qs : list CHAIN) (exists_ : bool)
    : bool :=
  match qs with
  | [] => exists_
  | q :: qs' =>
      chain_exists_loop p qs'
        (if String.eqb p (chainname q) then true else exists_)
  end.

(** [add_new_chains] *)
Definition add_new_chains (newchains : list string) : M unit :=
  for_each newchains (λ p,
    cs ← get;
    when (negb (chain_exists_loop p (chains cs) false)) (add_chain_helper p)).

End chain_management.

(** The [while] loop of [remove_chains] for the selected name [a]: the
    first chain of that name is erased and the loop left. *)
Fixpoint erase_first_named (a : string) (qs : list CHAIN) : list CHAIN :=
  match qs with
  | [] => []
  | q :: qs' =>
      if String.eqb a (chainname q) then qs'
      else q :: erase_first_named a qs'
  end.

(** [remove_chains] *)
Definition remove_chains : M unit :=
  cs ← get;
  for_each (selected_chainids cs) (λ a,
    modify (λ cs, set_chains (erase_first_named a (chains cs)) cs));;
  modify (set_selected_chainids []).

(** The inner loop of [rename_chain] for the selected name [a]: [Some]
    when a chain was renamed, which ends the function. *)
Fixpoint rename_first_named (a name : string) (qs : list CHAIN)
    : option (list CHAIN) :=
  match qs with
  | [] => None
  | q :: qs' =>
      if String.eqb a (chainname q) then Some (set_chainname name q :: qs')
      else (λ r, q :: r) <$> rename_first_named a name qs'
  end.

Fixpoint rename_chain_loop (sel : list string) (name : string)
    (qs : list CHAIN) : list CHAIN :=
  match sel with
  | [] => qs
  | a :: sel' =>
      match rename_first_named a name qs with
      | Some qs' => qs'
      | None => rename_chain_loop sel' name qs
      end
  end.

(** [rename_chain] *)
Definition rename_chain (name : string) : M unit :=
  modify (λ cs,
    set_chains (rename_chain_loop (selected_chainids cs) name (chains cs)) cs).

(** [select_all_chains] *)
Definition select_all_chains : M unit :=
  modify (set_selected_chainids []);;
  cs ← get;
  for_each (chains cs) (λ p,
    modify (λ cs,
      set_selected_chainids (selected_chainids cs ++ [chainname p]) cs)).

(** The inner [for] loop of [first_selected_chain] from index [p]:
    [inl] is the index returned, [inr] is [p] after the loop. *)
Fixpoint first_named_from (o : string) (qs : list CHAIN) (p : nat)
    : nat + nat :=
  match qs with
  | [] => inr p
  | q :: qs' =>
      if String.eqb (chainname q) o then inl p
      else first_named_from o qs' (S p)
  end.

Fixpoint first_selected_chain_loop (schains : list string)
    (qs : list CHAIN) (p : nat) : nat :=
  match schains with
  | [] => p
  | o :: rest =>
      match first_named_from o qs 0 with
      | inl p' => p'
      | inr p' => first_selected_chain_loop rest qs p'
      end
  end.

(** [first_selected_chain] *)
Definition first_selected_chain (cs : ECA_CHAINSETUP) : nat :=
  first_selected_chain_loop (selected_chainids cs) (chains cs)
    (length (chains cs)).

(** [get_chain_with_name]: the chain, [None] for the null pointer. *)
Fixpoint get_chain_with_name_loop (name : string) (qs : list CHAIN)
    : option CHAIN :=
  match qs with
  | [] => None
  | p :: qs' =>
      if String.eqb (chainname p) name then Some p
      else get_chain_with_name_loop name qs'
  end.

Definition get_chain_with_name (cs : ECA_CHAINSETUP) (name : string)
    : option CHAIN :=
  get_chain_with_name_loop name (chains cs).

(** *** The buffering mode the user asks for *)

Definition set_buffering_mode_rep (v : Buffering_mode_t) (x : ECA_CHAINSETUP) : ECA_CHAINSETUP :=
  {| store := store x; inputs := inputs x; inputs_direct_rep :=
  inputs_direct_rep x; outputs := outputs x; outputs_direct_rep :=
  outputs_direct_rep x; input_start_pos := input_start_pos x;
  output_start_pos := output_start_pos x; chains := chains x;
  selected_chainids := selected_chainids x; midi_devices := midi_devices x;
  impl_repp := impl_repp x; buffering_mode_rep := v;
  active_buffering_mode_rep := active_buffering_mode_rep x; rtcaps_rep :=
  rtcaps_rep x; multitrack_mode_rep := multitrack_mode_rep x;
  multitrack_mode_override_rep := multitrack_mode_override_rep x;
  memory_locked_rep := memory_locked_rep x; is_enabled_rep := is_enabled_rep
  x; is_locked_rep := is_locked_rep x; proxy_clients_rep :=
  proxy_clients_rep x; ignore_xruns_flag := ignore_xruns_flag x;
  cs_samples_per_second := cs_samples_per_second x; cs_length_in_samples :=
  cs_length_in_samples x; cs_length_set := cs_length_set x; mlockall_ok :=
  mlockall_ok x |}.

(** [set_buffering_mode] *)
Definition set_buffering_mode (value : Buffering_mode_t) : M unit :=
  if bool_decide (value = cs_bmode_none) then
    modify (set_buffering_mode_rep cs_bmode_auto)
  else modify (set_buffering_mode_rep value).

(** *** MIDI devices *)

Section midi_registration.
(** What [MIDI_SERVER::register_client] does to the implementation
    object, which holds [midi_server_rep] ([midi-server.cpp] is not in
    src). *)
Context (midi_server_register_client :
           MIDI_IO → ECA_CHAINSETUP_impl → ECA_CHAINSETUP_impl).

(** [add_midi_device] *)
Definition add_midi_device (mididev : MIDI_IO) : M unit :=
  modify (λ cs, set_midi_devices (midi_devices cs ++ [mididev]) cs);;
  modify (λ cs,
    set_impl_repp (midi_server_register_client mididev (impl_repp cs)) cs).

End midi_registration.

(** The loop of [remove_midi_device]. *)
Fixpoint erase_first_labelled (mdev_name : string) (qs : list MIDI_IO)
    : list MIDI_IO :=
  match qs with
  | [] => []
  | q :: qs' =>
      if String.eqb mdev_name (midi_label q) then qs'
      else q :: erase_first_labelled mdev_name qs'
  end.

Definition remove_midi_device (mdev_name : string) : M unit :=
  modify (λ cs,
    set_midi_devices (erase_first_labelled mdev_name (midi_devices cs)) cs).

(** *** Chains attached to an object *)

(** [v[i]] for an [int] index: outside the vector when [i] is negative
    or not below the size. *)
Definition vector_at {A} (v : list A) (i : Z) : option A :=
  if 0 <=? i then v !! Z.to_nat i else None.

(** [get_attached_chains_to_input] and [get_attached_chains_to_output],
    which differ in the side only. *)
Fixpoint attached_chains_loop (s : side) (cs : ECA_CHAINSETUP) (aiod : loc)
    (qs : list CHAIN) (res : list string) : option (list string) :=
  match qs with
  | [] => Some res
  | q :: qs' =>
      p ← vector_at (front s cs) (connected s q);
      attached_chains_loop s cs aiod qs'
        (if bool_decide (aiod = p) then res ++ [chainname q] else res)
  end.

Definition get_attached_chains_to_input (cs : ECA_CHAINSETUP) (aiod : loc)
    : option (list string) :=
  attached_chains_loop input_side cs aiod (chains cs) [].

Definition get_attached_chains_to_output (cs : ECA_CHAINSETUP) (aiod : loc)
    : option (list string) :=
  attached_chains_loop output_side cs aiod (chains cs) [].

(** [number_of_attached_chains_to_input] and
    [number_of_attached_chains_to_output] *)
Fixpoint number_of_attached_chains_loop (s : side) (cs : ECA_CHAINSETUP)
    (aiod : loc) (qs : list CHAIN) (count : Z) : option Z :=
  match qs with
  | [] => Some count
  | q :: qs' =>
      p ← vector_at (front s cs) (connected s q);
      number_of_attached_chains_loop s cs aiod qs'
        (if bool_decide (aiod = p) then to_int (count + 1) else count)
  end.

Definition number_of_attached_chains_to_input (cs : ECA_CHAINSETUP)
    (aiod : loc) : option Z :=
  number_of_attached_chains_loop input_side cs aiod (chains cs) 0.

Definition number_of_attached_chains_to_output (cs : ECA_CHAINSETUP)
    (aiod : loc) : option Z :=
  number_of_attached_chains_loop output_side cs aiod (chains cs) 0.

(** [is_realtime_target_output]: the loop carries [result] and
    [output_found]. *)
Fixpoint is_realtime_target_output_loop (cs : ECA_CHAINSETUP) (output_id : Z)
    (qs : list CHAIN) (result output_found : bool) : option (bool * bool) :=
  match qs with
  | [] => Some (result, output_found)
  | q :: qs' =>
      if connected_output q =? output_id then
        p ← vector_at (inputs cs) (connected_input q);
        d ← dynamic_cast_DEVICE (store cs) p;
        is_realtime_target_output_loop cs output_id qs'
          (if (d : bool) then result else false) true
      else is_realtime_target_output_loop cs output_id qs' result output_found
  end.

Definition is_realtime_target_output (cs : ECA_CHAINSETUP) (output_id : Z)
    : option bool :=
  '(result, output_found) ←
    is_realtime_target_output_loop cs output_id (chains cs) true false;
  if output_found && result then
    (* the log message reads the label of outputs[output_id] *)
    p ← vector_at (outputs cs) output_id;
    _ ← store cs !! p;
    Some true
  else Some false.

(** *** Reference definitions for the statements *)

(** The string [s] occurs in the message [m]. *)
Definition occurs_in (s m : string) : Prop :=
  ∃ pre post, m = pre +:+ s +:+ post.

(** The chain [q] is connected, on the side [s], to the object [aiod]. *)
Definition attached (s : side) (cs : ECA_CHAINSETUP) (aiod : loc) (q : CHAIN)
    : Prop :=
  vector_at (front s cs) (connected s q) = Some aiod.

Global Instance attached_dec s cs aiod q : Decision (attached s cs aiod q).
Proof. unfold attached. apply _. Defined.

(** The input that the chain [q] is connected to is a device. *)
Definition fed_by_device (cs : ECA_CHAINSETUP) (q : CHAIN) : Prop :=
  ∃ p o, vector_at (inputs cs) (connected_input q) = Some p
         ∧ store cs !! p = Some o ∧ is_device o = true.

(** The object behind [q] has the sampling rate [r]. *)
Definition rate_is (r : Z) (cs : ECA_CHAINSETUP) (q : loc) : Prop :=
  ∃ o, store cs !! q = Some o ∧ samples_per_second o = r.

(** What the steps of [enable] after step 4 leave alone, besides what
    [evolves] says: the sampling rate of the chainsetup and the
    sampling rate of every object that is open. *)
Definition settles (cs cs' : ECA_CHAINSETUP) : Prop :=
  evolves cs cs'
  ∧ cs_samples_per_second cs' = cs_samples_per_second cs
  ∧ (∀ x ox ox', store cs !! x = Some ox → store cs' !! x = Some ox' →
       open_rep ox = true → samples_per_second ox' = samples_per_second ox).

(** The pointer leads to a proxy. *)
Definition proxy_at (h : gmap loc AUDIO_IO) (p : loc) : bool :=
  match h !! p with
  | Some o => match proxy_child o with Some _ => true | None => false end
  | None => false
  end.

(** The number of proxies among the pointers of a vector. *)
Definition count_proxies (h : gmap loc AUDIO_IO) (v : list loc) : Z :=
  Z.of_nat (length (filter (λ p, proxy_at h p = true) v)).







(** The buffering modes that stand for a set of parameters. *)
Definition real_mode (m : Buffering_mode_t) : Prop :=
  m = cs_bmode_nonrt ∨ m = cs_bmode_rt ∨ m = cs_bmode_rtlowlatency.

End chainsetup.

(* ===================================================================== *)
(** * Part II: properties                                                 *)
(* ===================================================================== *)

(** ** kvutils: searching *)

Section kvu_find.
Import kvu.

Implicit Types (s u r pre : cstring) (v c : ascii).

Lemma ascii_eqb_true c v : Ascii.eqb c v = true ↔ c = v.
Proof. apply Ascii.eqb_eq. Qed.

Lemma ascii_eqb_false c v : Ascii.eqb c v = false ↔ c ≠ v.
Proof. apply Ascii.eqb_neq. Qed.

Ltac ascii_cases c v :=
  let E := fresh "E" in
  destruct (Ascii.eqb c v) eqn:E;
  [apply ascii_eqb_true in E | apply ascii_eqb_false in E].

Lemma find_offset_le v s : find_offset v s ≤ length s.
Proof. induction s as [|c s IH]; simpl; [lia|]. destruct (Ascii.eqb c v); lia. Qed.

Lemma find_offset_absent v s : v ∉ s → find_offset v s = length s.
Proof.
  induction s as [|c s IH]; simpl; intros Hn; [done|].
  apply not_elem_of_cons in Hn as [Hc Hs].
  ascii_cases c v; [congruence|]. by rewrite IH.
Qed.

Lemma find_offset_first v u r : v ∉ u → find_offset v (u ++ v :: r) = length u.
Proof.
  induction u as [|c u IH]; simpl; intros Hn.
  - by rewrite Ascii.eqb_refl.
  - apply not_elem_of_cons in Hn as [Hc Hs].
    ascii_cases c v; [congruence|]. by rewrite IH.
Qed.

(** Either [v] does not occur, or the string splits at its first
    occurrence. *)
Lemma find_offset_inv v s :
  ((v ∉ s) ∧ find_offset v s = length s) ∨
  (∃ u r, s = u ++ v :: r ∧ (v ∉ u) ∧ find_offset v s = length u).
Proof.
  induction s as [|c s IH]; simpl.
  - left. split; [apply not_elem_of_nil | done].
  - ascii_cases c v.
    + subst c. right. exists [], s. split; [done|]. split; [apply not_elem_of_nil | done].
    + destruct IH as [[Hn Hl] | (u & r & -> & Hn & Hl)].
      * left. split; [|by rewrite Hl]. apply not_elem_of_cons. auto.
      * right. exists (c :: u), r. split; [done|]. split; [|by rewrite Hl].
        apply not_elem_of_cons. auto.
Qed.

Lemma std_find_app pre s v :
  std_find (pre ++ s) (length pre) v = length pre + find_offset v s.
Proof. unfold std_find. by rewrite drop_app_length. Qed.

Lemma std_find_0 s v : std_find s 0 v = find_offset v s.
Proof. done. Qed.

Lemma substr_app pre s k :
  substr (pre ++ s) (length pre) (length pre + k) = take k s.
Proof.
  unfold substr. rewrite drop_app_length. f_equal. lia.
Qed.

(** The character before position [length l] of [l ++ r]. *)
Lemma char_at_last l r :
  l ≠ [] → last l = Some (char_at (l ++ r) (length l - 1)).
Proof.
  intros Hl. destruct (exists_last Hl) as [l' [x ->]].
  rewrite last_snoc, length_app. simpl.
  replace (length l' + 1 - 1) with (length l') by lia.
  unfold char_at. rewrite <- app_assoc. simpl.
  by rewrite nth_middle.
Qed.

Lemma last_or_app pre u : last (pre ++ u) = last_or (last pre) u.
Proof.
  unfold last_or. destruct u as [|c u] using rev_ind.
  - by rewrite app_nil_r.
  - by rewrite app_assoc, !last_snoc.
Qed.

Lemma next_instance_offset_skip v prev u r :
  v ∉ u →
  next_instance_offset v prev (u ++ r)
  = length u + next_instance_offset v (last_or prev u) r.
Proof.
  revert prev. induction u as [|c u IH]; intros prev Hn; [done|].
  apply not_elem_of_cons in Hn as [Hc Hs].
  simpl. ascii_cases c v; [congruence|]. rewrite IH by done.
  replace (last_or prev (c :: u)) with (last_or (Some c) u); [done|].
  unfold last_or. destruct u as [|c' u]; [done|].
  change (last (c :: c' :: u)) with (last (c' :: u)).
  destruct (last (c' :: u)) eqn:El; [done|]. by apply last_None in El.
Qed.

Lemma next_instance_offset_absent v prev s :
  v ∉ s → next_instance_offset v prev s = length s.
Proof.
  intros Hn. rewrite <- (app_nil_r s) at 1.
  rewrite next_instance_offset_skip by done. simpl. lia.
Qed.

Lemma next_instance_offset_le v prev s :
  next_instance_offset v prev s ≤ length s.
Proof.
  revert prev. induction s as [|c s IH]; intros prev; simpl; [lia|].
  destruct (Ascii.eqb c v).
  - destruct prev as [p|]; [|lia]. destruct (Ascii.eqb p backslash); [|lia].
    destruct s; [lia|]. specialize (IH (Some c)). simpl in *. lia.
  - specialize (IH (Some c)). lia.
Qed.

(** [kvu_priv_find_next_instance], started inside the string, returns the
    position that [next_instance_offset] describes. *)
Lemma find_next_instance_loop_spec v fuel : ∀ pre s ret0,
  length s < fuel → s ≠ [] →
  find_next_instance_loop fuel (pre ++ s) (length pre) ret0 v
  = Some (length pre + next_instance_offset v (last pre) s).
Proof.
  induction fuel as [|fuel IH]; intros pre s ret0 Hf Hs; [lia|].
  simpl. rewrite length_app.
  destruct (Nat.eqb_spec (length pre) (length pre + length s)) as [E|_].
  { destruct s; [done | simpl in E; lia]. }
  rewrite std_find_app.
  destruct (find_offset_inv v s) as [[Hn Hl] | (u & r & -> & Hn & Hl)].
  - rewrite Hl, Nat.eqb_refl. simpl.
    by rewrite next_instance_offset_absent.
  - rewrite Hl. rewrite next_instance_offset_skip by done.
    rewrite length_app. simpl.
    destruct (Nat.eqb_spec (length pre + length u)
                (length pre + (length u + S (length r)))) as [E|_]; [lia|].
    simpl.
    destruct (Nat.eqb_spec (length pre + length u) 0) as [E0|E0]; simpl.
    + assert (pre = []) as -> by (destruct pre; [done | simpl in E0; lia]).
      assert (u = []) as -> by (destruct u; [done | simpl in E0; lia]).
      simpl. by rewrite Ascii.eqb_refl.
    + assert (Hne : pre ++ u ≠ []).
      { intros E. apply (f_equal length) in E. rewrite length_app in E.
        simpl in E. lia. }
      pose proof (char_at_last (pre ++ u) (v :: r) Hne) as Hlast.
      rewrite length_app, <- app_assoc, last_or_app in Hlast.
      rewrite Ascii.eqb_refl. rewrite Hlast.
      set (p := char_at _ _).
      ascii_cases p backslash.
      * destruct r as [|c r].
        -- destruct fuel as [|fuel]; [simpl in Hf; rewrite length_app in Hf; simpl in Hf; lia|].
           simpl. rewrite length_app, length_app. simpl.
           replace (length pre + length u + 1 =? length pre + (length u + 1)) with true
             by (symmetry; apply Nat.eqb_eq; lia).
           f_equal. lia.
        -- specialize (IH (pre ++ u ++ [v]) (c :: r) (Some (length pre + length u))).
           replace ((pre ++ u ++ [v]) ++ c :: r) with (pre ++ u ++ v :: c :: r) in IH
             by (by rewrite <- !app_assoc).
           replace (length (pre ++ u ++ [v])) with (length pre + length u + 1) in IH
             by (rewrite !length_app; simpl; lia).
           rewrite IH; [| rewrite length_app in Hf; simpl in Hf; simpl; lia | done].
           rewrite app_assoc, last_snoc. f_equal. lia.
      * f_equal. lia.
Qed.

Lemma kvu_priv_find_next_instance_spec v pre s :
  s ≠ [] →
  kvu_priv_find_next_instance (pre ++ s) (length pre) v
  = Some (length pre + next_instance_offset v (last pre) s).
Proof.
  intros Hs. unfold kvu_priv_find_next_instance.
  apply find_next_instance_loop_spec; [|done].
  rewrite length_app. lia.
Qed.



(** ** kvutils: stripping the escapes *)

Lemma find_backslash_comma_cons c1 c2 l :
  find_backslash_comma (c1 :: c2 :: l)
  = if Ascii.eqb c1 backslash && Ascii.eqb c2 comma then Some 0
    else S <$> find_backslash_comma (c2 :: l).
Proof. done. Qed.

Lemma stripped_cons c l :
  stripped (c :: l)
  = match stripped l with
    | c2 :: _ =>
        if Ascii.eqb c backslash && Ascii.eqb c2 comma
        then stripped l else c :: stripped l
    | [] => c :: stripped l
    end.
Proof. done. Qed.

Lemma stripped_comma r : stripped (comma :: r) = comma :: stripped r.
Proof. simpl. by destruct (stripped r). Qed.

Lemma stripped_backslash_comma r :
  stripped (backslash :: comma :: r) = stripped (comma :: r).
Proof.
  rewrite stripped_cons. by rewrite stripped_comma.
Qed.

Lemma stripped_app_congr q x y :
  stripped x = stripped y → stripped (q ++ x) = stripped (q ++ y).
Proof. intros E. induction q as [|c q IH]; simpl; [done|]. by rewrite IH. Qed.

Lemma find_backslash_comma_inv l :
  (find_backslash_comma l = None ∧ stripped l = l) ∨
  (∃ q r, l = q ++ backslash :: comma :: r
          ∧ find_backslash_comma l = Some (length q)).
Proof.
  induction l as [|c1 l IH]; [by left|].
  destruct l as [|c2 l]; [by left|].
  rewrite find_backslash_comma_cons.
  destruct (Ascii.eqb c1 backslash && Ascii.eqb c2 comma) eqn:E.
  - apply andb_true_iff in E as [->%ascii_eqb_true ->%ascii_eqb_true].
    right. by exists [], l.
  - destruct IH as [[Hn Hs] | (q & r & Hq & Hf)].
    + left. rewrite Hn. split; [done|].
      rewrite stripped_cons, Hs. by rewrite E.
    + right. exists (c1 :: q), r. rewrite Hf. split; [|done].
      simpl. by rewrite <- Hq.
Qed.

Lemma strip_escapes_loop_spec fuel : ∀ l,
  length l < fuel → strip_escapes_loop fuel l = Some (stripped l).
Proof.
  induction fuel as [|fuel IH]; intros l Hf; [lia|].
  simpl. destruct (find_backslash_comma_inv l) as [[-> ->] | (q & r & -> & ->)];
    [done|].
  unfold replace. rewrite take_app_length, drop_app_add. simpl.
  rewrite drop_0, IH.
  - f_equal. apply stripped_app_congr. by rewrite stripped_backslash_comma.
  - rewrite length_app in Hf |- *. simpl in Hf |- *. lia.
Qed.

(** [kvu_priv_strip_escapes] terminates, with a backslash removed
    wherever a comma comes to follow it. *)
Lemma kvu_priv_strip_escapes_spec l :
  kvu_priv_strip_escapes l = Some (stripped l).
Proof. apply strip_escapes_loop_spec. lia. Qed.






(** ** kvutils: where an escaped argument ends *)



(** ** kvutils: the argument loop *)

(** One iteration of the [for] loop of [kvu_get_arguments], started at
    the first character of [s]. *)
Lemma get_arguments_loop_step fuel pre s acc :
  s ≠ [] →
  let k := next_instance_offset comma (last pre) s in
  let acc' := if 0 <? length (take k s)
              then acc ++ [stripped (take k s)] else acc in
  get_arguments_loop (S fuel) (pre ++ s) (length pre) acc
  = if k =? length s then Some acc'
    else get_arguments_loop fuel ((pre ++ take (S k) s) ++ drop (S k) s)
           (length (pre ++ take (S k) s)) acc'.
Proof.
  intros Hs k acc'. cbn [get_arguments_loop].
  rewrite length_app.
  destruct (Nat.eqb_spec (length pre) (length pre + length s)) as [E|_].
  { destruct s; [done | simpl in E; lia]. }
  rewrite kvu_priv_find_next_instance_spec by done. fold k.
  cbn [mbind option_bind]. rewrite substr_app.
  assert (Hk : k ≤ length s) by apply next_instance_offset_le.
  assert (Hacc : (if 0 <? length (take k s)
                  then t ← kvu_priv_strip_escapes (take k s); Some (acc ++ [t])
                  else Some acc) = Some acc').
  { unfold acc'. destruct (0 <? length (take k s)); [|done].
    by rewrite kvu_priv_strip_escapes_spec. }
  rewrite Hacc. cbn [mbind option_bind].
  destruct (Nat.eqb_spec k (length s)) as [E|E].
  - rewrite E, Nat.eqb_refl. done.
  - destruct (Nat.eqb_spec (length pre + k) (length pre + length s)); [lia|].
    rewrite <- app_assoc, take_drop. f_equal.
    rewrite length_app, length_take. lia.
Qed.

(** The loop depends on the part of the string before the current
    position through its last character only, and any loop counter above
    the length of the rest gives the same, defined, result. *)
Lemma get_arguments_loop_shift fuel1 : ∀ fuel2 pre1 pre2 s acc,
  last pre1 = last pre2 → length s < fuel1 → length s < fuel2 →
  get_arguments_loop fuel1 (pre1 ++ s) (length pre1) acc
  = get_arguments_loop fuel2 (pre2 ++ s) (length pre2) acc
  ∧ is_Some (get_arguments_loop fuel1 (pre1 ++ s) (length pre1) acc).
Proof.
  induction fuel1 as [|fuel1 IH]; intros fuel2 pre1 pre2 s acc Hl H1 H2; [lia|].
  destruct fuel2 as [|fuel2]; [lia|].
  destruct s as [|c s'] eqn:Es.
  { cbn [get_arguments_loop]. rewrite !app_nil_r, !Nat.eqb_refl. eauto. }
  rewrite <- Es in *. assert (Hs : s ≠ []) by (by rewrite Es).
  rewrite !get_arguments_loop_step by done. rewrite <- Hl.
  set (k := next_instance_offset comma (last pre1) s).
  assert (Hk : k ≤ length s) by apply next_instance_offset_le.
  destruct (Nat.eqb_spec k (length s)) as [E|E]; [eauto|].
  apply IH.
  - rewrite !last_app. destruct (last (take (S k) s)) eqn:El; [done|].
    apply last_None in El. apply (f_equal length) in El.
    rewrite length_take in El. cbn [length] in El. lia.
  - rewrite length_drop. lia.
  - rewrite length_drop. lia.
Qed.

(** [kvu_get_arguments] returns on every string. *)
Lemma kvu_get_arguments_total argu : is_Some (kvu_get_arguments argu).
Proof.
  unfold kvu_get_arguments.
  destruct (std_find argu 0 colon =? length argu) eqn:E.
  - destruct (0 <? length argu); [|eauto].
    apply (get_arguments_loop_shift _ (S (length argu)) [] [] argu []); [done|lia..].
  - apply Nat.eqb_neq in E. rewrite std_find_0 in E |- *.
    destruct (find_offset_inv colon argu) as [[_ Hl] | (u & r & -> & Hn & Hl)];
      [done|].
    rewrite Hl.
    replace (u ++ colon :: r) with ((u ++ [colon]) ++ r) by (by rewrite <- app_assoc).
    replace (S (length u)) with (length (u ++ [colon])) by (rewrite length_app; simpl; lia).
    apply (get_arguments_loop_shift _ (S (length r)) _ (u ++ [colon]) r []); [done| |lia].
    rewrite !length_app. simpl. lia.
Qed.



(** ** kvutils: the quoted tokenizer *)

Lemma string_to_tokens_quoted_loop_None n : ∀ s vec stmp q,
  length s ≤ n →
  string_to_tokens_quoted_loop s vec stmp q = None
  ↔ ends_with_unescaped_backslash s = true.
Proof.
  induction n as [|n IH]; intros s vec stmp q Hn.
  - destruct s; [|simpl in Hn; lia]. simpl. split; intros; discriminate.
  - destruct s as [|c rest]; [simpl; split; intros; discriminate|].
    simpl in Hn. cbn [string_to_tokens_quoted_loop ends_with_unescaped_backslash].
    ascii_cases c dquote.
    { subst c. change (Ascii.eqb dquote backslash) with false. cbn iota.
      apply IH. lia. }
    ascii_cases c backslash.
    { destruct rest as [|c' rest']; [done|]. apply IH. simpl in Hn. lia. }
    destruct (negb (isspace c) || q); [apply IH; lia|].
    destruct stmp; apply IH; lia.
Qed.

Lemma string_to_tokens_quoted_loop_word w : ∀ rest vec stmp q,
  plain_word w →
  string_to_tokens_quoted_loop (w ++ rest) vec stmp q
  = string_to_tokens_quoted_loop rest vec (stmp ++ w) q.
Proof.
  induction w as [|c w IH]; intros rest vec stmp q Hw.
  - by rewrite app_nil_r.
  - apply Forall_cons in Hw as [(Hq & Hb & Hsp) Hw].
    cbn [app string_to_tokens_quoted_loop].
    apply ascii_eqb_false in Hq, Hb. rewrite Hq, Hb, Hsp. cbn [negb orb].
    rewrite IH by done. by rewrite <- app_assoc.
Qed.

(** C10.  On a string that does not end with an unescaped backslash
    [kvu_string_to_tokens_quoted] returns, every read being inside the
    string; on a string that does, the escape branch reads past the end
    (the precondition is needed).  A backslash takes the character that
    follows it into the current token, whatever that character is: with
    plain words around it, a backslash and [c] give the single token that
    holds [c] in their place. *)
Theorem kvu_string_to_tokens_quoted_escape_safe (s : cstring) :
  (ends_with_unescaped_backslash s = false →
   ∃ toks, kvu_string_to_tokens_quoted s = Some toks)
  ∧ (ends_with_unescaped_backslash s = true →
     kvu_string_to_tokens_quoted s = None)
  ∧ (∀ c rest vec stmp q,
       string_to_tokens_quoted_loop (backslash :: c :: rest) vec stmp q
       = string_to_tokens_quoted_loop rest vec (stmp ++ [c]) q)
  ∧ (∀ a b c, plain_word a → plain_word b →
       kvu_string_to_tokens_quoted (a ++ backslash :: c :: b)
       = Some [a ++ c :: b]).
Proof.
  split; [|split; [|split]].
  - intros He. unfold kvu_string_to_tokens_quoted.
    destruct (string_to_tokens_quoted_loop s [] [] false) as [toks|] eqn:E;
      [eauto|].
    apply (string_to_tokens_quoted_loop_None (length s)) in E; [|done].
    congruence.
  - intros He. by apply (string_to_tokens_quoted_loop_None (length s)).
  - done.
  - intros a b c Ha Hb. unfold kvu_string_to_tokens_quoted.
    rewrite string_to_tokens_quoted_loop_word by done.
    change (string_to_tokens_quoted_loop (backslash :: c :: b) [] ([] ++ a) false)
      with (string_to_tokens_quoted_loop b [] (a ++ [c]) false).
    rewrite <- (app_nil_r b) at 1.
    rewrite string_to_tokens_quoted_loop_word by done.
    cbn [string_to_tokens_quoted_loop]. rewrite <- app_assoc.
    assert ((0 <? length (a ++ [c] ++ b)) = true) as ->; [|done].
    apply Nat.ltb_lt. rewrite !length_app. simpl. lia.
Qed.

Lemma kvu_string_to_tokens_quoted_escape_safe_witness :
  ends_with_unescaped_backslash (str "d\ e") = false
  ∧ ∃ toks, kvu_string_to_tokens_quoted (str "d\ e") = Some toks.
Proof.
  split; [reflexivity|].
  apply (proj1 (kvu_string_to_tokens_quoted_escape_safe (str "d\ e"))).
  reflexivity.
Defined.

(** The tokenizer example of the specification. *)
Example kvu_string_to_tokens_quoted_example :
  kvu_string_to_tokens_quoted
    (str "a " ++ dquote :: str "b c" ++ dquote :: str " d\ e")
  = Some [str "a"; str "b c"; str "d e"].
Proof. reflexivity. Qed.

(** ** kvutils: option arguments *)

(** Scenario E of the specification. *)
Example kvu_get_arguments_scenario_E :
  kvu_get_arguments (str "-x:foo\,bar,baz") = Some [str "foo,bar"; str "baz"]
  ∧ spec_get_arguments (str "-x:foo\,bar,baz") = [str "foo,bar"; str "baz"].
Proof. split; reflexivity. Qed.

(** C6.  On an option whose last argument ends with an escaped comma,
    [kvu_priv_find_next_instance] leaves its loop with the position of
    that comma instead of the end of the string, and [kvu_get_arguments]
    cuts the argument there: the backslash stays and the comma is lost,
    where the grammar gives a literal comma. *)
Theorem kvu_get_arguments_trailing_escaped_comma :
  kvu_priv_find_next_instance (str "-x:foo\,") 3 comma = Some 7
  ∧ length (str "-x:foo\,") = 8
  ∧ kvu_get_arguments (str "-x:foo\,") = Some [str "foo\"]
  ∧ spec_get_arguments (str "-x:foo\,") = [str "foo,"].
Proof. repeat split; reflexivity. Qed.

(** C7, as stated, fails: with an escaped colon before the first
    unescaped one, the arguments start after the escaped colon. *)
Lemma separator_first_unescaped_colon_counterexample :
  let tok := str "-a\:b:c" in
  kvu_priv_find_next_instance tok 0 colon = Some 5
  ∧ kvu_get_arguments tok = Some [str "b:c"]
  ∧ kvu_get_arguments tok ≠ kvu_get_arguments (drop 5 tok)
  ∧ kvu_get_argument_prefix tok = Some (str "a\")
  ∧ kvu_get_argument_prefix tok ≠ Some (substr tok 1 5).
Proof. repeat split; try reflexivity; vm_compute; discriminate. Qed.

(** C7, amended.  The separator is the first colon of the token, with
    or without a backslash before it: when the first minus sign comes
    before it, [kvu_get_argument_prefix] returns what stands strictly
    between the two, and [kvu_get_arguments] returns the arguments of
    what follows the colon. *)
Theorem kvu_separator_first_colon (q p r : cstring) :
  minus ∉ q → colon ∉ q → colon ∉ p →
  kvu_get_argument_prefix (q ++ minus :: p ++ colon :: r) = Some p
  ∧ kvu_get_arguments (q ++ minus :: p ++ colon :: r)
    = kvu_get_arguments (colon :: r).
Proof.
  intros Hmq Hcq Hcp. split.
  - unfold kvu_get_argument_prefix. rewrite !std_find_0.
    rewrite find_offset_first by done.
    replace (q ++ minus :: p ++ colon :: r)
      with ((q ++ minus :: p) ++ colon :: r) by (by rewrite <- app_assoc).
    rewrite find_offset_first.
    2:{ rewrite not_elem_of_app, not_elem_of_cons. done. }
    assert (Hl2 : length (q ++ minus :: p) = length q + S (length p))
      by (by rewrite length_app).
    assert (Hl3 : length ((q ++ minus :: p) ++ colon :: r)
                  = length q + S (length p) + S (length r))
      by (by rewrite length_app, Hl2).
    rewrite Hl3, Hl2.
    destruct (Nat.eqb_spec (length q) (length q + S (length p) + S (length r)));
      [lia|].
    destruct (Nat.eqb_spec (S (length q)) (length q + S (length p) + S (length r)));
      [lia|].
    destruct (Nat.ltb_spec (length q + S (length p)) (S (length q))); [lia|].
    f_equal. unfold substr.
    replace ((q ++ minus :: p) ++ colon :: r)
      with ((q ++ [minus]) ++ p ++ colon :: r) by (by rewrite <- !app_assoc).
    rewrite drop_app_length' by (rewrite length_app; simpl; lia).
    apply take_app_length'. lia.
  - unfold kvu_get_arguments. rewrite !std_find_0.
    replace (q ++ minus :: p ++ colon :: r)
      with ((q ++ minus :: p) ++ colon :: r) by (by rewrite <- app_assoc).
    rewrite find_offset_first.
    2:{ rewrite not_elem_of_app, not_elem_of_cons. done. }
    set (u := q ++ minus :: p).
    change (find_offset colon (colon :: r)) with 0.
    destruct (Nat.eqb_spec (length u) (length (u ++ colon :: r))) as [E|_].
    { rewrite length_app in E. simpl in E. lia. }
    cbn [length Nat.eqb].
    replace (u ++ colon :: r) with ((u ++ [colon]) ++ r) by (by rewrite <- app_assoc).
    replace (S (length u)) with (length (u ++ [colon]))
      by (rewrite length_app; simpl; lia).
    change (colon :: r) with ([colon] ++ r).
    apply get_arguments_loop_shift.
    + by rewrite last_snoc.
    + rewrite !length_app. simpl. lia.
    + simpl. lia.
Qed.

Lemma kvu_separator_first_colon_witness :
  kvu_get_argument_prefix (str "-a\:b:c") = Some (str "a\")
  ∧ kvu_get_arguments (str "-a\:b:c") = kvu_get_arguments (str ":b:c").
Proof.
  apply (kvu_separator_first_colon [] (str "a\") (str "b:c"));
    vm_compute; intros H; repeat (apply elem_of_cons in H as [H|H]; [discriminate|]);
    by apply elem_of_nil in H.
Defined.




End kvu_find.

Local Open Scope nat_scope.

(** ** [kvu_utils.cpp]: splitting, replacing, trimming *)

Section kvu_strings.
Import kvu.

Implicit Types (s t w a r : cstring) (c : ascii) (vec L : list cstring)
  (is_sep : ascii → bool).

Lemma string_to_tokens_loop_split s : ∀ vec stmp,
  string_to_tokens_loop s vec stmp = split_loop isspace s vec stmp.
Proof.
  induction s as [|c s IH]; intros vec stmp; [done|]. cbn.
  destruct (negb (isspace c)); [apply IH|]. destruct stmp; apply IH.
Qed.

Lemma string_to_vector_loop_split s c0 : ∀ vec stmp,
  string_to_vector_loop s c0 vec stmp
  = split_loop (λ c, Ascii.eqb c c0) s vec stmp.
Proof.
  induction s as [|c s IH]; intros vec stmp; [done|]. cbn.
  destruct (negb (Ascii.eqb c c0)); [apply IH|]. destruct stmp; apply IH.
Qed.

Lemma split_loop_word is_sep w : ∀ rest vec stmp,
  Forall (λ c, is_sep c = false) w →
  split_loop is_sep (w ++ rest) vec stmp
  = split_loop is_sep rest vec (stmp ++ w).
Proof.
  induction w as [|c w IH]; intros rest vec stmp Hw.
  - by rewrite app_nil_r.
  - apply Forall_cons in Hw as [Hc Hw]. cbn. rewrite Hc. cbn.
    rewrite IH by done. by rewrite <-app_assoc.
Qed.

Lemma split_loop_tokens is_sep s : ∀ vec stmp,
  Forall (token_of is_sep) vec → Forall (λ c, is_sep c = false) stmp →
  Forall (token_of is_sep) (split_loop is_sep s vec stmp).
Proof.
  induction s as [|c s IH]; intros vec stmp Hvec Hstmp; cbn.
  - destruct stmp as [|c' stmp]; [done|]. cbn.
    apply Forall_app. split; [done|]. by apply Forall_singleton.
  - destruct (is_sep c) eqn:Hc; cbn.
    + destruct stmp as [|c' stmp]; [by apply IH|].
      apply IH; [|done]. apply Forall_app. split; [done|].
      by apply Forall_singleton.
    + apply IH; [done|]. apply Forall_app. split; [done|].
      by apply Forall_singleton.
Qed.

Lemma split_loop_concat is_sep s : ∀ vec stmp,
  concat (split_loop is_sep s vec stmp)
  = concat vec ++ stmp ++ filter (λ c, is_sep c = false) s.
Proof.
  induction s as [|c s IH]; intros vec stmp; cbn [split_loop].
  - rewrite filter_nil, app_nil_r. destruct stmp as [|c' stmp]; cbn.
    + by rewrite app_nil_r.
    + by rewrite concat_app; cbn; rewrite app_nil_r.
  - destruct (is_sep c) eqn:Hc; cbn [negb].
    + rewrite filter_cons_False by (by rewrite Hc).
      destruct stmp as [|c' stmp]; rewrite IH; [done|].
      rewrite concat_app. cbn. by rewrite app_nil_r, <-app_assoc.
    + rewrite filter_cons_True by done. rewrite IH. by rewrite <-app_assoc.
Qed.

Lemma split_loop_join is_sep c0 L : ∀ vec,
  is_sep c0 = true → Forall (token_of is_sep) L →
  split_loop is_sep (kvu_vector_to_string L [c0]) vec [] = vec ++ L.
Proof.
  intros vec Hc0. revert vec.
  induction L as [|t L IH]; intros vec HL; [by rewrite app_nil_r|].
  apply Forall_cons in HL as [[Ht Hsep] HL]. cbn [kvu_vector_to_string].
  rewrite split_loop_word by done. cbn [app].
  destruct L as [|t' L].
  - cbn. destruct t; [done|]. done.
  - cbn [app split_loop]. rewrite Hc0. cbn [negb].
    destruct t; [done|]. rewrite IH by done. by rewrite <-app_assoc.
Qed.

Lemma Forall_not_sep c0 t :
  Forall (λ c, Ascii.eqb c c0 = false) t ↔ c0 ∉ t.
Proof.
  rewrite Forall_forall. split.
  - intros H Hin. specialize (H c0 Hin). by rewrite Ascii.eqb_refl in H.
  - intros H c Hc. apply ascii_eqb_false. by intros ->.
Qed.

Lemma filter_not_sep c0 s :
  filter (λ c, Ascii.eqb c c0 = false) s = filter (λ c, c ≠ c0) s.
Proof.
  apply list_filter_iff. intros c. apply ascii_eqb_false.
Qed.

(** X1.  [kvu_string_to_vector] returns tokens that are not empty and
    hold no separator; put end to end they are the string without its
    separators; and a list of such tokens, joined by the separator with
    [kvu_vector_to_string], is split into the same list. *)
Theorem kvu_string_to_vector_spec (separator : ascii) :
  (∀ str,
     Forall (λ t, t ≠ [] ∧ separator ∉ t) (kvu_string_to_vector str separator)
     ∧ concat (kvu_string_to_vector str separator)
       = filter (λ c, c ≠ separator) str)
  ∧ (∀ L, Forall (λ t, t ≠ [] ∧ separator ∉ t) L →
       kvu_string_to_vector (kvu_vector_to_string L [separator]) separator
       = L).
Proof.
  unfold kvu_string_to_vector. split.
  - intros str. rewrite string_to_vector_loop_split. split.
    + eapply Forall_impl; [by apply split_loop_tokens|].
      intros t [Ht Hsep]. split; [done|]. by apply Forall_not_sep.
    + by rewrite split_loop_concat, filter_not_sep.
  - intros L HL. rewrite string_to_vector_loop_split.
    apply (split_loop_join _ separator L []); [apply Ascii.eqb_refl|].
    eapply Forall_impl; [exact HL|].
    intros t [Ht Hsep]. split; [done|]. by apply Forall_not_sep.
Qed.

Lemma kvu_string_to_vector_spec_witness :
  kvu_string_to_vector (str "alsa,,44100,") comma = [str "alsa"; str "44100"]
  ∧ kvu_string_to_vector
      (kvu_vector_to_string [str "s16_le"; str "2"; str "44100"] [comma]) comma
    = [str "s16_le"; str "2"; str "44100"].
Proof.
  split; [reflexivity|].
  apply (proj2 (kvu_string_to_vector_spec comma)).
  repeat (apply Forall_cons; split;
          [split; [discriminate | by apply Forall_not_sep; repeat constructor]|]).
  apply Forall_nil_2.
Defined.

(** X2.  [kvu_string_to_tokens] returns tokens that are not empty and
    hold no white space; put end to end they are the string without its
    white space; and a list of such tokens, joined by a space, is split
    into the same list. *)
Theorem kvu_string_to_tokens_spec :
  (∀ s,
     Forall (λ t, t ≠ [] ∧ Forall (λ c, isspace c = false) t)
       (kvu_string_to_tokens s)
     ∧ concat (kvu_string_to_tokens s) = filter (λ c, isspace c = false) s)
  ∧ (∀ L, Forall (λ t, t ≠ [] ∧ Forall (λ c, isspace c = false) t) L →
       kvu_string_to_tokens (kvu_vector_to_string L [space]) = L).
Proof.
  unfold kvu_string_to_tokens. split.
  - intros s. rewrite string_to_tokens_loop_split. split.
    + by apply split_loop_tokens.
    + by rewrite split_loop_concat.
  - intros L HL. rewrite string_to_tokens_loop_split.
    by apply (split_loop_join isspace space L []).
Qed.

Lemma kvu_string_to_tokens_spec_witness :
  kvu_string_to_tokens
    (kvu_vector_to_string [str "-i:a.wav"; str "-o:b.wav"] [space])
  = [str "-i:a.wav"; str "-o:b.wav"].
Proof.
  apply (proj2 kvu_string_to_tokens_spec).
  repeat (apply Forall_cons; split; [split; [discriminate | by repeat constructor]|]).
  apply Forall_nil_2.
Defined.

Lemma string_to_tokens_quoted_loop_plain s : ∀ vec stmp,
  dquote ∉ s → backslash ∉ s →
  string_to_tokens_quoted_loop s vec stmp false
  = Some (string_to_tokens_loop s vec stmp).
Proof.
  induction s as [|c s IH]; intros vec stmp Hq Hb; [done|].
  apply not_elem_of_cons in Hq as [Hq1 Hq], Hb as [Hb1 Hb].
  cbn [string_to_tokens_quoted_loop string_to_tokens_loop].
  rewrite (proj2 (ascii_eqb_false c dquote)) by done.
  rewrite (proj2 (ascii_eqb_false c backslash)) by done.
  rewrite orb_false_r.
  destruct (negb (isspace c)); [by apply IH|]. destruct stmp; by apply IH.
Qed.

(** X3.  On a string without double quote and without backslash,
    [kvu_string_to_tokens_quoted] returns, and returns the tokens of
    [kvu_string_to_tokens]. *)
Theorem kvu_string_to_tokens_quoted_plain s :
  dquote ∉ s → backslash ∉ s →
  kvu_string_to_tokens_quoted s = Some (kvu_string_to_tokens s).
Proof. apply string_to_tokens_quoted_loop_plain. Qed.

Lemma kvu_string_to_tokens_quoted_plain_witness :
  kvu_string_to_tokens_quoted (str "-i a.wav  -o b.wav")
  = Some (kvu_string_to_tokens (str "-i a.wav  -o b.wav")).
Proof.
  apply kvu_string_to_tokens_quoted_plain;
    intros H; repeat (apply elem_of_cons in H as [H|H]; [discriminate|]);
    by apply elem_of_nil in H.
Defined.

Lemma char_at_lookup s (p : nat) c : s !! p = Some c → char_at s p = c.
Proof. intros H. unfold char_at. by apply nth_lookup_Some with (d := zero) in H. Qed.

Lemma search_and_replace_loop_spec s (from to : ascii) (k : nat) : ∀ p : nat,
  p + k = length s →
  search_and_replace_loop s from to k p
    ((replace_char from to <$> take p s) ++ drop p s)
  = replace_char from to <$> s.
Proof.
  induction k as [|k IH]; intros p Hp; cbn [search_and_replace_loop].
  - rewrite take_ge, drop_ge by lia. by rewrite app_nil_r.
  - destruct (lookup_lt_is_Some_2 s p) as [c Hc]; [lia|].
    rewrite (char_at_lookup _ _ _ Hc).
    fold (replace_char from to c).
    rewrite <-(IH (S p)) by lia. f_equal.
    rewrite (drop_S _ _ _ Hc), (take_S_r _ _ _ Hc), fmap_app. cbn.
    rewrite <-app_assoc. cbn.
    rewrite insert_app_r_alt by (rewrite length_fmap, length_take; lia).
    rewrite length_fmap, length_take.
    replace (p - p `min` length s) with 0 by lia. done.
Qed.

Lemma kvu_string_search_and_replace_fmap s (from to : ascii) :
  kvu_string_search_and_replace s from to = replace_char from to <$> s.
Proof.
  unfold kvu_string_search_and_replace.
  by rewrite <-(search_and_replace_loop_spec s from to (length s) 0).
Qed.

Lemma replace_char_absent (from to : ascii) s :
  from ∉ s → replace_char from to <$> s = s.
Proof.
  induction s as [|c s IH]; [done|]. intros [Hc Hs]%not_elem_of_cons. cbn.
  rewrite IH by done. unfold replace_char.
  by rewrite (proj2 (ascii_eqb_false c from)) by done.
Qed.

Lemma kvu_string_search_and_replace_absent s (from to : ascii) :
  from ∉ s → kvu_string_search_and_replace s from to = s.
Proof.
  rewrite kvu_string_search_and_replace_fmap. apply replace_char_absent.
Qed.

(** X4.  [kvu_string_search_and_replace] keeps the length, puts [to] at
    the positions of [from] and leaves the other positions alone; so
    [from] is gone when [to] is another character, and a string without
    [from] comes back as it is. *)
Theorem kvu_string_search_and_replace_spec s (from to : ascii) :
  length (kvu_string_search_and_replace s from to) = length s
  ∧ (∀ (p : nat) c, s !! p = Some c →
       kvu_string_search_and_replace s from to !! p
       = Some (if bool_decide (c = from) then to else c))
  ∧ (to ≠ from → from ∉ kvu_string_search_and_replace s from to)
  ∧ (from ∉ s → kvu_string_search_and_replace s from to = s).
Proof.
  rewrite kvu_string_search_and_replace_fmap. split_and!.
  - apply length_fmap.
  - intros p c Hp. rewrite list_lookup_fmap, Hp. cbn. f_equal.
    unfold replace_char. case_bool_decide as Hc.
    + by rewrite (proj2 (ascii_eqb_true c from)).
    + by rewrite (proj2 (ascii_eqb_false c from)).
  - intros Hne [c [Hc Hin]]%list_elem_of_fmap. unfold replace_char in Hc.
    destruct (Ascii.eqb c from) eqn:E; [congruence|].
    apply ascii_eqb_false in E. congruence.
  - apply replace_char_absent.
Qed.

Lemma vector_search_and_replace_loop_spec (from to : ascii) L : ∀ vstmp,
  vector_search_and_replace_loop L from to vstmp
  = vstmp ++ ((λ t, if bool_decide (comma ∈ t)
                    then kvu_string_search_and_replace t from to else t)
              <$> L).
Proof.
  induction L as [|t L IH]; intros vstmp; cbn [vector_search_and_replace_loop].
  - by rewrite app_nil_r.
  - rewrite IH, <-app_assoc. cbn. do 3 f_equal.
    destruct (find_offset_inv comma t) as [[Hno ->] | (u & r' & -> & Hn & ->)].
    + rewrite Nat.eqb_refl. cbn. by rewrite bool_decide_eq_false_2.
    + rewrite length_app. cbn.
      destruct (Nat.eqb_spec (length u) (length u + S (length r'))); [lia|].
      cbn. rewrite bool_decide_eq_true_2; [done|].
      apply elem_of_app. right. left.
Qed.

(** X5.  [kvu_vector_search_and_replace] looks for a comma, not for
    [from], before it replaces in a string: strings without a comma come
    back as they are, whatever [from] is, and with the comma as [from]
    every string is replaced in. *)
Theorem kvu_vector_search_and_replace_comma (L : list cstring) (from to : ascii) :
  ((∀ t, t ∈ L → comma ∉ t) → kvu_vector_search_and_replace L from to = L)
  ∧ kvu_vector_search_and_replace L comma to
    = (λ t, kvu_string_search_and_replace t comma to) <$> L
  ∧ length (kvu_vector_search_and_replace L from to) = length L.
Proof.
  unfold kvu_vector_search_and_replace.
  rewrite !vector_search_and_replace_loop_spec. cbn [app]. split_and!.
  - intros Hno. rewrite <-(list_fmap_id L) at 2.
    apply list_fmap_ext. intros i t Ht.
    rewrite bool_decide_eq_false_2; [done|].
    apply Hno. by eapply list_elem_of_lookup_2.
  - apply list_fmap_ext. intros i t Ht. case_bool_decide as Hc; [done|].
    by rewrite kvu_string_search_and_replace_absent.
  - apply length_fmap.
Qed.

Lemma kvu_string_search_and_replace_spec_witness :
  kvu_string_search_and_replace (str "a,b,c") comma space = str "a b c"
  ∧ comma ∉ kvu_string_search_and_replace (str "a,b,c") comma space.
Proof.
  split; [reflexivity|].
  apply (proj1 (proj2 (proj2 (kvu_string_search_and_replace_spec
                                (str "a,b,c") comma space)))).
  discriminate.
Defined.

Lemma kvu_vector_search_and_replace_comma_witness :
  kvu_vector_search_and_replace [str "a-b"; str "c-d"] minus space
  = [str "a-b"; str "c-d"].
Proof.
  apply (proj1 (kvu_vector_search_and_replace_comma _ minus space)).
  intros t Ht.
  repeat (apply elem_of_cons in Ht as [->|Ht];
          [intros H; repeat (apply elem_of_cons in H as [H|H]; [discriminate|]);
           by apply elem_of_nil in H|]).
  by apply elem_of_nil in Ht.
Defined.

(** *** Trimming *)

Lemma prepend_each_rev l : ∀ r, prepend_each l r = rev l ++ r.
Proof.
  induction l as [|c l IH]; intros r; [done|]. cbn.
  by rewrite IH, <-app_assoc.
Qed.

Lemma append_each_app l : ∀ r, append_each l r = r ++ l.
Proof.
  induction l as [|c l IH]; intros r; cbn; [by rewrite app_nil_r|].
  by rewrite IH, <-app_assoc.
Qed.

Lemma skip_spaces_spec a :
  ∃ n : nat, a = replicate n space ++ skip_spaces a
             ∧ head (skip_spaces a) ≠ Some space.
Proof.
  induction a as [|c a (n & Ha & Hh)]; [by exists 0|]. cbn.
  destruct (Ascii.eqb c space) eqn:E; cbn.
  - apply ascii_eqb_true in E as ->. exists (S n). cbn. by rewrite <-Ha.
  - apply ascii_eqb_false in E. exists 0. split; [done|]. cbn. congruence.
Qed.

Lemma skip_spaces_replicate (n : nat) l :
  skip_spaces (replicate n space ++ l) = skip_spaces l.
Proof. induction n as [|n IH]; [done|]. cbn. exact IH. Qed.

Lemma skip_spaces_id l : head l ≠ Some space → skip_spaces l = l.
Proof.
  destruct l as [|c l]; [done|]. cbn. intros H.
  destruct (Ascii.eqb c space) eqn:E; [|done].
  apply ascii_eqb_true in E as ->. done.
Qed.

Lemma skip_spaces_app_spaces l (n : nat) :
  skip_spaces (l ++ replicate n space)
  = match skip_spaces l with
    | [] => []
    | _ :: _ => skip_spaces l ++ replicate n space
    end.
Proof.
  induction l as [|c l IH]; cbn.
  - rewrite <-(app_nil_r (replicate n space)), skip_spaces_replicate. done.
  - destruct (Ascii.eqb c space); cbn; [exact IH|done].
Qed.

Lemma kvu_remove_preceding_spaces_skip a :
  kvu_remove_preceding_spaces a = skip_spaces a.
Proof. unfold kvu_remove_preceding_spaces. by rewrite append_each_app. Qed.

Lemma kvu_remove_trailing_spaces_skip a :
  kvu_remove_trailing_spaces a = rev (skip_spaces (rev a)).
Proof.
  unfold kvu_remove_trailing_spaces. by rewrite prepend_each_rev, app_nil_r.
Qed.

Lemma rev_is_reverse {A} (l : list A) : rev l = reverse l.
Proof. unfold reverse. by rewrite rev_alt. Qed.

Lemma rev_replicate_space (n : nat) : rev (replicate n space) = replicate n space.
Proof. rewrite rev_is_reverse. apply reverse_replicate. Qed.

(** X6.  [kvu_remove_trailing_spaces] removes a run of spaces from the
    end and what it returns does not end with a space;
    [kvu_remove_preceding_spaces] does the same at the beginning.  Only
    the space character counts, no other white space. *)
Theorem kvu_remove_spaces_spec a :
  (∃ n : nat, a = kvu_remove_trailing_spaces a ++ replicate n space
              ∧ last (kvu_remove_trailing_spaces a) ≠ Some space)
  ∧ (∃ n : nat, a = replicate n space ++ kvu_remove_preceding_spaces a
                ∧ head (kvu_remove_preceding_spaces a) ≠ Some space).
Proof.
  rewrite kvu_remove_trailing_spaces_skip, kvu_remove_preceding_spaces_skip.
  split; [|apply skip_spaces_spec].
  destruct (skip_spaces_spec (rev a)) as (n & Ha & Hh). exists n. split.
  - rewrite <-(rev_involutive a), Ha at 1.
    by rewrite rev_app_distr, rev_replicate_space.
  - rewrite rev_is_reverse, last_reverse. exact Hh.
Qed.

Lemma char_at_app_l l r (i : nat) : i < length l → char_at (l ++ r) i = char_at l i.
Proof. intros H. unfold char_at. by rewrite app_nth1. Qed.

Lemma char_at_app_r l r (i : nat) :
  length l ≤ i → char_at (l ++ r) i = char_at r (i - length l).
Proof. intros H. unfold char_at. by rewrite app_nth2. Qed.

Lemma char_at_replicate (n i : nat) : i < n → char_at (replicate n space) i = space.
Proof.
  intros H. apply char_at_lookup. by apply lookup_replicate_2.
Qed.

Lemma skip_spaces_back_spaces l (K : nat) :
  l ≠ [] → last l ≠ Some space →
  ∀ k : nat, k ≤ K →
    skip_spaces_back (l ++ replicate K space) (length l - 1 + k) = length l - 1.
Proof.
  intros Hl Hlast. induction k as [|k IH]; intros Hk.
  - rewrite Nat.add_0_r. destruct (length l - 1) as [|q'] eqn:Hq; [done|].
    cbn [skip_spaces_back]. rewrite char_at_app_l by lia.
    destruct (Ascii.eqb (char_at l (S q')) space) eqn:E; [|done].
    apply ascii_eqb_true in E. exfalso. apply Hlast.
    rewrite last_lookup. replace (pred (length l)) with (S q') by lia.
    destruct (lookup_lt_is_Some_2 l (S q')) as [c Hc]; [lia|].
    rewrite Hc. by rewrite (char_at_lookup _ _ _ Hc) in E; subst.
  - assert (length l ≠ 0) by (by destruct l).
    replace (length l - 1 + S k) with (S (length l - 1 + k)) by lia.
    cbn [skip_spaces_back].
    rewrite char_at_app_r, char_at_replicate by lia.
    rewrite Ascii.eqb_refl. apply IH. lia.
Qed.

Lemma skip_spaces_back_all (n : nat) : ∀ q : nat,
  q < n → skip_spaces_back (replicate n space) q = 0.
Proof.
  induction q as [|q IH]; intros Hq; [done|]. cbn [skip_spaces_back].
  rewrite char_at_replicate by lia. rewrite Ascii.eqb_refl. apply IH. lia.
Qed.

Lemma skip_spaces_all (n : nat) : skip_spaces (replicate n space) = [].
Proof. rewrite <-(app_nil_r (replicate n space)). apply skip_spaces_replicate. Qed.

(** A string with a character that is not a space: spaces, a part that
    neither starts nor ends with a space, spaces. *)
Lemma has_non_space_inv a :
  has_non_space a →
  ∃ (n k : nat) m, a = replicate n space ++ m ++ replicate k space
                   ∧ m ≠ [] ∧ head m ≠ Some space ∧ last m ≠ Some space.
Proof.
  intros Hns. destruct (skip_spaces_spec a) as (n & Ha & Hh).
  set (b := skip_spaces a) in *.
  destruct (skip_spaces_spec (rev b)) as (k & Hb & Hh').
  set (c' := skip_spaces (rev b)) in *.
  assert (b = rev c' ++ replicate k space) as Hb'.
  { rewrite <-(rev_involutive b), Hb.
    by rewrite rev_app_distr, rev_replicate_space. }
  assert (b ≠ []) as Hbne.
  { intros E. rewrite E, app_nil_r in Ha. rewrite Ha in Hns.
    apply Exists_exists in Hns as (c & Hc & Hne).
    by apply elem_of_replicate in Hc as [? _]. }
  assert (rev c' ≠ []) as Hm.
  { intros E. rewrite E in Hb'. cbn in Hb'. rewrite Hb' in Hh, Hbne.
    destruct k; [done|]. by apply Hh. }
  exists n, k, (rev c'). split; [by rewrite <-Hb'|]. split; [done|]. split.
  - rewrite Hb' in Hh. by destruct (rev c').
  - by rewrite rev_is_reverse, last_reverse.
Qed.

Lemma not_has_non_space_inv a :
  ¬ has_non_space a → a = replicate (length a) space.
Proof.
  intros Hns. induction a as [|c a IH]; [done|]. cbn.
  destruct (decide (c = space)) as [->|Hc].
  - f_equal. apply IH. intros H. apply Hns. by right.
  - exfalso. apply Hns. by left.
Qed.

Lemma head_rev_app m r : m ≠ [] → head (rev m ++ r) = last m.
Proof.
  intros Hm. destruct (exists_last Hm) as [m' [x ->]].
  by rewrite rev_app_distr, last_snoc.
Qed.

(** X7.  On a string with a character that is not a space,
    [kvu_remove_surrounding_spaces] returns what
    [kvu_remove_trailing_spaces] and then [kvu_remove_preceding_spaces]
    return.  On a string of spaces only it returns the empty string when
    the length is one and has no defined result otherwise: on the empty
    string the iterator [q] starts before the beginning, on two spaces
    or more the range [p, q + 1) ends before it starts. *)
Theorem kvu_remove_surrounding_spaces_spec a :
  (has_non_space a →
   kvu_remove_surrounding_spaces a
   = Some (kvu_remove_preceding_spaces (kvu_remove_trailing_spaces a)))
  ∧ (¬ has_non_space a →
     kvu_remove_surrounding_spaces a
     = if bool_decide (length a = 1) then Some [] else None).
Proof.
  split.
  - intros (n & k & m & -> & Hm & Hh & Hl)%has_non_space_inv.
    rewrite kvu_remove_trailing_spaces_skip, kvu_remove_preceding_spaces_skip.
    rewrite !rev_app_distr, !rev_replicate_space, <-app_assoc.
    rewrite skip_spaces_replicate.
    rewrite (skip_spaces_id (rev m ++ _)).
    2: { by rewrite head_rev_app. }
    rewrite rev_app_distr, rev_involutive, rev_replicate_space.
    rewrite skip_spaces_replicate, (skip_spaces_id m) by done.
    unfold kvu_remove_surrounding_spaces.
    assert (length m ≠ 0) by (by destruct m).
    destruct (length (replicate n space ++ m ++ replicate k space)) as [|N] eqn:HN.
    { rewrite !length_app in HN. lia. }
    rewrite skip_spaces_replicate, (skip_spaces_id (m ++ _)) by (by destruct m).
    repeat rewrite ?length_app, ?length_replicate in HN.
    rewrite ?length_app, ?length_replicate.
    rewrite (app_assoc (replicate n space) m).
    assert (N = length (replicate n space ++ m) - 1 + k) as ->
      by (rewrite length_app, length_replicate; lia).
    rewrite skip_spaces_back_spaces; [| | |lia].
    2: { by destruct (replicate n space), m. }
    2: { rewrite last_app. destruct (last m) eqn:E; [done|].
         by apply last_None in E. }
    rewrite length_app, length_replicate.
    replace (S (n + length m - 1 + k) - (length m + k)) with n by lia.
    destruct (Nat.leb_spec n (n + length m - 1 + 1)); [|lia].
    f_equal. unfold substr. rewrite <-app_assoc.
    rewrite drop_app_length' by (by rewrite length_replicate).
    replace (n + length m - 1 + 1 - n) with (length m) by lia.
    by rewrite take_app_length.
  - intros Ha%not_has_non_space_inv. rewrite Ha, length_replicate.
    unfold kvu_remove_surrounding_spaces. rewrite length_replicate.
    destruct (length a) as [|[|n]]; [done..|].
    rewrite skip_spaces_all, skip_spaces_back_all by lia. done.
Qed.

Lemma kvu_remove_surrounding_spaces_spec_witness :
  kvu_remove_surrounding_spaces (str "  a b ")
  = Some (kvu_remove_preceding_spaces (kvu_remove_trailing_spaces (str "  a b ")))
  ∧ kvu_remove_surrounding_spaces (str "   ") = None.
Proof.
  split.
  - apply (proj1 (kvu_remove_surrounding_spaces_spec _)).
    right. right. left. discriminate.
  - apply (proj2 (kvu_remove_surrounding_spaces_spec (str "   "))).
    intros H. repeat (apply Exists_cons in H as [H|H]; [by apply H|]).
    by apply Exists_nil in H.
Defined.

(** *** Comparing without case *)

Lemma trimmed_pad (n m : nat) a :
  kvu_remove_preceding_spaces
    (kvu_remove_trailing_spaces (replicate n space ++ a ++ replicate m space))
  = kvu_remove_preceding_spaces (kvu_remove_trailing_spaces a).
Proof.
  rewrite !kvu_remove_trailing_spaces_skip, !kvu_remove_preceding_spaces_skip.
  rewrite !rev_app_distr, !rev_replicate_space, <-app_assoc.
  rewrite skip_spaces_replicate, skip_spaces_app_spaces.
  destruct (skip_spaces (rev a)) as [|c l]; [done|].
  by rewrite rev_app_distr, rev_replicate_space, skip_spaces_replicate.
Qed.

Lemma to_lowercase_loop_fmap (tolower : ascii → ascii) a :
  to_lowercase_loop tolower a = tolower <$> a.
Proof. induction a as [|c a IH]; [done|]. cbn. by rewrite IH. Qed.

Lemma skip_spaces_fmap (f : ascii → ascii) a :
  (∀ c, f c = space ↔ c = space) →
  skip_spaces (f <$> a) = f <$> skip_spaces a.
Proof.
  intros Hf. induction a as [|c a IH]; [done|]. cbn.
  destruct (Ascii.eqb c space) eqn:E.
  - apply ascii_eqb_true in E as ->.
    rewrite (proj2 (ascii_eqb_true (f space) space)) by (by apply Hf). exact IH.
  - apply ascii_eqb_false in E.
    rewrite (proj2 (ascii_eqb_false (f c) space)); [done|].
    intros H. by apply E, Hf.
Qed.

Lemma rev_fmap {A B} (f : A → B) (l : list A) : rev (f <$> l) = f <$> rev l.
Proof. by rewrite !rev_is_reverse, fmap_reverse. Qed.

(** X8.  [kvu_string_icmp] gives the same answer when spaces are put
    before and after its first argument, whatever [toupper] is; and with
    a [toupper] that undoes [tolower], and a [tolower] that makes and
    loses no space, a string compares equal to its lowercase form. *)
Theorem kvu_string_icmp_spec (toupper tolower : ascii → ascii) :
  (∀ (n m : nat) a b,
     kvu_string_icmp toupper (replicate n space ++ a ++ replicate m space) b
     = kvu_string_icmp toupper a b)
  ∧ ((∀ c, toupper (tolower c) = toupper c) →
     (∀ c, tolower c = space ↔ c = space) →
     ∀ a, kvu_string_icmp toupper (kvu_convert_to_lowercase tolower a) a = true).
Proof.
  split.
  - intros n m a b. unfold kvu_string_icmp. by rewrite trimmed_pad.
  - intros Hup Hsp a. unfold kvu_string_icmp, kvu_convert_to_lowercase,
      kvu_convert_to_uppercase.
    apply bool_decide_eq_true.
    rewrite (to_lowercase_loop_fmap tolower a).
    rewrite !kvu_remove_trailing_spaces_skip, !kvu_remove_preceding_spaces_skip.
    rewrite rev_fmap, (skip_spaces_fmap _ _ Hsp), rev_fmap,
      (skip_spaces_fmap _ _ Hsp).
    generalize (skip_spaces (rev (skip_spaces (rev a)))). intros z.
    induction z as [|c z IH]; [done|]. cbn. by rewrite Hup, IH.
Qed.

Lemma toupper_tolower_C c : toupper_C (tolower_C c) = toupper_C c.
Proof. by destruct c as [[] [] [] [] [] [] [] []]. Qed.

Lemma tolower_C_space c : tolower_C c = space ↔ c = space.
Proof. destruct c as [[] [] [] [] [] [] [] []]; by split. Qed.

Lemma kvu_string_icmp_spec_witness :
  kvu_string_icmp toupper_C (str " alsa  ") (str "ALSA")
  = kvu_string_icmp toupper_C (str "alsa") (str "ALSA")
  ∧ kvu_string_icmp toupper_C
      (kvu_convert_to_lowercase tolower_C (str "Null Device")) (str "Null Device")
    = true.
Proof.
  split.
  - apply (proj1 (kvu_string_icmp_spec toupper_C tolower_C) 1 2 (str "alsa")).
  - apply (proj2 (kvu_string_icmp_spec toupper_C tolower_C)
             toupper_tolower_C tolower_C_space).
Defined.

(** *** The arguments of an option *)

Lemma stripped_not_nil a : a ≠ [] → stripped a ≠ [].
Proof.
  destruct a as [|c a]; [done|]. intros _. rewrite stripped_cons.
  destruct (stripped a) as [|c2 r] eqn:E; [done|].
  by destruct (Ascii.eqb c backslash && Ascii.eqb c2 comma).
Qed.

Lemma stripped_no_backslash_comma a : ¬ has_backslash_comma (stripped a).
Proof.
  induction a as [|c a IH].
  - intros (p & q & H). by destruct p.
  - rewrite stripped_cons. destruct (stripped a) as [|c2 r] eqn:E.
    + intros (p & q & H). destruct p as [|? [|]]; done.
    + destruct (Ascii.eqb c backslash && Ascii.eqb c2 comma) eqn:Hc; [done|].
      intros (p & q & H). destruct p as [|c' p].
      * injection H as -> ->. by rewrite !Ascii.eqb_refl in Hc.
      * injection H as -> H. apply IH. by exists p, q.
Qed.

(** What the loop of [kvu_get_arguments] adds to the result. *)
Lemma get_arguments_loop_arguments fuel : ∀ pre s acc res,
  get_arguments_loop fuel (pre ++ s) (length pre) acc = Some res →
  ∃ new, res = acc ++ new
         ∧ Forall (λ t, t ≠ [] ∧ ¬ has_backslash_comma t) new
         ∧ length new ≤ length s.
Proof.
  induction fuel as [|fuel IH]; intros pre s acc res Hrun; [done|].
  destruct s as [|c s'] eqn:Es.
  { cbn [get_arguments_loop] in Hrun. rewrite app_nil_r, Nat.eqb_refl in Hrun.
    injection Hrun as <-. exists []. by rewrite app_nil_r. }
  rewrite <-Es in *. assert (Hs : s ≠ []) by (by rewrite Es).
  rewrite get_arguments_loop_step in Hrun by done.
  set (k := next_instance_offset comma (last pre) s) in *.
  assert (Hk : k ≤ length s) by apply next_instance_offset_le.
  set (acc' := if 0 <? length (take k s) then acc ++ [stripped (take k s)]
               else acc) in *.
  assert (∃ new, acc' = acc ++ new
                 ∧ Forall (λ t, t ≠ [] ∧ ¬ has_backslash_comma t) new
                 ∧ length new ≤ 1)
    as (new1 & Hacc & Hnew1 & Hlen1).
  { unfold acc'. destruct (Nat.ltb_spec 0 (length (take k s))) as [Hlt|Hge].
    - exists [stripped (take k s)]. split; [done|]. split.
      + apply Forall_singleton. split; [|apply stripped_no_backslash_comma].
        apply stripped_not_nil. intros E0. rewrite E0 in Hlt. cbn in Hlt. lia.
      + done.
    - exists []. rewrite app_nil_r. split_and!; [done..|cbn; lia]. }
  destruct (Nat.eqb_spec k (length s)) as [E|E].
  - injection Hrun as <-. exists new1. split_and!; [done..|].
    destruct s; [done|]. cbn. lia.
  - apply IH in Hrun as (new2 & -> & Hnew2 & Hlen2).
    exists (new1 ++ new2). rewrite Hacc, <-app_assoc. split; [done|].
    split; [by apply Forall_app|].
    rewrite length_app, length_drop in *. lia.
Qed.

Lemma kvu_get_arguments_inv argu L :
  kvu_get_arguments argu = Some L →
  Forall (λ t, t ≠ [] ∧ ¬ has_backslash_comma t) L ∧ length L ≤ length argu.
Proof.
  intros HL. unfold kvu_get_arguments in HL.
  assert (∀ b : nat, b ≤ length argu →
            get_arguments_loop (S (length argu)) argu b [] = Some L →
            Forall (λ t, t ≠ [] ∧ ¬ has_backslash_comma t) L
            ∧ length L ≤ length argu) as Hloop.
  { intros b Hb Hrun.
    assert (get_arguments_loop (S (length argu)) (take b argu ++ drop b argu)
              (length (take b argu)) [] = Some L) as Hrun'.
    { rewrite take_drop, length_take. by replace (b `min` length argu) with b by lia. }
    apply get_arguments_loop_arguments in Hrun' as (new & -> & Hnew & Hlen).
    split; [done|]. rewrite length_drop in Hlen. cbn. lia. }
  destruct (Nat.eqb_spec (std_find argu 0 colon) (length argu)) as [E|E].
  - destruct (0 <? length argu).
    + apply (Hloop 0); [lia|done].
    + injection HL as <-. split; [done|]. cbn. lia.
  - apply (Hloop (S (std_find argu 0 colon))); [|done].
    rewrite std_find_0 in *. pose proof (find_offset_le colon argu). lia.
Qed.

(** X9.  [kvu_get_arguments] returns on every string, and no argument
    it returns is empty or holds a backslash followed by a comma; there
    are at most as many arguments as characters. *)
Theorem kvu_get_arguments_arguments argu :
  ∃ L, kvu_get_arguments argu = Some L
       ∧ Forall (λ t, t ≠ [] ∧ ¬ has_backslash_comma t) L
       ∧ length L ≤ length argu.
Proof.
  destruct (kvu_get_arguments_total argu) as [L HL]. exists L.
  split; [exact HL|]. by apply kvu_get_arguments_inv.
Qed.

Lemma int_of_size_small (n : nat) :
  (Z.of_nat n < 2 ^ 31)%Z → int_of_size n = Z.of_nat n.
Proof.
  intros H. unfold int_of_size.
  rewrite Z.mod_small by lia. lia.
Qed.

(** X10.  For a string shorter than 2^31 characters,
    [kvu_get_number_of_arguments] is the number [count] of arguments of
    [kvu_get_arguments]; [kvu_get_argument_number] returns the argument
    at [number - 1], which is not empty, for [number] from 1 to [count],
    the empty string for a [number] above [count], and reads outside the
    vector for a [number] below 1. *)
Theorem kvu_get_argument_number_spec arg :
  (Z.of_nat (length arg) < 2 ^ 31)%Z →
  ∃ L, kvu_get_arguments arg = Some L
    ∧ kvu_get_number_of_arguments arg = Some (Z.of_nat (length L))
    ∧ (∀ number, (1 ≤ number ≤ Z.of_nat (length L))%Z →
         ∃ t, kvu_get_argument_number number arg = Some t
              ∧ L !! Z.to_nat (number - 1) = Some t ∧ t ≠ [])
    ∧ (∀ number, (Z.of_nat (length L) < number)%Z →
         kvu_get_argument_number number arg = Some [])
    ∧ (∀ number, (number < 1)%Z →
         kvu_get_argument_number number arg = None).
Proof.
  intros Hlen. destruct (kvu_get_arguments_total arg) as [L HL].
  destruct (kvu_get_arguments_inv _ _ HL) as [HP HLlen].
  assert (int_of_size (length L) = Z.of_nat (length L)) as Hint
    by (apply int_of_size_small; lia).
  exists L. unfold kvu_get_number_of_arguments, kvu_get_argument_number.
  rewrite HL. cbn [mbind option_bind]. rewrite Hint. split_and!; [done..| | |].
  - intros number Hn.
    destruct (Z.leb_spec number (Z.of_nat (length L))); [|lia].
    destruct (Z.leb_spec 1 number); [|lia].
    destruct (lookup_lt_is_Some_2 L (Z.to_nat (number - 1))) as [t Ht]; [lia|].
    exists t. split_and!; [done..|].
    rewrite Forall_forall in HP. apply (HP t). by eapply list_elem_of_lookup_2.
  - intros number Hn. by destruct (Z.leb_spec number (Z.of_nat (length L))); [lia|].
  - intros number Hn.
    destruct (Z.leb_spec number (Z.of_nat (length L))); [|lia].
    by destruct (Z.leb_spec 1 number); [lia|].
Qed.

Lemma kvu_get_argument_number_spec_witness :
  kvu_get_argument_number 2 (str "-f:s16_le,2,44100") = Some (str "2")
  ∧ kvu_get_argument_number 4 (str "-f:s16_le,2,44100") = Some []
  ∧ kvu_get_argument_number 0 (str "-f:s16_le,2,44100") = None.
Proof.
  destruct (kvu_get_argument_number_spec (str "-f:s16_le,2,44100"))
    as (L & HL & _ & Hin & Hout & Hlow); [vm_compute; reflexivity|].
  vm_compute in HL. injection HL as <-.
  split_and!.
  - destruct (Hin 2%Z) as (t & -> & Ht & _); [cbn; lia|].
    vm_compute in Ht. by injection Ht as <-.
  - apply Hout. cbn. lia.
  - apply Hlow. lia.
Defined.

End kvu_strings.

(** ** [kvu_utils.cpp]: the prefix of an option *)

Section kvu_prefix.
Import kvu.
Local Open Scope nat_scope.

Implicit Types (argu q p r : cstring).

(** X11.  [kvu_get_argument_prefix] outside the form [-prefix:args]:
    without a minus sign, and with the first minus sign as the last
    character, it returns the empty string; without a colon it returns
    all that follows the first minus sign; and with the first colon
    before the first minus sign, which is not the last character, the
    string is built from a range that ends before it starts. *)
Theorem kvu_get_argument_prefix_edges argu :
  (minus ∉ argu → kvu_get_argument_prefix argu = Some [])
  ∧ (∀ q, argu = q ++ [minus] → minus ∉ q →
       kvu_get_argument_prefix argu = Some [])
  ∧ (∀ q p, argu = q ++ minus :: p → minus ∉ q → colon ∉ argu →
       kvu_get_argument_prefix argu = Some p)
  ∧ (∀ q p r, argu = q ++ colon :: p ++ minus :: r →
       colon ∉ q → minus ∉ q → minus ∉ p → r ≠ [] →
       kvu_get_argument_prefix argu = None).
Proof.
  unfold kvu_get_argument_prefix. rewrite !std_find_0. split_and!.
  - intros Hm. rewrite (find_offset_absent minus) by done.
    by rewrite Nat.eqb_refl.
  - intros q -> Hq. rewrite (find_offset_first minus) by done.
    rewrite length_app. cbn [length].
    destruct (Nat.eqb_spec (length q) (length q + 1)); [lia|].
    destruct (Nat.eqb_spec (S (length q)) (length q + 1)); [done|lia].
  - intros q p -> Hq Hc. rewrite (find_offset_first minus) by done.
    rewrite (find_offset_absent colon) by done.
    rewrite length_app. cbn [length].
    destruct (Nat.eqb_spec (length q) (length q + S (length p))); [lia|].
    destruct (Nat.eqb_spec (S (length q)) (length q + S (length p)))
      as [E|E].
    { destruct p; [done|]. cbn [length] in E. lia. }
    destruct (Nat.ltb_spec (length q + S (length p)) (S (length q))); [lia|].
    f_equal. unfold substr.
    replace (q ++ minus :: p) with ((q ++ [minus]) ++ p)
      by (by rewrite <-app_assoc).
    rewrite drop_app_length' by (rewrite length_app; cbn; lia).
    apply take_ge. lia.
  - intros q p r -> Hcq Hmq Hmp Hr.
    rewrite (find_offset_first colon) by done.
    replace (q ++ colon :: p ++ minus :: r)
      with ((q ++ colon :: p) ++ minus :: r) by (by rewrite <-app_assoc).
    rewrite (find_offset_first minus).
    2:{ rewrite not_elem_of_app, not_elem_of_cons. done. }
    repeat (rewrite ?length_app; cbn [length]).
    destruct r as [|c r]; [done|]. cbn [length].
    repeat match goal with
           | |- context [?a =? ?b] => destruct (Nat.eqb_spec a b); [lia|]
           end.
    match goal with
    | |- context [?a <? ?b] => destruct (Nat.ltb_spec a b); [done|lia]
    end.
Qed.

Lemma kvu_get_argument_prefix_edges_witness :
  kvu_get_argument_prefix (str "i:-x") = None
  ∧ kvu_get_argument_prefix (str "-ei") = Some (str "ei")
  ∧ kvu_get_argument_prefix (str "file.wav") = Some [].
Proof.
  split_and!.
  - apply (proj2 (proj2 (proj2 (kvu_get_argument_prefix_edges (str "i:-x"))))
             (str "i") [] (str "x")); try reflexivity; try discriminate;
      vm_compute; intros H;
      repeat (apply elem_of_cons in H as [H|H]; [discriminate|]);
      by apply elem_of_nil in H.
  - apply (proj1 (proj2 (proj2 (kvu_get_argument_prefix_edges (str "-ei"))))
             [] (str "ei")); try reflexivity;
      vm_compute; intros H;
      repeat (apply elem_of_cons in H as [H|H]; [discriminate|]);
      by apply elem_of_nil in H.
  - apply (proj1 (kvu_get_argument_prefix_edges (str "file.wav"))).
    vm_compute; intros H;
      repeat (apply elem_of_cons in H as [H|H]; [discriminate|]);
      by apply elem_of_nil in H.
Defined.

End kvu_prefix.

(** ** The proxy server: one pass of the i/o thread *)

Section io_thread_pass.
Import proxy_server.
Context {client SAMPLE_BUFFER : Type}.
Context `{!AUDIO_IO client SAMPLE_BUFFER, !PROXY_BUFFER_methods SAMPLE_BUFFER}.

Local Abbreviation BUFFER := (AUDIO_IO_PROXY_BUFFER SAMPLE_BUFFER).
Local Abbreviation SERVER := (AUDIO_IO_PROXY_SERVER SAMPLE_BUFFER).

Implicit Types (h : gmap loc client) (ps : SERVER) (b : BUFFER)
  (bs : list BUFFER) (c : option loc) (l : loc).

Local Open Scope Z_scope.

Lemma set_buffers_id ps : set_buffers ps (buffers_rep ps) = ps.
Proof. by destruct ps. Qed.

Lemma set_buffers_twice ps bs1 bs2 :
  set_buffers (set_buffers ps bs1) bs2 = set_buffers ps bs2.
Proof. done. Qed.

(** The loop body at index [p]. *)
Lemma io_thread_client_spec (p : nat) h ps processed c b :
  clients_rep ps !! p = Some c → buffers_rep ps !! p = Some b →
  (∀ l, c = Some l → is_Some (h !! l)) →
  is_Some (sbuf_at b (writeptr_rep b)) →
  is_Some (sbuf_at b (readptr_rep b)) →
  ∃ h1 b1,
    io_thread_client p (h, ps, processed)
    = Some (h1, set_buffers ps (<[p := b1]> (buffers_rep ps)),
            processed + (if served c b then 1 else 0))
    ∧ slot_outcome h h1 c b (Some b1)
    ∧ (∀ l', c ≠ Some l' → h1 !! l' = h !! l').
Proof.
  intros Hc Hb Hh [sw Hsw] [sr Hsr].
  assert (Hskip : io_thread_client p (h, ps, processed) = Some (h, ps, processed)
            → served c b = false
            → ∃ h1 b1,
                io_thread_client p (h, ps, processed)
                = Some (h1, set_buffers ps (<[p := b1]> (buffers_rep ps)),
                        processed + (if served c b then 1 else 0))
                ∧ slot_outcome h h1 c b (Some b1)
                ∧ (∀ l', c ≠ Some l' → h1 !! l' = h !! l')).
  { intros -> Hs. exists h, b. rewrite Hs, Z.add_0_r.
    rewrite list_insert_id by done. rewrite set_buffers_id.
    split; [done|]. split; [|done].
    unfold slot_outcome. rewrite Hs. by destruct c. }
  unfold io_thread_client in *. rewrite Hc in *. cbn [mbind option_bind] in *.
  destruct c as [l|]; [|by apply Hskip].
  rewrite Hb in *. cbn [mbind option_bind] in *.
  destruct (Hh l eq_refl) as [cl Hcl].
  unfold served in *.
  destruct (finished_rep b =? 0) eqn:Hfin; cbn [negb andb] in *;
    [|by apply Hskip].
  destruct (decide (io_mode_rep b = io_read)) as [Hm|Hm].
  - destruct (0 <? write_space b) eqn:Hsp; [|by apply Hskip].
    rewrite Hcl, Hsw. cbn [mbind option_bind].
    destruct (read_buffer cl sw) as [cl' sb] eqn:Hrd.
    eexists _, _. split; [done|]. split.
    + unfold slot_outcome, served. rewrite Hfin, Hsp. cbn [andb].
      destruct (decide (io_mode_rep b = io_read)); [|done].
      exists cl, sw, cl', sb. by rewrite lookup_insert_eq.
    + intros l' Hl'. apply lookup_insert_ne. congruence.
  - destruct (0 <? read_space b) eqn:Hsp; [|by apply Hskip].
    rewrite Hcl, Hsr. cbn [mbind option_bind].
    eexists _, _. split; [done|]. split.
    + unfold slot_outcome, served. rewrite Hfin, Hsp. cbn [andb].
      destruct (decide (io_mode_rep b = io_read)); [done|].
      exists cl, sr, (write_buffer cl sr). by rewrite lookup_insert_eq.
    + intros l' Hl'. apply lookup_insert_ne. congruence.
Qed.

(** The outcome at a slot reads the store before the pass only at the
    slot's own client, and the store after it likewise. *)
Lemma slot_outcome_transfer h1 h2 h1' h2' c b ob :
  (∀ l, c = Some l → h1 !! l = h2 !! l) →
  (∀ l, c = Some l → h1' !! l = h2' !! l) →
  slot_outcome h1 h1' c b ob → slot_outcome h2 h2' c b ob.
Proof.
  intros H1 H2. unfold slot_outcome. destruct c as [l|]; [|done].
  rewrite (H1 l eq_refl), (H2 l eq_refl). done.
Qed.

Lemma served_count_drop (p : nat) (cs : list (option loc)) bs c b :
  cs !! p = Some c → bs !! p = Some b →
  served_count (drop p cs) (drop p bs)
  = (if served c b then 1 else 0) + served_count (drop (S p) cs) (drop (S p) bs).
Proof.
  intros Hc Hb. by rewrite (drop_S cs c p Hc), (drop_S bs b p Hb).
Qed.

(** The [for] loop from index [p] on. *)
Lemma io_thread_clients_spec (n : nat) : ∀ (p : nat) h ps processed,
  (p + n)%nat = length (clients_rep ps) →
  length (buffers_rep ps) = length (clients_rep ps) →
  (∀ (i : nat) l, (p ≤ i)%nat → clients_rep ps !! i = Some (Some l) → is_Some (h !! l)) →
  (∀ (p1 p2 : nat) l, clients_rep ps !! p1 = Some (Some l) →
                clients_rep ps !! p2 = Some (Some l) → p1 = p2) →
  (∀ (i : nat) b, (p ≤ i)%nat → buffers_rep ps !! i = Some b →
            is_Some (sbuf_at b (writeptr_rep b))
            ∧ is_Some (sbuf_at b (readptr_rep b))) →
  ∃ h' bs',
    io_thread_clients n p (h, ps, processed)
    = Some (h', set_buffers ps bs',
            processed + served_count (drop p (clients_rep ps))
                                     (drop p (buffers_rep ps)))
    ∧ length bs' = length (buffers_rep ps)
    ∧ (∀ i : nat, (i < p)%nat → bs' !! i = buffers_rep ps !! i)
    ∧ (∀ l, (∀ i : nat, (p ≤ i)%nat → clients_rep ps !! i ≠ Some (Some l)) →
            h' !! l = h !! l)
    ∧ (∀ (i : nat) c b, (p ≤ i)%nat → clients_rep ps !! i = Some c →
          buffers_rep ps !! i = Some b → slot_outcome h h' c b (bs' !! i)).
Proof.
  induction n as [|n IH]; intros p h ps processed Hpn Hlen Hh Hnd Hsl.
  - exists h, (buffers_rep ps). cbn [io_thread_clients].
    rewrite set_buffers_id, !drop_ge by lia. cbn [served_count].
    rewrite Z.add_0_r. repeat split; [done..|].
    intros i c b Hi Hc. apply lookup_lt_Some in Hc. lia.
  - destruct (lookup_lt_is_Some_2 (clients_rep ps) p) as [c Hc]; [lia|].
    destruct (lookup_lt_is_Some_2 (buffers_rep ps) p) as [b Hb]; [lia|].
    destruct (io_thread_client_spec p h ps processed c b Hc Hb)
      as (h1 & b1 & Hstep & Hout & Hother).
    { intros l ->. by apply (Hh p). }
    { by apply (Hsl p b). }
    { by apply (Hsl p b). }
    cbn [io_thread_clients]. rewrite Hstep. cbn [mbind option_bind].
    set (bs1 := <[p := b1]> (buffers_rep ps)).
    destruct (IH (S p) h1 (set_buffers ps bs1)
                (processed + (if served c b then 1 else 0)))
      as (h' & bs' & Hloop & Hlen' & Hbefore & Hstore & Hslots).
    { simpl. lia. }
    { simpl. unfold bs1. by rewrite length_insert. }
    { simpl. intros i l Hi Hcl.
      assert (c ≠ Some l) as Hne.
      { intros ->. assert (p = i) by (by apply (Hnd p i l)). lia. }
      rewrite (Hother l Hne). apply (Hh i); [lia | done]. }
    { done. }
    { simpl. intros i b0 Hi Hb0. unfold bs1 in Hb0.
      rewrite list_lookup_insert_ne in Hb0 by lia. apply (Hsl i); [lia | done]. }
    simpl in Hloop, Hlen', Hbefore, Hstore, Hslots.
    exists h', bs'. rewrite Hloop.
    rewrite (served_count_drop p _ _ c b Hc Hb).
    split; [|split; [|split; [|split]]].
    + f_equal. f_equal.
      unfold bs1. rewrite drop_insert_lt by lia. lia.
    + rewrite Hlen'. unfold bs1. by rewrite length_insert.
    + intros i Hi. rewrite Hbefore by lia. unfold bs1.
      apply list_lookup_insert_ne. lia.
    + intros l Hl. rewrite Hstore.
      * apply Hother. intros ->. by apply (Hl p).
      * intros i Hi. apply Hl. lia.
    + intros i c0 b0 Hi Hc0 Hb0.
      destruct (decide (i = p)) as [->|Hip].
      * assert (c0 = c) as -> by congruence.
        assert (b0 = b) as -> by congruence.
        rewrite Hbefore by lia. unfold bs1.
        rewrite list_lookup_insert_eq by (apply lookup_lt_Some in Hb; lia).
        eapply slot_outcome_transfer; [| |exact Hout]; [done|].
        intros l ->. symmetry. apply Hstore.
        intros i Hi' Hcl. assert (p = i) by (by apply (Hnd p i l)). lia.
      * eapply slot_outcome_transfer; [| |apply (Hslots i c0 b0)].
        -- intros l ->. apply Hother. intros ->.
           assert (p = i) by (by apply (Hnd p i l)). lia.
        -- done.
        -- lia.
        -- done.
        -- unfold bs1. rewrite list_lookup_insert_ne by lia. done.
Qed.




End io_thread_pass.


(** ** The proxy server: registration and stop *)

Section registry.
Import proxy_server.
Context {client SAMPLE_BUFFER : Type}.
Context `{!AUDIO_IO client SAMPLE_BUFFER, !PROXY_BUFFER_methods SAMPLE_BUFFER}.
Context (channel_count_default : Z).
Context (new_AUDIO_IO_PROXY_BUFFER :
           Z → Z → Z → Z → AUDIO_IO_PROXY_BUFFER SAMPLE_BUFFER).

Local Abbreviation BUFFER := (AUDIO_IO_PROXY_BUFFER SAMPLE_BUFFER).
Local Abbreviation SERVER := (AUDIO_IO_PROXY_SERVER SAMPLE_BUFFER).
Local Abbreviation REGISTRY := (AUDIO_IO_PROXY_SERVER_registry SAMPLE_BUFFER).
Local Abbreviation register :=
  (register_client channel_count_default new_AUDIO_IO_PROXY_BUFFER).

Implicit Types (r : REGISTRY) (a : loc) (i : Z).

Local Open Scope Z_scope.

Lemma int_of_size_index (n : nat) :
  Z.of_nat n < 2 ^ 31 → int_of_size n = Z.of_nat n.
Proof.
  intros Hn. unfold int_of_size.
  rewrite Z.mod_small by lia. lia.
Qed.

Lemma vector_at_lookup {A} (v : list A) (n : nat) :
  vector_at v (Z.of_nat n) = v !! n.
Proof.
  unfold vector_at. destruct (Z.leb_spec 0 (Z.of_nat n)); [|lia].
  by rewrite Nat2Z.id.
Qed.

Lemma vector_at_is_Some {A} (v : list A) i :
  0 ≤ i < Z.of_nat (length v) → is_Some (vector_at v i).
Proof.
  intros Hi. unfold vector_at. destruct (Z.leb_spec 0 i); [|lia].
  apply lookup_lt_is_Some. lia.
Qed.

Lemma vector_at_app_l {A} (v w : list A) i :
  0 ≤ i < Z.of_nat (length v) → vector_at (v ++ w) i = vector_at v i.
Proof.
  intros Hi. unfold vector_at. destruct (Z.leb_spec 0 i); [|lia].
  apply lookup_app_l. lia.
Qed.

(** X12.  Registering an object with a server whose vectors are parallel
    keeps them parallel, adds one ring built from the current buffer
    defaults, and [get_client_buffer] then returns that ring for the
    object, whether or not it had been registered before; the answers
    for every other object are as they were. *)
Theorem register_client_get_client_buffer r a :
  registry_ok r →
  Z.of_nat (length (clients_rep (server_rep r))) + 1 < 2 ^ 31 →
  registry_ok (register r a)
  ∧ clients_rep (server_rep (register r a))
    = clients_rep (server_rep r) ++ [Some a]
  ∧ get_client_buffer (register r a) a
    = Some (Some (new_AUDIO_IO_PROXY_BUFFER (buffercount_rep r)
                    (buffersize_rep r) channel_count_default
                    (samplerate_rep r)))
  ∧ ∀ a', a' ≠ a →
      get_client_buffer (register r a) a' = get_client_buffer r a'.
Proof.
  intros (Hlen & Hsize & Hmap) Hroom.
  set (n := length (clients_rep (server_rep r))) in *.
  assert (int_of_size (n + 1 - 1) = Z.of_nat n) as Hidx.
  { replace (n + 1 - 1)%nat with n by lia. apply int_of_size_index. lia. }
  split_and!.
  - unfold registry_ok, register_client. cbn. rewrite !length_app. cbn [length].
    fold n. split_and!; [lia|lia|].
    intros a' i. rewrite Hidx. intros [[-> <-]|[_ Hi]]%lookup_insert_Some.
    + lia.
    + apply Hmap in Hi. lia.
  - done.
  - unfold get_client_buffer, register_client. cbn.
    rewrite length_app. cbn [length]. fold n. rewrite Hidx.
    rewrite lookup_insert_eq. rewrite !vector_at_lookup.
    assert (∀ {A} (v : list A) x, length v = n → (v ++ [x]) !! n = Some x)
      as Hlast.
    { intros A v x <-. rewrite lookup_app_r by lia.
      by rewrite Nat.sub_diag. }
    rewrite Hlast by done. cbn. by rewrite Hlast.
  - intros a' Ha'. unfold get_client_buffer, register_client. cbn.
    rewrite lookup_insert_ne by done.
    destruct (client_map_rep r !! a') as [i|] eqn:Ei; [|done].
    specialize (Hmap _ _ Ei). fold n in Hmap.
    rewrite !vector_at_app_l by (rewrite ?Hlen; fold n; lia). done.
Qed.

(** X13.  Unregistering a registered object nulls its client slot and
    frees nothing: the rings and the map are as they were, and
    [get_client_buffer] then returns null for it.  An object mapped to
    another slot keeps its answer. *)
Theorem unregister_client_spec r a i :
  registry_ok r → client_map_rep r !! a = Some i →
  ∃ r', unregister_client r a = Some r'
    ∧ registry_ok r'
    ∧ clients_rep (server_rep r')
      = <[Z.to_nat i := None]> (clients_rep (server_rep r))
    ∧ buffers_rep (server_rep r') = buffers_rep (server_rep r)
    ∧ client_map_rep r' = client_map_rep r
    ∧ get_client_buffer r' a = Some None
    ∧ ∀ a', client_map_rep r !! a' ≠ Some i →
        get_client_buffer r' a' = get_client_buffer r a'.
Proof.
  intros (Hlen & Hsize & Hmap) Ha. pose proof (Hmap _ _ Ha) as Hi.
  unfold unregister_client, client_map_index. rewrite Ha.
  destruct (vector_at_is_Some (clients_rep (server_rep r)) i Hi) as [c Hc].
  rewrite Hc. cbn. eexists. split; [done|]. cbn. split_and!; try done.
  - unfold registry_ok. cbn. rewrite length_insert. done.
  - unfold get_client_buffer. cbn. rewrite Ha. unfold vector_at.
    destruct (Z.leb_spec 0 i); [|lia].
    rewrite list_lookup_insert_eq by lia. done.
  - intros a' Ha'. unfold get_client_buffer. cbn.
    destruct (client_map_rep r !! a') as [j|] eqn:Ej; [|done].
    pose proof (Hmap _ _ Ej) as Hj. unfold vector_at.
    destruct (Z.leb_spec 0 j); [|lia].
    rewrite list_lookup_insert_ne; [done|].
    intros E. apply Ha'. f_equal. lia.
Qed.

(** X14.  Unregistering an object that was never registered is not a
    no-op: the map access creates an entry 0 for it, so the client in
    slot 0 is the one that is unregistered, and the object registered
    there loses its ring; with no client at all the write is outside the
    vector. *)
Theorem unregister_client_unknown r a :
  registry_ok r → client_map_rep r !! a = None →
  match clients_rep (server_rep r) with
  | [] => unregister_client r a = None
  | c :: cs =>
      ∃ r', unregister_client r a = Some r'
        ∧ clients_rep (server_rep r') = None :: cs
        ∧ client_map_rep r' = <[a := 0]> (client_map_rep r)
        ∧ ∀ a0, client_map_rep r !! a0 = Some 0 →
            get_client_buffer r' a0 = Some None
  end.
Proof.
  intros (Hlen & Hsize & Hmap) Ha.
  unfold unregister_client, client_map_index. rewrite Ha.
  destruct (clients_rep (server_rep r)) as [|c cs] eqn:Ecs; [done|].
  cbn. eexists. split; [done|]. cbn. split_and!; try done.
  intros a0 Ha0. unfold get_client_buffer. cbn.
  rewrite lookup_insert_ne by congruence. rewrite Ha0. done.
Qed.

(** X15.  A stop request ends the processing after one more pass: the
    running server makes the pass in full, then clears the request and
    its running flag, and the turn after that is idle, changing nothing
    and leaving the loop only when the exit was requested. *)
Theorem stop_takes_one_pass (h : gmap loc client) r :
  running_rep (server_rep r) ≠ 0 → pass_ready h (server_rep r) →
  ∃ h' ps',
    io_thread_iteration h (server_rep (stop r)) = Some (h', ps', ctl_continue)
    ∧ running_rep ps' = 0 ∧ stop_request_rep ps' = 0
    ∧ clients_rep ps' = clients_rep (server_rep r)
    ∧ full_rep ps'
      = (if served_count (clients_rep (server_rep r))
              (buffers_rep (server_rep r)) =? 0 then 1 else 0)
    ∧ io_thread_iteration h' ps'
      = Some (h', ps',
              if exit_request_rep (server_rep r) =? 1 then ctl_break
              else ctl_continue).
Proof.
  intros Hrun (Hlen & Hlive & Hinj & Hidx).
  set (ps := server_rep (stop r)).
  assert (clients_rep ps = clients_rep (server_rep r)) as Hc by done.
  assert (buffers_rep ps = buffers_rep (server_rep r)) as Hb by done.
  destruct (io_thread_clients_spec (length (clients_rep ps)) 0%nat h ps 0)
    as (h' & bs' & Hpass & _); try done.
  { intros i l _. rewrite Hc. apply Hlive. }
  { intros i b _. rewrite Hb. apply Hidx. }
  unfold io_thread_iteration. fold ps.
  replace (running_rep ps) with (running_rep (server_rep r)) by done.
  destruct (Z.eqb_spec (running_rep (server_rep r)) 0) as [|_]; [done|].
  rewrite Hpass. rewrite !drop_0, Z.add_0_l, Hc, Hb.
  generalize (served_count (clients_rep (server_rep r))
                (buffers_rep (server_rep r))).
  intros sc. cbn.
  destruct (Z.eqb_spec sc 0) as [->|Hn]; cbn.
  all: eexists _, _; split; [reflexivity|]; cbn.
  all: split_and!; try reflexivity.
  all: by destruct (exit_request_rep (server_rep r) =? 1).
Qed.

End registry.

Lemma register_client_get_client_buffer_witness :
  proxy_server.get_client_buffer
    (proxy_server.register_client 2 proxy_server.example_new_buffer
       proxy_server.example_registry 1%positive) 1%positive
  = Some (Some (proxy_server.example_new_buffer 32 1024 2 44100)).
Proof.
  refine (proj1 (proj2 (proj2
    (register_client_get_client_buffer 2 proxy_server.example_new_buffer
       proxy_server.example_registry 1%positive _ _)))).
  - split_and!; [reflexivity|reflexivity|].
    intros a i. vm_compute.
    destruct a as [[]|[]|]; intros E; try discriminate; injection E as <-;
      split; [discriminate|reflexivity|discriminate|reflexivity].
  - reflexivity.
Defined.

Lemma unregister_client_spec_witness :
  ∃ r', proxy_server.unregister_client proxy_server.example_registry 2%positive
        = Some r'
    ∧ proxy_server.get_client_buffer r' 2%positive = Some None.
Proof.
  destruct (unregister_client_spec proxy_server.example_registry 2%positive 2)
    as (r' & Hrun & _ & _ & _ & _ & Hget & _).
  - split_and!; [reflexivity|reflexivity|].
    intros a i. vm_compute.
    destruct a as [[]|[]|]; intros E; try discriminate; injection E as <-;
      split; [discriminate|reflexivity|discriminate|reflexivity].
  - reflexivity.
  - exists r'. split; [exact Hrun|exact Hget].
Defined.

Lemma unregister_client_unknown_witness :
  ∃ r', proxy_server.unregister_client proxy_server.example_registry 9%positive
        = Some r'
    ∧ proxy_server.get_client_buffer r' 1%positive = Some None.
Proof.
  destruct (unregister_client_unknown proxy_server.example_registry 9%positive)
    as (r' & Hrun & _ & _ & Hget).
  - split_and!; [reflexivity|reflexivity|].
    intros a i. vm_compute.
    destruct a as [[]|[]|]; intros E; try discriminate; injection E as <-;
      split; [discriminate|reflexivity|discriminate|reflexivity].
  - reflexivity.
  - exists r'. split; [exact Hrun|]. apply Hget. reflexivity.
Defined.

Lemma stop_takes_one_pass_witness :
  ∃ h' ps',
    proxy_server.io_thread_iteration proxy_server.example_store
      (proxy_server.server_rep (proxy_server.stop proxy_server.example_registry))
    = Some (h', ps', proxy_server.ctl_continue)
    ∧ proxy_server.running_rep ps' = 0%Z.
Proof.
  destruct (stop_takes_one_pass proxy_server.example_store
              proxy_server.example_registry)
    as (h' & ps' & Hrun & Hstop & _).
  - vm_compute. discriminate.
  - repeat split.
    + intros p l. destruct p as [|[|[|p]]]; vm_compute; intros E;
        try discriminate; injection E as <-; eauto.
    + intros p1 p2 l. destruct p1 as [|[|[|p1]]], p2 as [|[|[|p2]]];
        vm_compute; intros E1 E2; congruence.
    + destruct p as [|[|[|p]]]; vm_compute in H; try discriminate;
        injection H as <-; vm_compute; eauto.
    + destruct p as [|[|[|p]]]; vm_compute in H; try discriminate;
        injection H as <-; vm_compute; eauto.
  - exists h', ps'. split; [exact Hrun|exact Hstop].
Defined.

(** ** The chainsetup: selecting the buffering mode *)

Section buffering_mode.
Import chainsetup.
Local Open Scope Z_scope.

Implicit Types (cs : ECA_CHAINSETUP) (rti rto : Z).

Lemma and_then_Some (a b : bool) : and_then (Some a) (Some b) = Some (a && b).
Proof. by destruct a. Qed.

Lemma or_else_Some (a b : bool) : or_else (Some a) (Some b) = Some (a || b).
Proof. by destruct a. Qed.

Lemma has_realtime_objects_counts cs rti rto :
  number_of_realtime_inputs cs = Some rti →
  number_of_realtime_outputs cs = Some rto →
  has_realtime_objects cs = Some ((0 <? rti) || (0 <? rto)).
Proof.
  intros Hi Ho. unfold has_realtime_objects. rewrite Hi, Ho.
  apply or_else_Some.
Qed.

Lemma multitrack_condition_counts cs rti rto :
  number_of_realtime_inputs cs = Some rti →
  number_of_realtime_outputs cs = Some rto →
  multitrack_condition cs
  = Some (if multitrack_mode_override_rep cs then multitrack_mode_rep cs
          else multitrack_topology cs rti rto).
Proof.
  intros Hi Ho. unfold multitrack_condition, multitrack_topology,
    number_of_non_realtime_inputs, number_of_non_realtime_outputs.
  rewrite Hi, Ho. cbn [fmap option_fmap option_map mbind option_bind].
  rewrite !and_then_Some, or_else_Some, and_then_Some. f_equal.
  destruct (multitrack_mode_override_rep cs), (multitrack_mode_rep cs);
    cbn [negb andb orb]; try done.
  all: rewrite ?andb_assoc; done.
Qed.

Lemma one_way_condition_counts cs rti rto :
  number_of_realtime_inputs cs = Some rti →
  number_of_realtime_outputs cs = Some rto →
  one_way_condition cs
  = Some ((number_of_chain_operators cs =? 0) && ((rti =? 0) || (rto =? 0))).
Proof.
  intros Hi Ho. unfold one_way_condition. rewrite Hi, Ho.
  cbn [fmap option_fmap option_map]. by rewrite or_else_Some, and_then_Some.
Qed.


(** Running [select_active_buffering_mode] on counted objects. *)
Ltac run_select cs rti rto Hi Ho :=
  unfold select_active_buffering_mode;
  unfold mbind at 1; unfold M_bind at 1; unfold get at 1; cbn beta iota;
  rewrite (multitrack_condition_counts cs rti rto Hi Ho);
  rewrite (has_realtime_objects_counts cs rti rto Hi Ho);
  rewrite (one_way_condition_counts cs rti rto Hi Ho);
  unfold mbind, M_bind, mret, M_ret, get, modify, lift, when,
    toggle_raised_priority, set_bmode_active.

(** C1.  In the automatic mode, on a chainsetup whose objects can be
    counted, the selection returns, and the active mode is: nonrt
    without realtime objects; else rt in the multitrack mode (as just
    determined); else rt without the privileges for realtime
    scheduling, the raised priority being switched off; else rt without
    chain operators and with no realtime input or no realtime output;
    else rtlowlatency.  The active parameters are those of the mode. *)
Theorem select_active_buffering_mode_auto cs rti rto :
  buffering_mode_rep cs = cs_bmode_auto →
  number_of_realtime_inputs cs = Some rti →
  number_of_realtime_outputs cs = Some rto →
  ∃ cs',
    select_active_buffering_mode cs = Ok tt cs'
    ∧ multitrack_condition cs = Some (multitrack_mode_rep cs')
    ∧ active_buffering_mode_rep cs'
      = (if negb ((0 <? rti) || (0 <? rto)) then cs_bmode_nonrt
         else if multitrack_mode_rep cs' then cs_bmode_rt
         else if negb (rtcaps_rep cs) then cs_bmode_rt
         else if (number_of_chain_operators cs =? 0)
                 && ((rti =? 0) || (rto =? 0)) then cs_bmode_rt
         else cs_bmode_rtlowlatency)
    ∧ ((0 <? rti) || (0 <? rto) = true →
       multitrack_mode_rep cs' = false → rtcaps_rep cs = false →
       raised_priority cs' = false)
    ∧ bmode_active_rep (impl_repp cs')
      = bmode_params cs (active_buffering_mode_rep cs').
Proof.
  intros Hb Hi Ho.
  run_select cs rti rto Hi Ho. rewrite Hb.
  cbn [bool_decide decide_rel Buffering_mode_t_eq_dec].
  destruct (if multitrack_mode_override_rep cs then multitrack_mode_rep cs
            else multitrack_topology cs rti rto);
    destruct ((0 <? rti) || (0 <? rto));
    destruct (rtcaps_rep cs) eqn:Hrt;
    destruct ((number_of_chain_operators cs =? 0) && ((rti =? 0) || (rto =? 0)));
    cbn; (eexists; split; [reflexivity|]); cbn; rewrite ?Hrt;
    repeat split; try done.
Qed.

Lemma select_active_buffering_mode_auto_witness :
  ∃ cs', select_active_buffering_mode (scenario_B true) = Ok tt cs'
         ∧ active_buffering_mode_rep cs' = cs_bmode_rt
         ∧ multitrack_mode_rep cs' = true.
Proof.
  destruct (select_active_buffering_mode_auto (scenario_B true) 1 1)
    as (cs' & Hrun & Hmt & Hmode & _); [reflexivity..|].
  exists cs'. split; [exact Hrun|].
  assert (Hm : multitrack_mode_rep cs' = true).
  { change (multitrack_condition (scenario_B true)) with (Some true) in Hmt.
    by injection Hmt as <-. }
  split; [|exact Hm]. rewrite Hmode, Hm. reflexivity.
Defined.

(** C2, as stated, fails: with the override set and the multitrack mode
    false (the user has switched it off), the mode stays false on the
    topology of a multitrack setup. *)
Lemma multitrack_mode_override_counterexample :
  multitrack_mode_override_rep scenario_B_multitrack_off = true
  ∧ number_of_realtime_inputs scenario_B_multitrack_off = Some 1
  ∧ number_of_realtime_outputs scenario_B_multitrack_off = Some 1
  ∧ number_of_non_realtime_inputs scenario_B_multitrack_off = Some 1
  ∧ number_of_non_realtime_outputs scenario_B_multitrack_off = Some 1
  ∧ length (chains scenario_B_multitrack_off) = 2%nat
  ∧ ∃ cs', select_active_buffering_mode scenario_B_multitrack_off = Ok tt cs'
           ∧ multitrack_mode_rep cs' = false.
Proof.
  repeat split; try reflexivity.
  eexists. split; [vm_compute; reflexivity | reflexivity].
Qed.

(** C2, amended.  With the override set, the multitrack mode is left as
    it stands, true or false; without it, the mode is enabled exactly on
    the topology: at least one realtime input, realtime output,
    non-realtime input and non-realtime output, and more than one
    chain. *)
Theorem multitrack_mode_selection cs rti rto :
  number_of_realtime_inputs cs = Some rti →
  number_of_realtime_outputs cs = Some rto →
  ∃ nrti nrto cs',
    number_of_non_realtime_inputs cs = Some nrti
    ∧ number_of_non_realtime_outputs cs = Some nrto
    ∧ select_active_buffering_mode cs = Ok tt cs'
    ∧ multitrack_mode_rep cs'
      = if multitrack_mode_override_rep cs then multitrack_mode_rep cs
        else (0 <? rti) && (0 <? rto) && (0 <? nrti) && (0 <? nrto)
             && (1 <? length (chains cs))%nat.
Proof.
  intros Hi Ho.
  exists (to_int (Z.of_nat (length (inputs cs)) - rti)),
         (to_int (Z.of_nat (length (outputs cs)) - rto)).
  unfold number_of_non_realtime_inputs, number_of_non_realtime_outputs.
  rewrite Hi, Ho. cbn [mbind option_bind].
  fold (multitrack_topology cs rti rto).
  run_select cs rti rto Hi Ho.
  destruct (buffering_mode_rep cs);
    cbn [bool_decide decide_rel Buffering_mode_t_eq_dec];
    destruct (if multitrack_mode_override_rep cs then multitrack_mode_rep cs
              else multitrack_topology cs rti rto) eqn:Hmt;
    destruct ((0 <? rti) || (0 <? rto));
    destruct (rtcaps_rep cs);
    destruct ((number_of_chain_operators cs =? 0) && ((rti =? 0) || (rto =? 0)));
    cbn; (eexists; split; [reflexivity|]); (split; [reflexivity|]);
    (split; [reflexivity|]); cbn; done.
Qed.

Lemma multitrack_mode_selection_witness :
  ∃ cs', select_active_buffering_mode (scenario_B true) = Ok tt cs'
         ∧ multitrack_mode_rep cs' = true.
Proof.
  destruct (multitrack_mode_selection (scenario_B true) 1 1)
    as (nrti & nrto & cs' & Hi & Ho & Hrun & Hmt); [reflexivity..|].
  exists cs'. split; [exact Hrun|].
  vm_compute in Hi, Ho. injection Hi as <-. injection Ho as <-.
  rewrite Hmt. reflexivity.
Defined.

End buffering_mode.

(** ** The chainsetup: running the model *)

Section running.
Import chainsetup.
Local Open Scope Z_scope.

Implicit Types (cs : ECA_CHAINSETUP) (p l f d : loc) (o : AUDIO_IO) (s : side).

Lemma run_bind {A B} (m : M A) (f : A → M B) cs :
  (m ≫= f) cs
  = match m cs with
    | Ok a cs' => f a cs'
    | Throw e cs' => Throw e cs'
    | Undefined => Undefined
    end.
Proof. done. Qed.

Lemma run_bind_Ok {A B} (m : M A) (f : A → M B) cs a cs1 :
  m cs = Ok a cs1 → (m ≫= f) cs = f a cs1.
Proof. intros H. by rewrite run_bind, H. Qed.

Lemma run_get cs : get cs = Ok cs cs.
Proof. done. Qed.

Lemma run_modify (g : ECA_CHAINSETUP → ECA_CHAINSETUP) cs :
  modify g cs = Ok tt (g cs).
Proof. done. Qed.

Lemma run_ret {A} (a : A) cs : (mret a : M A) cs = Ok a cs.
Proof. done. Qed.

Lemma run_deref p o cs : store cs !! p = Some o → deref p cs = Ok o cs.
Proof. intros H. unfold deref. rewrite run_bind, run_get. by rewrite H. Qed.

Lemma run_assign p o cs :
  assign p o cs = Ok tt (set_store (<[p := o]> (store cs)) cs).
Proof. done. Qed.

Lemma run_update p (g : AUDIO_IO → AUDIO_IO) o cs :
  store cs !! p = Some o →
  update p g cs = Ok tt (set_store (<[p := g o]> (store cs)) cs).
Proof. intros H. unfold update. by rewrite (run_bind_Ok _ _ _ _ _ (run_deref _ _ _ H)). Qed.

Lemma run_new_object o cs :
  new_object o cs
  = Ok (fresh (dom (store cs)))
       (set_store (<[fresh (dom (store cs)) := o]> (store cs)) cs).
Proof. done. Qed.

Lemma run_delete_object p o cs :
  store cs !! p = Some o →
  delete_object p cs = Ok tt (set_store (delete p (store cs)) cs).
Proof.
  intros H. unfold delete_object.
  by rewrite (run_bind_Ok _ _ _ _ _ (run_deref _ _ _ H)).
Qed.

Lemma run_at_index {A} (v : list A) (n : nat) x cs :
  v !! n = Some x → at_index v n cs = Ok x cs.
Proof. intros H. unfold at_index. by rewrite H. Qed.

Lemma run_store_index {A} (v : list A) (n : nat) x cs :
  (n < length v)%nat → store_index v n x cs = Ok (<[n := x]> v) cs.
Proof. intros H. unfold store_index. by rewrite decide_True. Qed.

Lemma fresh_store_None cs : store cs !! fresh (dom (store cs)) = None.
Proof. apply not_elem_of_dom, is_fresh. Qed.

Lemma direct_set_store s h cs : direct s (set_store h cs) = direct s cs.
Proof. by destruct s. Qed.
Lemma front_set_chains s v cs : front s (set_chains v cs) = front s cs.
Proof. by destruct s. Qed.
Lemma direct_set_chains s v cs : direct s (set_chains v cs) = direct s cs.
Proof. by destruct s. Qed.
Lemma front_set_proxy_clients s v cs :
  front s (set_proxy_clients_rep v cs) = front s cs.
Proof. by destruct s. Qed.
Lemma direct_set_proxy_clients s v cs :
  direct s (set_proxy_clients_rep v cs) = direct s cs.
Proof. by destruct s. Qed.

Lemma run_set_front s v cs :
  set_front s v cs
  = Ok tt (match s with
           | input_side => set_inputs v cs
           | output_side => set_outputs v cs
           end).
Proof. by destruct s. Qed.

Lemma run_set_direct s v cs :
  set_direct s v cs
  = Ok tt (match s with
           | input_side => set_inputs_direct_rep v cs
           | output_side => set_outputs_direct_rep v cs
           end).
Proof. by destruct s. Qed.

Lemma set_chains_id cs : set_chains (chains cs) cs = cs.
Proof. by destruct cs. Qed.

Lemma run_map_chains (g : CHAIN → CHAIN) cs : map_chains g cs = Ok tt (set_chains (g <$> chains cs) cs).
Proof. done. Qed.

Lemma run_for_each_map_chains (ids : list string) (g : string → CHAIN → CHAIN) :
  ∀ cs, ∃ ch', for_each ids (λ id, map_chains (g id)) cs = Ok tt (set_chains ch' cs)
               ∧ length ch' = length (chains cs).
Proof.
  induction ids as [|id ids IH]; intros cs.
  - exists (chains cs). by rewrite set_chains_id.
  - cbn [for_each]. rewrite run_bind, run_map_chains.
    destruct (IH (set_chains (g id <$> chains cs) cs)) as (ch' & -> & Hl).
    exists ch'. split; [done|]. simpl in Hl. by rewrite Hl, length_fmap.
Qed.

Lemma run_attach_loop s obj (k : nat) : ∀ (c : nat) cs,
  (c + k)%nat = length (front s cs) →
  ∃ ch', attach_to_selected_chains_loop s obj k c cs = Ok tt (set_chains ch' cs)
         ∧ length ch' = length (chains cs).
Proof.
  induction k as [|k IH]; intros c cs Hk.
  - exists (chains cs). by rewrite set_chains_id.
  - cbn [attach_to_selected_chains_loop]. rewrite run_bind, run_get.
    destruct (lookup_lt_is_Some_2 (front s cs) c) as [p Hp]; [lia|].
    rewrite (run_bind_Ok _ _ _ _ _ (run_at_index _ _ _ _ Hp)).
    rewrite run_bind. unfold when.
    destruct (bool_decide (p = obj)).
    + rewrite run_bind, run_map_chains.
      destruct (run_for_each_map_chains (selected_chainids cs)
                  (λ id q, if String.eqb id (chainname q)
                           then connect s (to_int (Z.of_nat c)) q else q)
                  (set_chains ((λ q, if connected s q =? to_int (Z.of_nat c)
                                     then disconnect s q else q) <$> chains cs) cs))
        as (ch1 & -> & Hl1).
      destruct (IH (S c) (set_chains ch1 cs)) as (ch' & Hrun & Hl).
      { rewrite front_set_chains. lia. }
      change (set_chains ch1 (set_chains _ cs)) with (set_chains ch1 cs).
      rewrite Hrun. exists ch'. split; [done|].
      simpl in Hl, Hl1. by rewrite Hl, Hl1, length_fmap.
    + rewrite run_ret. apply IH. lia.
Qed.

Lemma run_add_audio_object_helper aio o cs :
  store cs !! aio = Some o →
  ∃ layer h' n,
    add_audio_object_helper aio cs
    = Ok layer (set_proxy_clients_rep n (set_store h' cs))
    ∧ h' !! aio = Some o
    ∧ is_Some (h' !! layer)
    ∧ (∀ p, is_Some (store cs !! p) → h' !! p = store cs !! p).
Proof.
  intros Ho. unfold add_audio_object_helper.
  rewrite (run_bind_Ok _ _ _ _ _ (run_deref _ _ _ Ho)).
  destruct (negb (is_device o) && negb (is_loop_device o)).
  - rewrite run_bind, run_new_object. cbn beta iota.
    rewrite run_bind. unfold add_proxy_clients. rewrite run_modify, run_ret.
    eexists _, _, _. split; [reflexivity|].
    pose proof (fresh_store_None cs) as Hf.
    split; [|split].
    + rewrite lookup_insert_ne; [done|]. intros E. rewrite E in Hf. congruence.
    + rewrite lookup_insert_eq. eauto.
    + intros p [x Hp]. rewrite lookup_insert_ne; [done|].
      intros E. rewrite E in Hf. congruence.
  - rewrite run_ret. exists aio, (store cs), (proxy_clients_rep cs).
    split; [by destruct cs|]. eauto.
Qed.

Lemma run_add_input aio o cs :
  store cs !! aio = Some o → proxy_child o = None →
  ∃ layer cs',
    add_input aio cs = Ok tt cs'
    ∧ inputs cs' = inputs cs ++ [layer]
    ∧ inputs_direct_rep cs' = inputs_direct_rep cs ++ [aio]
    ∧ outputs cs' = outputs cs
    ∧ outputs_direct_rep cs' = outputs_direct_rep cs.
Proof.
  intros Ho Hp. unfold add_input.
  rewrite (run_bind_Ok _ _ _ _ _ (run_update _ _ _ _ Ho)).
  rewrite run_bind, run_get.
  set (cs1 := set_store _ cs).
  assert (H1 : store cs1 !! aio = Some (set_io_mode io_read o))
    by apply lookup_insert_eq.
  rewrite (run_bind_Ok _ _ _ _ _ (run_update _ _ _ _ H1)).
  set (cs2 := set_store _ cs1).
  set (o2 := set_audio_format _ _) in cs2.
  assert (H2 : store cs2 !! aio = Some o2) by apply lookup_insert_eq.
  rewrite run_bind. unfold aio_set_buffersize.
  rewrite (run_bind_Ok _ _ _ _ _ (run_deref _ _ _ H2)).
  assert (proxy_child o2 = None) as -> by done.
  rewrite run_assign.
  set (cs3 := set_store _ cs2).
  set (o3 := set_buffersize_rep _ _) in cs3.
  assert (H3 : store cs3 !! aio = Some o3) by apply lookup_insert_eq.
  destruct (run_add_audio_object_helper aio o3 cs3 H3)
    as (layer & h' & n & Hrun & _).
  rewrite (run_bind_Ok _ _ _ _ _ Hrun).
  rewrite run_bind, run_modify, run_bind, run_modify, run_bind, run_modify.
  unfold attach_input_to_selected_chains. rewrite run_bind, run_get.
  match goal with |- context [attach_to_selected_chains_loop _ _ _ _ ?st] =>
    destruct (run_attach_loop input_side layer (length (inputs st)) 0 st)
      as (ch' & Hat & _); [done|]
  end.
  rewrite Hat. by eexists _, _.
Qed.

Lemma run_add_output aio truncate o cs :
  store cs !! aio = Some o → proxy_child o = None →
  ∃ layer cs',
    add_output aio truncate cs = Ok tt cs'
    ∧ outputs cs' = outputs cs ++ [layer]
    ∧ outputs_direct_rep cs' = outputs_direct_rep cs ++ [aio]
    ∧ inputs cs' = inputs cs
    ∧ inputs_direct_rep cs' = inputs_direct_rep cs.
Proof.
  intros Ho Hp. unfold add_output. rewrite run_bind, run_get.
  rewrite (run_bind_Ok _ _ _ _ _ (run_update _ _ _ _ Ho)).
  set (cs1 := set_store _ cs).
  set (o1 := set_audio_format _ _) in cs1.
  assert (H1 : store cs1 !! aio = Some o1) by apply lookup_insert_eq.
  rewrite run_bind. unfold aio_set_buffersize.
  rewrite (run_bind_Ok _ _ _ _ _ (run_deref _ _ _ H1)).
  assert (proxy_child o1 = None) as -> by done.
  rewrite run_assign.
  set (cs2 := set_store _ cs1).
  set (o2 := set_buffersize_rep _ _) in cs2.
  assert (H2 : store cs2 !! aio = Some o2) by apply lookup_insert_eq.
  rewrite (run_bind_Ok _ _ _ _ _ (run_update _ _ _ _ H2)).
  set (cs3 := set_store _ cs2).
  set (o3 := set_io_mode _ _) in cs3.
  assert (H3 : store cs3 !! aio = Some o3) by apply lookup_insert_eq.
  destruct (run_add_audio_object_helper aio o3 cs3 H3)
    as (layer & h' & n & Hrun & _).
  rewrite (run_bind_Ok _ _ _ _ _ Hrun).
  rewrite run_bind, run_modify, run_bind, run_modify, run_bind, run_modify.
  unfold attach_output_to_selected_chains. rewrite run_bind, run_get.
  match goal with |- context [attach_to_selected_chains_loop _ _ _ _ ?st] =>
    destruct (run_attach_loop output_side layer (length (outputs st)) 0 st)
      as (ch' & Hat & _); [done|]
  end.
  rewrite Hat. by eexists _, _.
Qed.

(** The body of the removal loop at a slot whose label matches. *)
Lemma run_remove_slot s (n : nat) f d o cs :
  front s cs !! n = Some f → direct s cs !! n = Some d →
  store cs !! f = Some o → is_Some (store cs !! d) →
  (is_Some (proxy_child o) → f ≠ d) →
  ∃ l cs1,
    (remove_audio_object_helper f;;
     map_chains (λ q, if connected s q =? to_int (Z.of_nat n)
                      then disconnect s q else q);;
     cs ← get;
     d ← at_index (direct s cs) n;
     delete_object d;;
     nullobj ← new_object null_object;
     cs ← get;
     vd ← store_index (direct s cs) n nullobj;
     set_direct s vd;;
     cs ← get;
     vf ← store_index (front s cs) n nullobj;
     set_front s vf) cs = Ok tt cs1
    ∧ front s cs1 = <[n := l]> (front s cs)
    ∧ direct s cs1 = <[n := l]> (direct s cs)
    ∧ front (other_side s) cs1 = front (other_side s) cs
    ∧ direct (other_side s) cs1 = direct (other_side s) cs
    ∧ chains cs1 = (λ q, if connected s q =? to_int (Z.of_nat n)
                         then disconnect s q else q) <$> chains cs
    ∧ store cs1 !! l = Some null_object
    ∧ (∀ p, p ≠ f → p ≠ d → is_Some (store cs !! p) → l ≠ p)
    ∧ (∀ p, p ≠ f → p ≠ d → p ≠ l → store cs1 !! p = store cs !! p).
Proof.
  intros Hf Hd Ho [od Hod] Hfd.
  assert (Hn : (n < length (direct s cs))%nat) by (by eapply lookup_lt_Some).
  assert (Hn' : (n < length (front s cs))%nat) by (by eapply lookup_lt_Some).
  (* the helper *)
  assert (∃ hA k, remove_audio_object_helper f cs
                  = Ok tt (set_proxy_clients_rep k (set_store hA cs))
                  ∧ hA !! d = Some od
                  ∧ (∀ p, p ≠ f → hA !! p = store cs !! p)
                  ∧ (∀ p, is_Some (hA !! p) → is_Some (store cs !! p)))
    as (hA & k & HA & HAd & HAo & HAs).
  { unfold remove_audio_object_helper.
    rewrite (run_bind_Ok _ _ _ _ _ (run_deref _ _ _ Ho)).
    destruct (proxy_child o) as [c|] eqn:Hc.
    - rewrite (run_bind_Ok _ _ _ _ _ (run_delete_object _ _ _ Ho)).
      unfold add_proxy_clients. rewrite run_modify.
      eexists _, _. split; [reflexivity|]. cbn.
      assert (f ≠ d) by (apply Hfd; eauto).
      split; [by rewrite lookup_delete_ne|].
      split; [intros p Hp; by rewrite lookup_delete_ne|].
      intros p [x Hx]. apply lookup_delete_Some in Hx as [_ Hx]. eauto.
    - rewrite run_ret. exists (store cs), (proxy_clients_rep cs).
      split; [by destruct cs|]. eauto. }
  rewrite (run_bind_Ok _ _ _ _ _ HA).
  rewrite run_bind, run_map_chains, run_bind, run_get.
  set (csB := set_chains _ _).
  assert (HdB : direct s csB !! n = Some d).
  { unfold csB. by rewrite direct_set_chains, direct_set_proxy_clients, direct_set_store. }
  rewrite (run_bind_Ok _ _ _ _ _ (run_at_index _ _ _ _ HdB)).
  assert (HsB : store csB !! d = Some od) by done.
  rewrite (run_bind_Ok _ _ _ _ _ (run_delete_object _ _ _ HsB)).
  rewrite run_bind, run_new_object.
  set (hC := delete d (store csB)).
  set (l := fresh (dom hC)).
  assert (Hl : hC !! l = None) by apply not_elem_of_dom, is_fresh.
  cbn beta iota. rewrite run_bind, run_get.
  rewrite run_bind, run_store_index.
  2:{ by destruct s. }
  rewrite run_bind, run_set_direct, run_bind, run_get.
  rewrite run_bind, run_store_index.
  2:{ destruct s; cbn; by rewrite ?length_insert. }
  rewrite run_set_front.
  exists l. eexists. split; [reflexivity|].
  assert (Hstore : ∀ p, p ≠ d → hC !! p = hA !! p).
  { intros p Hp. unfold hC. by rewrite lookup_delete_ne. }
  repeat split.
  - destruct s; cbn; done.
  - destruct s; cbn; done.
  - destruct s; cbn; done.
  - destruct s; cbn; done.
  - destruct s; cbn; done.
  - destruct s; cbn; apply lookup_insert_eq.
  - intros p Hpf Hpd [x Hx] ->.
    rewrite Hstore, HAo in Hl by done. congruence.
  - intros p Hpf Hpd Hpl.
    transitivity (hC !! p).
    + destruct s; cbn; by rewrite lookup_insert_ne.
    + by rewrite Hstore, HAo.
Qed.

Lemma disconnect_twice s q : disconnect s (disconnect s q) = disconnect s q.
Proof. by destruct s. Qed.

Lemma remove_audio_object_loop_spec s lbl (k : nat) : ∀ (n : nat) cs,
  (n + k)%nat = length (front s cs) → side_ok s cs →
  ∃ cs',
    remove_audio_object_loop s lbl k n cs = Ok tt cs'
    ∧ side_ok s cs'
    ∧ length (front s cs') = length (front s cs)
    ∧ front (other_side s) cs' = front (other_side s) cs
    ∧ direct (other_side s) cs' = direct (other_side s) cs
    ∧ (∀ (i : nat) f d, (i < n)%nat →
         front s cs !! i = Some f → direct s cs !! i = Some d →
         front s cs' !! i = Some f ∧ direct s cs' !! i = Some d
         ∧ store cs' !! f = store cs !! f ∧ store cs' !! d = store cs !! d)
    ∧ (∀ (i : nat) f d o, (n ≤ i)%nat →
         front s cs !! i = Some f → direct s cs !! i = Some d →
         store cs !! f = Some o →
         if String.eqb (label o) lbl then
           ∃ l, front s cs' !! i = Some l ∧ direct s cs' !! i = Some l
                ∧ store cs' !! l = Some null_object
         else
           front s cs' !! i = Some f ∧ direct s cs' !! i = Some d
           ∧ store cs' !! f = Some o ∧ store cs' !! d = store cs !! d)
    ∧ length (chains cs') = length (chains cs)
    ∧ (∀ (m : nat) q, chains cs !! m = Some q →
         (chains cs' !! m = Some q ∨ chains cs' !! m = Some (disconnect s q))
         ∧ ((∃ i : nat, (n ≤ i)%nat ∧ labelled s lbl cs i
                        ∧ connected s q = to_int (Z.of_nat i)) →
            chains cs' !! m = Some (disconnect s q))
         ∧ ((∀ i : nat, (n ≤ i)%nat → labelled s lbl cs i →
                        connected s q ≠ to_int (Z.of_nat i)) →
            chains cs' !! m = Some q)).
Proof.
  induction k as [|k IH]; intros n cs Hk (Hlen & Hval & Hdis).
  { exists cs. split; [done|]. split; [done|]. repeat split; try done.
    - intros i f d o Hi Hf. apply lookup_lt_Some in Hf. lia.
    - by left.
    - intros (i & Hi & (f & o & Hf & _) & _). apply lookup_lt_Some in Hf. lia. }
  cbn [remove_audio_object_loop]. rewrite run_bind, run_get.
  destruct (lookup_lt_is_Some_2 (front s cs) n) as [f Hf]; [lia|].
  destruct (lookup_lt_is_Some_2 (direct s cs) n) as [d Hd]; [lia|].
  destruct (Hval n f d Hf Hd) as (o & Ho & Hod & Hfd).
  rewrite (run_bind_Ok _ _ _ _ _ (run_at_index _ _ _ _ Hf)).
  rewrite (run_bind_Ok _ _ _ _ _ (run_deref _ _ _ Ho)).
  rewrite run_bind. unfold when at 1.
  destruct (String.eqb (label o) lbl) eqn:Hlbl.
  - (* the slot is removed *)
    destruct (run_remove_slot s n f d o cs Hf Hd Ho Hod Hfd)
      as (l & cs1 & -> & Hf1 & Hd1 & Hof1 & Hod1 & Hch1 & Hl1 & Hfresh & Hkeep).
    (* pointers of the other slots *)
    assert (Hothers : ∀ (j : nat) f' d', j ≠ n →
              front s cs !! j = Some f' → direct s cs !! j = Some d' →
              f' ≠ f ∧ f' ≠ d ∧ f' ≠ l ∧ d' ≠ f ∧ d' ≠ d ∧ d' ≠ l).
    { intros j f' d' Hj Hf' Hd'.
      destruct (Hdis j n f' d' f d Hj Hf' Hd' Hf Hd) as (? & ? & ? & ?).
      destruct (Hval j f' d' Hf' Hd') as (o' & Ho' & Hod' & _).
      repeat split; try done.
      - intros <-. by apply (Hfresh f').
      - intros <-. by apply (Hfresh d'). }
    assert (Hok1 : side_ok s cs1).
    { split; [by rewrite Hf1, Hd1, !length_insert|]. split.
      - intros j f' d' Hf' Hd'. rewrite Hf1 in Hf'. rewrite Hd1 in Hd'.
        destruct (decide (j = n)) as [->|Hj].
        + rewrite list_lookup_insert_eq in Hf' by (by eapply lookup_lt_Some).
          rewrite list_lookup_insert_eq in Hd' by (by eapply lookup_lt_Some).
          injection Hf' as <-. injection Hd' as <-.
          exists null_object. split; [done|]. split; [by eauto|].
          intros [? Hx]. discriminate.
        + rewrite list_lookup_insert_ne in Hf', Hd' by done.
          destruct (Hothers j f' d' Hj Hf' Hd') as (? & ? & ? & ? & ? & ?).
          destruct (Hval j f' d' Hf' Hd') as (o' & Ho' & Hod' & Hp').
          exists o'. rewrite !Hkeep by done. done.
      - intros i j f1 d1 f2 d2 Hij Hf1' Hd1' Hf2' Hd2'.
        rewrite Hf1 in Hf1', Hf2'. rewrite Hd1 in Hd1', Hd2'.
        destruct (decide (i = n)) as [->|Hi], (decide (j = n)) as [->|Hj];
          try done.
        + rewrite list_lookup_insert_eq in Hf1' by (by eapply lookup_lt_Some).
          rewrite list_lookup_insert_eq in Hd1' by (by eapply lookup_lt_Some).
          rewrite list_lookup_insert_ne in Hf2', Hd2' by done.
          injection Hf1' as <-. injection Hd1' as <-.
          destruct (Hothers j f2 d2 Hj Hf2' Hd2') as (? & ? & ? & ? & ? & ?).
          repeat split; congruence.
        + rewrite list_lookup_insert_eq in Hf2' by (by eapply lookup_lt_Some).
          rewrite list_lookup_insert_eq in Hd2' by (by eapply lookup_lt_Some).
          rewrite list_lookup_insert_ne in Hf1', Hd1' by done.
          injection Hf2' as <-. injection Hd2' as <-.
          destruct (Hothers i f1 d1 Hi Hf1' Hd1') as (? & ? & ? & ? & ? & ?).
          repeat split; congruence.
        + rewrite list_lookup_insert_ne in Hf1', Hd1', Hf2', Hd2' by done.
          by apply (Hdis i j). }
    destruct (IH (S n) cs1) as (cs' & Hrun & Hok' & Hlen' & Hof' & Hod' & Hbefore
                                & Hafter & Hchl & Hch); [|done|].
    { rewrite Hf1, length_insert. lia. }
    exists cs'. split; [done|]. split; [done|].
    split; [by rewrite Hlen', Hf1, length_insert|].
    split; [congruence|]. split; [congruence|].
    split; [|split; [|split]].
    + intros i f' d' Hi Hf' Hd'.
      destruct (Hothers i f' d' ltac:(lia) Hf' Hd') as (? & ? & ? & ? & ? & ?).
      destruct (Hbefore i f' d') as (? & ? & ? & ?); [lia|..].
      { rewrite Hf1. by rewrite list_lookup_insert_ne by lia. }
      { rewrite Hd1. by rewrite list_lookup_insert_ne by lia. }
      rewrite <- !Hkeep by done. done.
    + intros i f' d' o' Hi Hf' Hd' Ho'.
      destruct (decide (i = n)) as [->|Hin].
      * assert (f' = f) as -> by congruence.
        assert (o' = o) as -> by congruence.
        rewrite Hlbl.
        destruct (Hbefore n l l) as (? & ? & Hs & _); [lia|..].
        { rewrite Hf1. apply list_lookup_insert_eq. by eapply lookup_lt_Some. }
        { rewrite Hd1. apply list_lookup_insert_eq. by eapply lookup_lt_Some. }
        exists l. rewrite Hs. done.
      * destruct (Hothers i f' d' Hin Hf' Hd') as (? & ? & ? & ? & ? & ?).
        specialize (Hafter i f' d' o').
        rewrite Hf1, Hd1, !list_lookup_insert_ne, !Hkeep in Hafter by done.
        apply Hafter; [lia|done..].
    + by rewrite Hchl, Hch1, length_fmap.
    + intros m q Hq.
      set (q1 := if connected s q =? to_int (Z.of_nat n)
                 then disconnect s q else q).
      assert (Hq1 : chains cs1 !! m = Some q1).
      { rewrite Hch1, list_lookup_fmap, Hq. done. }
      destruct (Hch m q1 Hq1) as (Hor & Hhit & Hmiss).
      assert (Hlab : ∀ i : nat, (S n ≤ i)%nat →
                labelled s lbl cs i → labelled s lbl cs1 i).
      { intros i Hi (f' & o' & Hf' & Ho' & Hl').
        destruct (lookup_lt_is_Some_2 (direct s cs) i) as [d' Hd'].
        { rewrite Hlen. by eapply lookup_lt_Some. }
        destruct (Hothers i f' d' ltac:(lia) Hf' Hd') as (? & ? & ? & ? & ? & ?).
        exists f', o'. rewrite Hf1, list_lookup_insert_ne, Hkeep by (done || lia).
        done. }
      assert (Hlab' : ∀ i : nat, (S n ≤ i)%nat →
                labelled s lbl cs1 i → labelled s lbl cs i).
      { intros i Hi (f' & o' & Hf' & Ho' & Hl').
        rewrite Hf1, list_lookup_insert_ne in Hf' by lia.
        destruct (lookup_lt_is_Some_2 (direct s cs) i) as [d' Hd'].
        { rewrite Hlen. by eapply lookup_lt_Some. }
        destruct (Hothers i f' d' ltac:(lia) Hf' Hd') as (? & ? & ? & ? & ? & ?).
        exists f', o'. rewrite Hkeep in Ho' by done. done. }
      unfold q1 in *. clear q1.
      destruct (Z.eqb_spec (connected s q) (to_int (Z.of_nat n))) as [Hc|Hc].
      * rewrite disconnect_twice in Hor.
        assert (Hres : chains cs' !! m = Some (disconnect s q))
          by (by destruct Hor).
        split; [by right|]. split; [done|].
        intros Hno. exfalso. apply (Hno n); [lia| |done].
        by exists f, o.
      * split; [done|]. split.
        -- intros (i & Hi & Hli & Hci). apply Hhit.
           assert (i ≠ n) by congruence.
           exists i. split; [lia|]. split; [|done]. apply Hlab; [lia|done].
        -- intros Hno. apply Hmiss. intros i Hi Hli.
           apply Hno; [lia|]. by apply Hlab'.
  - (* the slot is kept *)
    rewrite run_ret.
    destruct (IH (S n) cs) as (cs' & Hrun & Hok' & Hlen' & Hof' & Hod' & Hbefore
                               & Hafter & Hchl & Hch); [lia|done|].
    exists cs'. split; [done|]. split; [done|]. split; [done|].
    split; [done|]. split; [done|].
    split; [|split; [|split]].
    + intros i f' d' Hi. apply Hbefore. lia.
    + intros i f' d' o' Hi Hf' Hd' Ho'.
      destruct (decide (i = n)) as [->|Hin].
      * assert (f' = f) as -> by congruence.
        assert (d' = d) as -> by congruence.
        assert (o' = o) as -> by congruence.
        rewrite Hlbl.
        destruct (Hbefore n f d) as (? & ? & Hs & ?); [lia|done..|].
        rewrite Hs. done.
      * apply Hafter; [lia|done..].
    + done.
    + intros m q Hq. destruct (Hch m q Hq) as (Hor & Hhit & Hmiss).
      split; [done|]. split.
      * intros (i & Hi & Hli & Hci). apply Hhit. exists i.
        split; [|done].
        destruct (decide (i = n)) as [->|]; [|lia].
        destruct Hli as (f' & o' & Hf' & Ho' & Hl').
        assert (f' = f) as -> by congruence.
        assert (o' = o) as -> by congruence. congruence.
      * intros Hno. apply Hmiss. intros i Hi. apply Hno. lia.
Qed.

(** C9.  [add_input] and [add_output], on an object that exists and is
    not itself a proxy, append one pointer to the front vector and one
    to the direct vector of their side and leave the other side alone;
    [remove_audio_input] and [remove_audio_output], on consistent
    vectors, keep the lengths, put one pointer to a new null object in
    both vectors at every removed slot, leave every other slot and its
    object as they were, disconnect the chains of the removed slots and
    no other, and leave the vectors consistent.  Each of the four keeps
    the front and direct vectors of equal length. *)
Theorem object_vectors_stay_parallel cs :
  (∀ aio o, store cs !! aio = Some o → proxy_child o = None →
     ∃ layer cs',
       add_input aio cs = Ok tt cs'
       ∧ inputs cs' = inputs cs ++ [layer]
       ∧ inputs_direct_rep cs' = inputs_direct_rep cs ++ [aio]
       ∧ outputs cs' = outputs cs
       ∧ outputs_direct_rep cs' = outputs_direct_rep cs
       ∧ (vectors_parallel cs → vectors_parallel cs'))
  ∧ (∀ aio truncate o, store cs !! aio = Some o → proxy_child o = None →
     ∃ layer cs',
       add_output aio truncate cs = Ok tt cs'
       ∧ outputs cs' = outputs cs ++ [layer]
       ∧ outputs_direct_rep cs' = outputs_direct_rep cs ++ [aio]
       ∧ inputs cs' = inputs cs
       ∧ inputs_direct_rep cs' = inputs_direct_rep cs
       ∧ (vectors_parallel cs → vectors_parallel cs'))
  ∧ (∀ lbl, side_ok input_side cs →
     ∃ cs',
       remove_audio_input lbl cs = Ok tt cs'
       ∧ length (inputs cs') = length (inputs cs)
       ∧ length (inputs_direct_rep cs') = length (inputs_direct_rep cs)
       ∧ outputs cs' = outputs cs
       ∧ outputs_direct_rep cs' = outputs_direct_rep cs
       ∧ slots_after_remove input_side lbl cs cs'
       ∧ chains_after_remove input_side lbl cs cs'
       ∧ side_ok input_side cs'
       ∧ (vectors_parallel cs → vectors_parallel cs'))
  ∧ (∀ lbl, side_ok output_side cs →
     ∃ cs',
       remove_audio_output lbl cs = Ok tt cs'
       ∧ length (outputs cs') = length (outputs cs)
       ∧ length (outputs_direct_rep cs') = length (outputs_direct_rep cs)
       ∧ inputs cs' = inputs cs
       ∧ inputs_direct_rep cs' = inputs_direct_rep cs
       ∧ slots_after_remove output_side lbl cs cs'
       ∧ chains_after_remove output_side lbl cs cs'
       ∧ side_ok output_side cs'
       ∧ (vectors_parallel cs → vectors_parallel cs')).
Proof.
  split; [|split; [|split]].
  - intros aio o Ho Hp.
    destruct (run_add_input aio o cs Ho Hp) as (layer & cs' & Hrun & Hi & Hd & Ho' & Hod).
    exists layer, cs'. repeat (split; [done|]).
    intros [H1 H2]. split; [|congruence].
    rewrite Hi, Hd, !length_app. simpl. lia.
  - intros aio truncate o Ho Hp.
    destruct (run_add_output aio truncate o cs Ho Hp)
      as (layer & cs' & Hrun & Hi & Hd & Ho' & Hod).
    exists layer, cs'. repeat (split; [done|]).
    intros [H1 H2]. split; [congruence|].
    rewrite Hi, Hd, !length_app. simpl. lia.
  - intros lbl Hok.
    destruct (remove_audio_object_loop_spec input_side lbl (length (inputs cs)) 0%nat cs)
      as (cs' & Hrun & Hok' & Hlen & Hof & Hod & _ & Hafter & Hchl & Hch);
      [done..|].
    destruct Hok as (Hl & _), Hok' as (Hl' & Hv' & Hd').
    cbn [front direct other_side] in *.
    exists cs'. split; [exact Hrun|]. split; [done|]. split; [lia|].
    split; [done|]. split; [done|]. split; [|split; [|split]].
    + intros n f d o Hf Hd Ho. apply (Hafter n f d o); [lia|done..].
    + split; [done|]. intros m q Hq. destruct (Hch m q Hq) as (_ & Hhit & Hmiss).
      split.
      * intros (n & Hn & Hc). apply Hhit. exists n. split; [lia|done].
      * intros Hno. apply Hmiss. intros i _. apply Hno.
    + done.
    + intros [H1 H2]. split; [done|]. cbn [front direct] in *. congruence.
  - intros lbl Hok.
    destruct (remove_audio_object_loop_spec output_side lbl (length (outputs cs)) 0%nat cs)
      as (cs' & Hrun & Hok' & Hlen & Hof & Hod & _ & Hafter & Hchl & Hch);
      [done..|].
    destruct Hok as (Hl & _), Hok' as (Hl' & Hv' & Hd').
    cbn [front direct other_side] in *.
    exists cs'. split; [exact Hrun|]. split; [done|]. split; [lia|].
    split; [done|]. split; [done|]. split; [|split; [|split]].
    + intros n f d o Hf Hd Ho. apply (Hafter n f d o); [lia|done..].
    + split; [done|]. intros m q Hq. destruct (Hch m q Hq) as (_ & Hhit & Hmiss).
      split.
      * intros (n & Hn & Hc). apply Hhit. exists n. split; [lia|done].
      * intros Hno. apply Hmiss. intros i _. apply Hno.
    + done.
    + intros [H1 H2]. split; [|done]. cbn [front direct] in *. congruence.
Qed.

Lemma scenario_B_side_ok : side_ok input_side (scenario_B true).
Proof.
  split; [reflexivity|]. split.
  - intros n f d Hf Hd.
    destruct n as [|[|n]]; vm_compute in Hf, Hd; try discriminate;
      injection Hf as <-; injection Hd as <-;
      (eexists; split; [vm_compute; reflexivity|]);
      (split; [eexists; vm_compute; reflexivity|]);
      first [ intros _; discriminate
            | intros [x Hx]; vm_compute in Hx; discriminate ].
  - intros n m f d f' d' Hnm Hf Hd Hf' Hd'.
    destruct n as [|[|n]], m as [|[|m]]; vm_compute in Hf, Hd, Hf', Hd';
      try discriminate; try done;
      injection Hf as <-; injection Hd as <-;
      injection Hf' as <-; injection Hd' as <-;
      repeat split; discriminate.
Defined.

Lemma object_vectors_stay_parallel_witness :
  (∃ layer cs',
     add_input 2%positive (scenario_B true) = Ok tt cs'
     ∧ inputs cs' = inputs (scenario_B true) ++ [layer])
  ∧ ∃ cs',
      remove_audio_input "a.wav" (scenario_B true) = Ok tt cs'
      ∧ length (inputs cs') = 2%nat
      ∧ length (inputs_direct_rep cs') = 2%nat.
Proof.
  split.
  - destruct (proj1 (object_vectors_stay_parallel (scenario_B true))
                2%positive
                (set_buffersize_rep 1024
                   (example_object AUDIO_IO_FILE "a.wav"
                      (open_succeeds (Some 44100)))))
      as (layer & cs' & Hrun & Hi & _); [reflexivity..|].
    exists layer, cs'. split; [exact Hrun | exact Hi].
  - destruct (proj1 (proj2 (proj2 (object_vectors_stay_parallel (scenario_B true))))
                "a.wav" scenario_B_side_ok)
      as (cs' & Hrun & Hl1 & Hl2 & _).
    exists cs'. split; [exact Hrun|].
    split; [rewrite Hl1 | rewrite Hl2]; vm_compute; reflexivity.
Defined.

End running.

(** ** The chainsetup: [enable] *)

Section enabling.
Import chainsetup.
Local Open Scope Z_scope.

Implicit Types (cs : ECA_CHAINSETUP) (p q c : loc) (o : AUDIO_IO) (s : side).

Section preserving.
Context (Inv : ECA_CHAINSETUP → Prop).

Lemma preserves_ret {A} (a : A) : preserves Inv (mret a : M A).
Proof. intros cs H. exact H. Qed.

Lemma preserves_bind {A B} (m : M A) (f : A → M B) :
  preserves Inv m → (∀ a, preserves Inv (f a)) → preserves Inv (m ≫= f).
Proof.
  intros Hm Hf cs H. specialize (Hm cs H).
  unfold mbind, M_bind. destruct (m cs) as [a cs'| |]; [|done..].
  by apply Hf.
Qed.

Lemma preserves_get : preserves Inv get.
Proof. intros cs H. exact H. Qed.

Lemma preserves_modify (g : ECA_CHAINSETUP → ECA_CHAINSETUP) :
  (∀ cs, Inv cs → Inv (g cs)) → preserves Inv (modify g).
Proof. intros Hg cs H. by apply Hg. Qed.

Lemma preserves_throw {A} e : preserves Inv (throw e : M A).
Proof. intros cs H. exact H. Qed.

Lemma preserves_undefined {A} : preserves Inv (undefined : M A).
Proof. by intros cs H. Qed.

Lemma preserves_lift {A} (x : option A) : preserves Inv (lift x).
Proof. destruct x; [apply preserves_ret | apply preserves_undefined]. Qed.

Lemma preserves_when (b : bool) m : preserves Inv m → preserves Inv (when b m).
Proof. intros Hm. destruct b; [exact Hm | apply preserves_ret]. Qed.

Lemma preserves_for_each {A} (v : list A) (body : A → M unit) :
  (∀ a, preserves Inv (body a)) → preserves Inv (for_each v body).
Proof.
  intros Hb. induction v as [|a v IH]; [apply preserves_ret|].
  apply preserves_bind; [apply Hb | intros _; exact IH].
Qed.

End preserving.

Ltac preserves_step :=
  lazymatch goal with
  | |- preserves _ (mret _) => apply preserves_ret
  | |- preserves _ (_ ≫= _) => apply preserves_bind; [|intros ?]
  | |- preserves _ get => apply preserves_get
  | |- preserves _ (modify _) => apply preserves_modify; intros ? ?
  | |- preserves _ (throw _) => apply preserves_throw
  | |- preserves _ undefined => apply preserves_undefined
  | |- preserves _ (lift _) => apply preserves_lift
  | |- preserves _ (at_index _ _) => apply preserves_lift
  | |- preserves _ (when _ _) => apply preserves_when
  | |- preserves _ (for_each _ _) => apply preserves_for_each; intros ?
  | |- preserves _ (if ?b then _ else _) => destruct b
  | |- preserves _ (match ?x with _ => _ end) => destruct x
  end.

Lemma is_enabled_rep_select b :
  preserves (λ cs, is_enabled_rep cs = b) select_active_buffering_mode.
Proof.
  unfold select_active_buffering_mode, toggle_raised_priority, set_bmode_active.
  repeat preserves_step; assumption.
Qed.

Lemma is_enabled_rep_switch_to_direct_mode_loop b s (k : nat) : ∀ n : nat,
  preserves (λ cs, is_enabled_rep cs = b) (switch_to_direct_mode_loop s k n).
Proof.
  induction k as [|k IH]; intros n; cbn [switch_to_direct_mode_loop].
  - apply preserves_ret.
  - unfold delete_object, deref, store_index, set_front, add_proxy_clients.
    repeat first [ apply IH | preserves_step ]; try assumption.
    by destruct s.
Qed.

Lemma is_enabled_rep_switch_to_proxy_mode_loop b s (k : nat) : ∀ n : nat,
  preserves (λ cs, is_enabled_rep cs = b) (switch_to_proxy_mode_loop s k n).
Proof.
  induction k as [|k IH]; intros n; cbn [switch_to_proxy_mode_loop].
  - apply preserves_ret.
  - unfold add_audio_object_helper, new_object, assign, deref, store_index,
      set_front, add_proxy_clients.
    repeat first [ apply IH | preserves_step ]; try assumption.
    by destruct s.
Qed.

Lemma is_enabled_rep_enable_buffering b :
  preserves (λ cs, is_enabled_rep cs = b) enable_buffering.
Proof.
  unfold enable_buffering. apply preserves_bind;
    [apply is_enabled_rep_select | intros _].
  unfold enable_active_buffering_mode, lock_all_memory, unlock_all_memory,
    switch_to_direct_mode, switch_to_proxy_mode, switch_to_direct_mode_helper,
    switch_to_proxy_mode_helper, toggle_active_double_buffering,
    set_bmode_active, set_buffer_defaults.
  repeat first [ apply is_enabled_rep_switch_to_direct_mode_loop
               | apply is_enabled_rep_switch_to_proxy_mode_loop
               | preserves_step ]; assumption.
Qed.

(** What [evolves] keeps. *)
Lemma proxy_child_aio_type o o' :
  aio_type o' = aio_type o → proxy_child o' = proxy_child o.
Proof. unfold proxy_child. by intros ->. Qed.

Lemma evolves_refl cs : evolves cs cs.
Proof.
  repeat split; try done.
  all: intros; simplify_eq; auto.
Qed.

Lemma evolves_lookup cs cs' x ox :
  evolves cs cs' → store cs !! x = Some ox →
  ∃ ox', store cs' !! x = Some ox'
         ∧ aio_type ox' = aio_type ox ∧ on_open ox' = on_open ox
         ∧ (open_rep ox = true → open_rep ox' = true)
         ∧ (open_rep ox' = true →
            open_rep ox = true
            ∨ match proxy_child ox with
              | None => ¬ open_fails (on_open ox)
              | Some c =>
                  ∃ oc', store cs' !! c = Some oc' ∧ open_rep oc' = true
              end).
Proof.
  intros (_ & _ & _ & Hd & Hs) Hx.
  destruct (store cs' !! x) as [ox'|] eqn:Hx'.
  - exists ox'. split; [done|]. by apply (Hs x).
  - apply Hd in Hx'. congruence.
Qed.

Lemma evolves_allocated cs cs' x :
  evolves cs cs' → is_Some (store cs' !! x) ↔ is_Some (store cs !! x).
Proof.
  intros (_ & _ & _ & Hd & _). rewrite <-!not_eq_None_Some. by rewrite Hd.
Qed.

Lemma evolves_trans cs1 cs2 cs3 :
  evolves cs1 cs2 → evolves cs2 cs3 → evolves cs1 cs3.
Proof.
  intros H12 H23.
  pose proof H12 as (Hi1 & Ho1 & He1 & Hd1 & _).
  pose proof H23 as (Hi2 & Ho2 & He2 & Hd2 & _).
  split_and!; try congruence.
  - intros x. rewrite Hd2. apply Hd1.
  - intros x ox ox'' H1 H3.
    destruct (evolves_lookup _ _ _ _ H12 H1) as (ox' & H2 & Ht1 & Hoo1 & Hm1 & Hl1).
    destruct (evolves_lookup _ _ _ _ H23 H2) as (ox3 & H3' & Ht2 & Hoo2 & Hm2 & Hl2).
    assert (ox3 = ox'') as -> by congruence.
    split_and!; [congruence.. | auto |].
    intros Hopen. destruct (Hl2 Hopen) as [Hopen'|Hlegal].
    + destruct (Hl1 Hopen') as [?|Hlegal]; [by left|]. right.
      destruct (proxy_child ox) as [c|]; [|done].
      destruct Hlegal as (oc' & Hc2 & Hop).
      destruct (evolves_lookup _ _ _ _ H23 Hc2) as (oc3 & Hc3 & _ & _ & Hm & _).
      exists oc3. auto.
    + right. rewrite (proxy_child_aio_type _ _ Ht1), Hoo1 in Hlegal. exact Hlegal.
Qed.

Lemma objects_wf_evolves cs cs' : objects_wf cs → evolves cs cs' → objects_wf cs'.
Proof.
  intros [Hv Hc] Hev. pose proof Hev as (Hi & Ho & _ & Hd & Hs). split.
  - intros p Hp. rewrite Hi, Ho in Hp. destruct (Hv p Hp) as [o Hpo].
    destruct (evolves_lookup _ _ _ _ Hev Hpo) as (o' & ? & _). by exists o'.
  - intros p o' c Hp' Hch.
    destruct (store cs !! p) as [o|] eqn:Hp; [|apply Hd in Hp; congruence].
    destruct (Hs p o o' Hp Hp') as (Ht & _).
    rewrite (proxy_child_aio_type _ _ Ht) in Hch.
    destruct (Hc p o c Hp Hch) as (oc & Hoc & Hdirect).
    destruct (evolves_lookup _ _ _ _ Hev Hoc) as (oc' & Hoc' & Ht' & _).
    exists oc'. split; [done|]. by rewrite (proxy_child_aio_type _ _ Ht').
Qed.

Lemma cannot_open_evolves cs cs' q :
  objects_wf cs → evolves cs cs' → cannot_open cs q → cannot_open cs' q.
Proof.
  intros [_ Hwf] Hev (o & Hq & Hclosed & Hfail).
  destruct (evolves_lookup _ _ _ _ Hev Hq) as (o' & Hq' & Ht & Hoo & _ & Hl).
  assert (∀ c oc, proxy_child o = Some c → store cs !! c = Some oc →
            open_rep oc = false → open_fails (on_open oc) →
            ∃ oc', store cs' !! c = Some oc' ∧ open_rep oc' = false
                   ∧ open_fails (on_open oc')) as Hchild.
  { intros c oc Hc Hoc Hcl Hf.
    destruct (evolves_lookup _ _ _ _ Hev Hoc) as (oc' & Hoc' & _ & Hoo' & _ & Hl').
    exists oc'. split; [done|]. split; [|by rewrite Hoo'].
    destruct (open_rep oc') eqn:Hop; [|done].
    destruct (Hl' eq_refl) as [?|Hlegal]; [congruence|].
    destruct (Hwf q o c Hq Hc) as (oc2 & Hoc2 & Hdirect).
    assert (oc2 = oc) as -> by congruence.
    rewrite Hdirect in Hlegal. done. }
  exists o'. split; [done|]. split.
  - destruct (open_rep o') eqn:Hop; [|done].
    destruct (Hl eq_refl) as [?|Hlegal]; [congruence|].
    destruct (proxy_child o) as [c|] eqn:Hc; [|done].
    destruct Hfail as (oc & Hoc & Hcl & Hf).
    destruct (Hchild c oc eq_refl Hoc Hcl Hf) as (oc' & Hoc' & Hcl' & _).
    destruct Hlegal as (oc2 & Hoc2 & Hop2). congruence.
  - rewrite (proxy_child_aio_type _ _ Ht), Hoo.
    destruct (proxy_child o) as [c|] eqn:Hc; [|done].
    destruct Hfail as (oc & Hoc & Hcl & Hf). by apply (Hchild c oc).
Qed.

(** Writing an object back. *)
Lemma evolves_insert cs x ox o' :
  store cs !! x = Some ox →
  aio_type o' = aio_type ox → on_open o' = on_open ox →
  (open_rep ox = true → open_rep o' = true) →
  (open_rep o' = true →
   open_rep ox = true
   ∨ match proxy_child ox with
     | None => ¬ open_fails (on_open ox)
     | Some c => ∃ oc', <[x := o']> (store cs) !! c = Some oc'
                        ∧ open_rep oc' = true
     end) →
  evolves cs (set_store (<[x := o']> (store cs)) cs).
Proof.
  intros Hx Ht Hoo Hm Hl. split_and!; try done.
  - intros y. cbn. destruct (decide (x = y)) as [->|Hne].
    + rewrite lookup_insert_eq, Hx. done.
    + by rewrite lookup_insert_ne.
  - intros y oy oy' Hy Hy'. cbn in Hy'.
    destruct (decide (x = y)) as [->|Hne].
    + rewrite lookup_insert_eq in Hy'. simplify_eq. auto.
    + rewrite lookup_insert_ne in Hy' by done. simplify_eq. auto.
Qed.

(** Rules for [runs]. *)
Lemma runs_bind {A B} (m : M A) (f : A → M B) cs
    (Q' : A → ECA_CHAINSETUP → Prop) Q E :
  runs m cs Q' E → (∀ a cs', Q' a cs' → runs (f a) cs' Q E) →
  runs (m ≫= f) cs Q E.
Proof.
  unfold runs, mbind, M_bind. intros Hm Hf.
  destruct (m cs) as [a cs'| |]; [by apply Hf|done..].
Qed.

Lemma runs_mono {A} (m : M A) cs (Q Q' : A → ECA_CHAINSETUP → Prop)
    (E E' : exn → ECA_CHAINSETUP → Prop) :
  runs m cs Q E → (∀ a cs', Q a cs' → Q' a cs') →
  (∀ e cs', E e cs' → E' e cs') → runs m cs Q' E'.
Proof. unfold runs. intros Hm HQ HE. destruct (m cs); auto. Qed.

Lemma runs_ret {A} (a : A) cs (Q : A → ECA_CHAINSETUP → Prop) E :
  Q a cs → runs (mret a) cs Q E.
Proof. done. Qed.

Lemma runs_ret_bind {A B} (a : A) (f : A → M B) cs Q E :
  runs (f a) cs Q E → runs (mret a ≫= f) cs Q E.
Proof. done. Qed.

Lemma runs_throw_bind {A B} e (f : A → M B) cs (Q : B → ECA_CHAINSETUP → Prop)
    (E : exn → ECA_CHAINSETUP → Prop) :
  E e cs → runs (throw e ≫= f) cs Q E.
Proof. done. Qed.

Lemma runs_get_bind {B} (f : ECA_CHAINSETUP → M B) cs Q E :
  runs (f cs) cs Q E → runs (get ≫= f) cs Q E.
Proof. done. Qed.

Lemma runs_modify (g : ECA_CHAINSETUP → ECA_CHAINSETUP) cs
    (Q : unit → ECA_CHAINSETUP → Prop) E :
  Q tt (g cs) → runs (modify g) cs Q E.
Proof. done. Qed.

Lemma runs_throw {A} e cs (Q : A → ECA_CHAINSETUP → Prop)
    (E : exn → ECA_CHAINSETUP → Prop) :
  E e cs → runs (throw e) cs Q E.
Proof. done. Qed.

Lemma runs_deref_bind {B} p o (f : AUDIO_IO → M B) cs Q E :
  store cs !! p = Some o → runs (f o) cs Q E → runs (deref p ≫= f) cs Q E.
Proof.
  intros Hp Hf. unfold runs. by rewrite (run_bind_Ok _ _ _ _ _ (run_deref _ _ _ Hp)).
Qed.

Lemma runs_update p (g : AUDIO_IO → AUDIO_IO) o cs
    (Q : unit → ECA_CHAINSETUP → Prop) E :
  store cs !! p = Some o →
  Q tt (set_store (<[p := g o]> (store cs)) cs) → runs (update p g) cs Q E.
Proof. intros Hp HQ. unfold runs. by rewrite (run_update _ _ _ _ Hp). Qed.

Lemma runs_when (b : bool) (m : M unit) cs (Q : unit → ECA_CHAINSETUP → Prop) E :
  (b = true → runs m cs Q E) → (b = false → Q tt cs) → runs (when b m) cs Q E.
Proof. destruct b; cbn; auto. Qed.

(** States that differ outside the objects, the vectors and the flag. *)
Lemma evolves_same cs cs' :
  store cs' = store cs → inputs cs' = inputs cs → outputs cs' = outputs cs →
  is_enabled_rep cs' = is_enabled_rep cs → evolves cs cs'.
Proof.
  intros Hs Hi Ho He. split_and!; try done.
  - intros x. by rewrite Hs.
  - intros x ox ox' H1 H2. rewrite Hs in H2. simplify_eq. auto.
Qed.

Section steps.
Context (cs0 : ECA_CHAINSETUP) (Hwf0 : objects_wf cs0).

Local Abbreviation keeps := (λ _ cs', evolves cs0 cs').
Local Abbreviation fails := (λ e cs', evolves cs0 cs' ∧ enable_exn e).
Local Abbreviation reads cs := (λ _ cs', cs' = cs).

Lemma runs_benign_update p (g : AUDIO_IO → AUDIO_IO) cs :
  evolves cs0 cs → is_Some (store cs0 !! p) →
  (∀ o, aio_type (g o) = aio_type o ∧ on_open (g o) = on_open o
        ∧ open_rep (g o) = open_rep o) →
  runs (update p g) cs keeps fails.
Proof.
  intros Hev [o0 Hp0] Hg.
  destruct (evolves_lookup _ _ _ _ Hev Hp0) as (o & Hp & _).
  apply (runs_update _ _ o); [done|].
  destruct (Hg o) as (Ht & Hoo & Hop).
  eapply evolves_trans; [exact Hev|].
  apply (evolves_insert _ _ o); [done..| |]; rewrite Hop; auto.
Qed.

Lemma runs_aio_set_buffersize p v cs :
  evolves cs0 cs → is_Some (store cs0 !! p) →
  runs (aio_set_buffersize p v) cs keeps fails.
Proof.
  intros Hev [o0 Hp0].
  destruct (evolves_lookup _ _ _ _ Hev Hp0) as (o & Hp & Ht & _).
  unfold aio_set_buffersize. apply (runs_deref_bind _ o); [done|].
  rewrite (proxy_child_aio_type _ _ Ht).
  destruct (proxy_child o0) as [c|] eqn:Hc.
  - destruct (proj2 Hwf0 p o0 c Hp0 Hc) as (oc & Hoc & _).
    apply runs_benign_update; [done|by exists oc|done].
  - apply runs_modify. eapply evolves_trans; [exact Hev|].
    apply (evolves_insert _ _ o); auto.
Qed.

Lemma runs_open_direct p o cs :
  evolves cs0 cs → store cs !! p = Some o → open_rep o = false →
  proxy_child o = None →
  runs (open_direct p) cs
    (λ _ cs', evolves cs0 cs' ∧ ∀ y, y ≠ p → store cs' !! y = store cs !! y)
    fails.
Proof.
  intros Hev Hp Hcl Hdirect.
  unfold open_direct. apply (runs_deref_bind _ o); [done|].
  destruct (on_open o) as [[r|]| |msg] eqn:Hoo.
  - apply runs_modify. split; [|by intros y Hy; cbn; rewrite lookup_insert_ne].
    eapply evolves_trans; [exact Hev|].
    apply (evolves_insert _ _ o); [done..| |]; [done|].
    intros _. right. rewrite Hdirect, Hoo. auto.
  - apply runs_modify. split; [|by intros y Hy; cbn; rewrite lookup_insert_ne].
    eapply evolves_trans; [exact Hev|].
    apply (evolves_insert _ _ o); [done..| |]; [done|].
    intros _. right. rewrite Hdirect, Hoo. auto.
  - by apply runs_ret.
  - by apply runs_throw.
Qed.

Lemma runs_aio_open p o cs :
  evolves cs0 cs → store cs !! p = Some o → open_rep o = false →
  runs (aio_open p) cs keeps fails.
Proof.
  intros Hev Hp Hcl.
  pose proof (objects_wf_evolves _ _ Hwf0 Hev) as [_ Hwf].
  unfold aio_open. apply (runs_deref_bind _ o); [done|].
  destruct (proxy_child o) as [c|] eqn:Hc.
  2: { eapply runs_mono; [by apply (runs_open_direct _ o)| |done].
       by intros _ cs' [? _]. }
  destruct (Hwf p o c Hp Hc) as (oc & Hoc & Hdirect).
  assert (p ≠ c) as Hne by (intros ->; congruence).
  apply (runs_deref_bind _ oc); [done|].
  apply (runs_bind _ _ _
           (λ _ cs1, evolves cs0 cs1 ∧ store cs1 !! p = Some o)).
  { apply runs_when; [intros Hop | by intros _].
    eapply runs_mono; [apply (runs_open_direct _ oc); [done..| |done]| |done].
    - by destruct (open_rep oc).
    - intros _ cs1 [Hev1 Hframe]. split; [done|]. by rewrite Hframe. }
  intros _ cs1 [Hev1 Hp1]. cbn beta.
  assert (is_Some (store cs1 !! c)) as [oc1 Hoc1].
  { apply (evolves_allocated _ _ _ Hev1), (evolves_allocated _ _ _ Hev). eauto. }
  apply (runs_deref_bind _ oc1); [done|].
  apply (runs_update _ _ o); [done|].
  eapply evolves_trans; [exact Hev1|].
  apply (evolves_insert _ _ o); [done..| |].
  - intros ?. congruence.
  - cbn. intros Hop. right. rewrite Hc. exists oc1.
    by rewrite lookup_insert_ne.
Qed.

Lemma runs_aio_position_in_samples p cs :
  evolves cs0 cs → is_Some (store cs0 !! p) →
  runs (aio_position_in_samples p) cs (reads cs) fails.
Proof.
  intros Hev [o0 Hp0].
  destruct (evolves_lookup _ _ _ _ Hev Hp0) as (o & Hp & Ht & _).
  unfold aio_position_in_samples. apply (runs_deref_bind _ o); [done|].
  rewrite (proxy_child_aio_type _ _ Ht).
  destruct (proxy_child o0) as [c|] eqn:Hc; [|done].
  destruct (proj2 Hwf0 p o0 c Hp0 Hc) as (oc0 & Hoc0 & _).
  destruct (evolves_lookup _ _ _ _ Hev Hoc0) as (oc & Hoc & _).
  by apply (runs_deref_bind _ oc).
Qed.

Lemma runs_aio_length_in_samples p cs :
  evolves cs0 cs → is_Some (store cs0 !! p) →
  runs (aio_length_in_samples p) cs (reads cs) fails.
Proof.
  intros Hev [o0 Hp0].
  destruct (evolves_lookup _ _ _ _ Hev Hp0) as (o & Hp & Ht & _).
  unfold aio_length_in_samples. apply (runs_deref_bind _ o); [done|].
  rewrite (proxy_child_aio_type _ _ Ht).
  destruct (proxy_child o0) as [c|] eqn:Hc; [|done].
  destruct (proj2 Hwf0 p o0 c Hp0 Hc) as (oc0 & Hoc0 & _).
  destruct (evolves_lookup _ _ _ _ Hev Hoc0) as (oc & Hoc & _).
  by apply (runs_deref_bind _ oc).
Qed.

Lemma runs_check_object_samplerate p r cs :
  evolves cs0 cs → is_Some (store cs0 !! p) →
  runs (check_object_samplerate p r) cs (reads cs) fails.
Proof.
  intros Hev [o0 Hp0].
  destruct (evolves_lookup _ _ _ _ Hev Hp0) as (o & Hp & _).
  unfold check_object_samplerate. apply (runs_deref_bind _ o); [done|].
  destruct (negb _); [by apply runs_throw | done].
Qed.

(** [enable_audio_object_helper] on an object of the chainsetup. *)
Lemma runs_enable_audio_object_helper p cs :
  evolves cs0 cs → is_Some (store cs0 !! p) →
  runs (enable_audio_object_helper p) cs keeps fails.
Proof.
  intros Hev Hp0.
  assert (∀ cs', evolves cs0 cs' → ∃ o, store cs' !! p = Some o) as Hat.
  { intros cs' Hev'. destruct Hp0 as [o0 Hp0].
    destruct (evolves_lookup _ _ _ _ Hev' Hp0) as (o & Hp & _). eauto. }
  unfold enable_audio_object_helper. apply runs_get_bind.
  eapply runs_bind; [by apply runs_aio_set_buffersize|].
  intros [] cs1 Hev1; cbn beta in Hev1 |- *.
  destruct (Hat _ Hev1) as [o1 Hp1].
  apply (runs_deref_bind _ o1); [done|].
  apply (runs_bind _ _ _ keeps).
  { apply runs_when; [intros _|done].
    eapply runs_bind; [by apply runs_benign_update|].
    intros [] cs2 Hev2; cbn beta in Hev2. by apply runs_benign_update. }
  intros _ cs2 Hev2. cbn beta.
  destruct (Hat _ Hev2) as [o2 Hp2].
  apply (runs_deref_bind _ o2); [done|].
  apply (runs_bind _ _ _ keeps).
  { apply runs_when; [intros Hcl|done].
    apply (runs_aio_open _ o2); [done..|]. by destruct (open_rep o2). }
  intros _ cs3 Hev3. cbn beta.
  destruct (Hat _ Hev3) as [o3 Hp3].
  apply (runs_deref_bind _ o3); [done|].
  apply runs_when; [intros _|done].
  eapply runs_bind; [by apply runs_aio_position_in_samples|].
  by intros ? cs4 ->.
Qed.

End steps.

Lemma opened_evolves cs cs' q : evolves cs cs' → opened cs q → opened cs' q.
Proof.
  intros Hev (o & Hq & Hop).
  destruct (evolves_lookup _ _ _ _ Hev Hq) as (o' & Hq' & _ & _ & Hm & _).
  exists o'. auto.
Qed.

Lemma opened_cannot_open cs q : opened cs q → cannot_open cs q → False.
Proof. intros (o & Hq & Hop) (o' & Hq' & Hcl & _). congruence. Qed.

Local Abbreviation keeps cs0 := (λ _ cs', evolves cs0 cs').
Local Abbreviation fails cs0 := (λ e cs', evolves cs0 cs' ∧ enable_exn e).

Lemma fails_evolves cs0 cs1 e cs' :
  evolves cs0 cs1 → fails cs1 e cs' → fails cs0 e cs'.
Proof. intros H01 [H1 He]. split; [by eapply evolves_trans|done]. Qed.

(** A loop whose body keeps the state. *)
Lemma runs_for_each_reads {A} (v : list A) (body : A → M unit) cs
    (E : exn → ECA_CHAINSETUP → Prop) :
  (∀ a, a ∈ v → runs (body a) cs (λ _ cs', cs' = cs) E) →
  runs (for_each v body) cs (λ _ cs', cs' = cs) E.
Proof.
  induction v as [|a v IH]; intros Hb; [done|]. cbn [for_each].
  eapply runs_bind; [apply Hb; left|].
  intros ? cs' ->. apply IH. intros b Hb'. apply Hb. by right.
Qed.

(** A loop whose body changes what [evolves] allows. *)
Lemma runs_for_each_keeps {A} (v : list A) (body : A → M unit) cs0 :
  (∀ a cs, a ∈ v → evolves cs0 cs → runs (body a) cs (keeps cs0) (fails cs0)) →
  ∀ cs, evolves cs0 cs → runs (for_each v body) cs (keeps cs0) (fails cs0).
Proof.
  induction v as [|a v IH]; intros Hb cs Hev; [done|]. cbn [for_each].
  eapply runs_bind; [by apply Hb; [left|]|].
  intros [] cs' Hev'; cbn beta in Hev'. apply IH; [|done].
  intros b cs2 Hb'. apply Hb. by right.
Qed.

(** The loops of steps 2 and 5: every object of the vector is open
    afterwards. *)
Lemma runs_open_loop (body : loc → M unit) (v : list loc) :
  (∀ cs q, objects_wf cs → q ∈ inputs cs ++ outputs cs →
     runs (body q) cs (λ _ cs', evolves cs cs' ∧ opened cs' q) (fails cs)) →
  ∀ cs0, objects_wf cs0 → (∀ q, q ∈ v → q ∈ inputs cs0 ++ outputs cs0) →
    runs (for_each v body) cs0
      (λ _ cs', evolves cs0 cs' ∧ ∀ q, q ∈ v → opened cs' q) (fails cs0).
Proof.
  intros Hb. induction v as [|a v IH]; intros cs0 Hwf0 Hv; cbn [for_each].
  - apply runs_ret. split; [apply evolves_refl|]. by intros q ?%elem_of_nil.
  - eapply runs_bind; [apply Hb; [done|apply Hv; left]|].
    intros [] cs1 [Hev1 Hop1]; cbn beta.
    eapply runs_mono.
    + apply IH; [by eapply objects_wf_evolves|].
      intros q Hq. destruct Hev1 as (-> & -> & _). apply Hv. by right.
    + intros [] cs2 [Hev2 Hop2]; cbn beta. split; [by eapply evolves_trans|].
      intros q [->|Hq]%elem_of_cons; [by eapply opened_evolves|by apply Hop2].
    + intros e cs2. by apply fails_evolves.
Qed.

Lemma runs_open_input cs q :
  objects_wf cs → q ∈ inputs cs ++ outputs cs →
  runs (enable_audio_object_helper q;;
        o ← deref q;
        when (negb (open_rep o))
          (throw (ECA_ERROR "ECA-CHAINSETUP"
                    "Open failed without explicit exception!")))
    cs (λ _ cs', evolves cs cs' ∧ opened cs' q) (fails cs).
Proof.
  intros Hwf Hq. pose proof (proj1 Hwf q Hq) as Hq0.
  eapply runs_bind;
    [by apply runs_enable_audio_object_helper; [|apply evolves_refl|]|].
  intros [] cs1 Hev1; cbn beta in Hev1 |- *.
  destruct Hq0 as [o0 Hq0].
  destruct (evolves_lookup _ _ _ _ Hev1 Hq0) as (o & Hq1 & _).
  apply (runs_deref_bind _ o); [done|].
  destruct (open_rep o) eqn:Hop; cbn [negb when].
  - apply runs_ret. split; [done|]. by exists o.
  - by apply runs_throw.
Qed.

Lemma runs_open_output cs q r :
  objects_wf cs → q ∈ inputs cs ++ outputs cs →
  runs (enable_audio_object_helper q;;
        o ← deref q;
        when (negb (open_rep o))
          (throw (ECA_ERROR "ECA-CHAINSETUP"
                    "Open failed without explicit exception!"));;
        check_object_samplerate q r)
    cs (λ _ cs', evolves cs cs' ∧ opened cs' q) (fails cs).
Proof.
  intros Hwf Hq. pose proof (proj1 Hwf q Hq) as Hq0.
  eapply runs_bind;
    [by apply runs_enable_audio_object_helper; [|apply evolves_refl|]|].
  intros [] cs1 Hev1; cbn beta in Hev1 |- *.
  destruct Hq0 as [o0 Hq0].
  destruct (evolves_lookup _ _ _ _ Hev1 Hq0) as (o & Hq1 & _).
  apply (runs_deref_bind _ o); [done|].
  destruct (open_rep o) eqn:Hop; cbn [negb when].
  - apply runs_ret_bind.
    eapply runs_mono;
      [by apply (runs_check_object_samplerate cs) with (cs := cs1); eauto| |done].
    intros ? cs2 ->. split; [done|]. by exists o.
  - by apply runs_throw_bind.
Qed.

Lemma runs_enable_open_inputs cs :
  objects_wf cs →
  runs enable_open_inputs cs
    (λ _ cs', evolves cs cs' ∧ ∀ q, q ∈ inputs cs → opened cs' q) (fails cs).
Proof.
  intros Hwf. unfold enable_open_inputs. apply runs_get_bind.
  apply runs_open_loop; [|done|].
  - intros cs1 q. apply runs_open_input.
  - intros q Hq. apply elem_of_app. by left.
Qed.

Lemma runs_enable_open_outputs r cs :
  objects_wf cs →
  runs (enable_open_outputs r) cs
    (λ _ cs', evolves cs cs' ∧ ∀ q, q ∈ outputs cs → opened cs' q) (fails cs).
Proof.
  intros Hwf. unfold enable_open_outputs. apply runs_get_bind.
  apply runs_open_loop; [|done|].
  - intros cs1 q. apply runs_open_output.
  - intros q Hq. apply elem_of_app. by right.
Qed.

(** Step 3 reads the objects. *)
Lemma runs_enable_check_input_rates cs :
  objects_wf cs →
  runs enable_check_input_rates cs (λ _ cs', cs' = cs) (fails cs).
Proof.
  intros Hwf. unfold enable_check_input_rates. apply runs_get_bind.
  destruct (inputs cs) as [|q0 rest] eqn:Hin; [done|].
  assert (∀ q, q ∈ q0 :: rest → is_Some (store cs !! q)) as Hall.
  { intros q Hq. apply (proj1 Hwf). rewrite Hin. apply elem_of_app. by left. }
  destruct (Hall q0) as [o0 Hq0]; [left|].
  apply (runs_deref_bind _ o0); [done|].
  eapply runs_bind.
  - apply runs_for_each_reads. intros q Hq.
    apply runs_check_object_samplerate; [apply evolves_refl|].
    apply Hall. by right.
  - by intros [] cs' ->.
Qed.

(** Step 4 *)
Lemma runs_cs_set_samples_per_second r cs :
  objects_wf cs →
  runs (cs_set_samples_per_second r) cs (keeps cs) (fails cs).
Proof.
  intros Hwf. unfold cs_set_samples_per_second. apply runs_get_bind.
  assert (∀ v cs1, (∀ q, q ∈ v → q ∈ inputs cs ++ outputs cs) →
            evolves cs cs1 →
            runs (for_each v (λ q, update q (set_samples_per_second r))) cs1
              (keeps cs) (fails cs)) as Hloop.
  { intros v cs1 Hv. apply runs_for_each_keeps. intros q cs2 Hq Hev.
    apply runs_benign_update; [done|by apply (proj1 Hwf), Hv|done]. }
  eapply runs_bind.
  { apply Hloop; [|apply evolves_refl]. intros q Hq. apply elem_of_app. by left. }
  intros [] cs1 Hev1; cbn beta in Hev1 |- *.
  eapply runs_bind.
  { apply Hloop; [|done]. intros q Hq. apply elem_of_app. by right. }
  intros [] cs2 Hev2; cbn beta in Hev2 |- *.
  apply runs_modify. eapply evolves_trans; [exact Hev2|]. by apply evolves_same.
Qed.

(** Steps 6 and 7 *)
Lemma runs_enable_midi_devices cs0 (todo : list MIDI_IO) : ∀ done cs,
  evolves cs0 cs →
  runs (enable_midi_devices done todo) cs (keeps cs0) (fails cs0).
Proof.
  induction todo as [|q todo IH]; intros done' cs Hev; cbn [enable_midi_devices].
  - apply runs_modify. eapply evolves_trans; [exact Hev|]. by apply evolves_same.
  - destruct (midi_open_rep _) eqn:Hop; [by apply IH|].
    unfold runs, mbind, M_bind, modify, throw. split; [|done].
    eapply evolves_trans; [exact Hev|]. by apply evolves_same.
Qed.

Lemma runs_enable_midi cs : runs enable_midi cs (keeps cs) (fails cs).
Proof.
  unfold enable_midi. apply runs_get_bind.
  eapply (runs_bind _ _ _ (keeps cs)).
  - apply runs_when; [intros _|intros _; apply evolves_refl].
    apply runs_modify. by apply evolves_same.
  - intros [] cs1 Hev1. by apply runs_enable_midi_devices.
Qed.

(** Step 8 *)
Lemma runs_max_input_length_loop cs (v : list loc) : ∀ acc,
  objects_wf cs → (∀ q, q ∈ v → q ∈ inputs cs ++ outputs cs) →
  runs (max_input_length_loop v acc) cs (λ _ cs', cs' = cs) (fails cs).
Proof.
  induction v as [|q v IH]; intros acc Hwf Hv; cbn [max_input_length_loop]; [done|].
  eapply runs_bind.
  - apply runs_aio_length_in_samples; [done|apply evolves_refl|].
    apply (proj1 Hwf), Hv. by left.
  - intros len cs' ->. apply IH; [done|]. intros q' Hq'. apply Hv. by right.
Qed.

Lemma runs_calculate_processing_length cs :
  objects_wf cs →
  runs calculate_processing_length cs (keeps cs) (fails cs).
Proof.
  intros Hwf. unfold calculate_processing_length. apply runs_get_bind.
  eapply runs_bind.
  - apply runs_max_input_length_loop; [done|].
    intros q Hq. apply elem_of_app. by left.
  - intros len cs' ->. apply runs_when; [intros _|intros _; apply evolves_refl].
    apply runs_modify. by apply evolves_same.
Qed.

(** The steps after the buffering mode: either every object of the two
    vectors is open afterwards, or an error of the chainsetup or a
    setup error of an object is thrown. *)
Lemma runs_enable_objects cs :
  objects_wf cs →
  runs enable_objects cs
    (λ _ cs', evolves cs cs' ∧ ∀ q, q ∈ inputs cs ++ outputs cs → opened cs' q)
    (fails cs).
Proof.
  intros Hwf. unfold enable_objects.
  eapply runs_bind; [by apply runs_enable_open_inputs|].
  intros [] cs1 [Hev1 Hin]; cbn beta.
  pose proof (objects_wf_evolves _ _ Hwf Hev1) as Hwf1.
  eapply runs_bind.
  { eapply runs_mono; [by apply runs_enable_check_input_rates|..].
    - intros r cs2 H. exact H.
    - intros e cs2. by apply fails_evolves. }
  intros r cs2 ->; cbn beta.
  eapply runs_bind.
  { eapply runs_mono; [by apply runs_cs_set_samples_per_second|..].
    - intros a cs2 H. exact H.
    - intros e cs2. by apply fails_evolves. }
  intros [] cs2 Hev2; cbn beta in Hev2 |- *.
  pose proof (objects_wf_evolves _ _ Hwf1 Hev2) as Hwf2.
  pose proof (evolves_trans _ _ _ Hev1 Hev2) as Hev02.
  eapply runs_bind.
  { eapply runs_mono; [by apply runs_enable_open_outputs|..].
    - intros a cs3 H. exact H.
    - intros e cs3. by apply fails_evolves. }
  intros [] cs3 [Hev3 Hout]; cbn beta.
  pose proof (objects_wf_evolves _ _ Hwf2 Hev3) as Hwf3.
  pose proof (evolves_trans _ _ _ Hev02 Hev3) as Hev03.
  eapply runs_bind.
  { eapply runs_mono; [by apply runs_enable_midi|..].
    - intros a cs4 H. exact H.
    - intros e cs4. by apply fails_evolves. }
  intros [] cs4 Hev4; cbn beta in Hev4 |- *.
  pose proof (objects_wf_evolves _ _ Hwf3 Hev4) as Hwf4.
  pose proof (evolves_trans _ _ _ Hev03 Hev4) as Hev04.
  eapply runs_mono; [by apply runs_calculate_processing_length|..].
  - intros [] cs5 Hev5; cbn beta in Hev5. split; [by eapply evolves_trans|].
    intros q [Hq|Hq]%elem_of_app.
    + apply (opened_evolves cs1); [|by apply Hin].
      eapply evolves_trans; [exact Hev2|]. eapply evolves_trans; [exact Hev3|].
      by eapply evolves_trans.
    + apply (opened_evolves cs3); [by eapply evolves_trans|].
      apply Hout. by destruct Hev02 as (_ & -> & _).
  - intros e cs5. by apply fails_evolves.
Qed.

Lemma objects_wfb_correct cs : objects_wfb cs = true → objects_wf cs.
Proof.
  unfold objects_wfb. intros [Hv Hc]%andb_true_iff.
  rewrite forallb_forall in Hv, Hc. split.
  - intros p Hp. apply list_elem_of_In, Hv in Hp. by apply bool_decide_eq_true in Hp.
  - intros p o c Hp Hch. apply elem_of_map_to_list, list_elem_of_In, Hc in Hp.
    cbn in Hp. rewrite Hch in Hp.
    destruct (store cs !! c) as [oc|]; [|done].
    apply bool_decide_eq_true in Hp. by exists oc.
Qed.

(** [enable] on a chainsetup that is not enabled. *)
Lemma run_enable cs :
  is_enabled_rep cs = false →
  enable cs
  = match (enable_buffering;; enable_objects) cs with
    | Ok _ cs' => Ok tt (set_is_enabled_rep true cs')
    | Throw (SETUP_ERROR message) cs' =>
        Throw (ECA_ERROR "ECA-CHAINSETUP" ("Enabling chainsetup: " +:+ message)) cs'
    | Throw e cs' => Throw e cs'
    | Undefined => Undefined
    end.
Proof.
  intros Hen. unfold enable, try_catch.
  rewrite (run_bind_Ok _ _ _ _ _ (run_get cs)), Hen. cbn [negb when].
  rewrite run_bind.
  destruct ((enable_buffering;; enable_objects) cs) as [[] cs'|[m|s m] cs'|]; done.
Qed.

Lemma is_enabled_rep_after_buffering cs cs0 :
  enable_buffering cs = Ok tt cs0 → is_enabled_rep cs0 = is_enabled_rep cs.
Proof.
  intros Hrun.
  pose proof (is_enabled_rep_enable_buffering (is_enabled_rep cs) cs eq_refl) as H.
  by rewrite Hrun in H.
Qed.

(** The common-rate check on objects that exist: it throws at the first
    object whose rate is not [r]. *)
Lemma run_check_rates r cs (rest : list loc) :
  (∀ q, q ∈ rest → is_Some (store cs !! q)) →
  (∃ q o, q ∈ rest ∧ store cs !! q = Some o ∧ samples_per_second o ≠ r) →
  ∃ q o, q ∈ rest ∧ store cs !! q = Some o ∧ samples_per_second o ≠ r
         ∧ for_each rest (λ q, check_object_samplerate q r) cs
           = Throw (ECA_ERROR "ECA-CHAINSETUP"
                      (samplerate_message (label o) (samples_per_second o) r))
               cs.
Proof.
  induction rest as [|a rest IH]; intros Hall (q & o & Hq & Hqo & Hne).
  { by apply elem_of_nil in Hq. }
  destruct (Hall a) as [oa Ha]; [left|].
  cbn [for_each]. rewrite run_bind. unfold check_object_samplerate at 1.
  rewrite (run_bind_Ok _ _ _ _ _ (run_deref _ _ _ Ha)).
  destruct (samples_per_second oa =? r) eqn:Hr; cbn [negb].
  - apply Z.eqb_eq in Hr. rewrite run_ret.
    destruct IH as (q' & o' & Hq' & Hqo' & Hne' & Hrun).
    + intros x Hx. apply Hall. by right.
    + apply elem_of_cons in Hq as [->|Hq]; [congruence|]. by exists q, o.
    + exists q', o'. split; [by right|]. done.
  - apply Z.eqb_neq in Hr. exists a, oa. split; [left|]. done.
Qed.

Lemma string_app_assoc (a b c : string) : (a +:+ b) +:+ c = a +:+ b +:+ c.
Proof.
  induction a as [|x a IH]; [reflexivity|].
  change (String x ((a +:+ b) +:+ c) = String x (a +:+ b +:+ c)).
  by rewrite IH.
Qed.

(** [kvu_numtostr] gives different numerals for different numbers. *)
Lemma kvu_numtostr_inj (a b : Z) : kvu_numtostr a = kvu_numtostr b → a = b.
Proof.
  assert (∀ z, DecimalString.NilZero.int_of_string (kvu_numtostr z)
               = Some (Z.to_int z)) as Hback.
  { intros z. unfold kvu_numtostr.
    pose proof (DecimalZ.to_of (Z.to_int z)) as Hn.
    rewrite DecimalZ.of_to in Hn.
    apply DecimalString.NilZero.isi; rewrite Hn;
      destruct (Z.to_int z) as [d|d]; unfold Decimal.norm;
      try (by destruct (Decimal.nzhead d)); try discriminate;
      intros [= E]; by apply DecimalFacts.unorm_nonnil in E. }
  intros E. apply DecimalZ.to_int_inj.
  pose proof (Hback a) as Ha. rewrite E, Hback in Ha. by injection Ha.
Qed.

(** C3.  A chainsetup that is not enabled, whose objects exist once the
    buffering mode is applied, and whose inputs all open, one of them
    with a sampling rate that is not the rate of the first input:
    [enable] throws the error of [check_object_samplerate] for such an
    input.  Its message is the text of the source around the label of
    that input, the numeral of its rate and the numeral of the rate of
    the first input; both numerals occur in it and they differ.  The
    chainsetup is left as it is after the inputs were opened, the
    enabled flag still false. *)
Theorem enable_rate_mismatch cs cs0 cs1 q0 rest o0 :
  is_enabled_rep cs = false →
  enable_buffering cs = Ok tt cs0 →
  objects_wf cs0 →
  enable_open_inputs cs0 = Ok tt cs1 →
  inputs cs1 = q0 :: rest →
  store cs1 !! q0 = Some o0 →
  (∃ q o, q ∈ rest ∧ store cs1 !! q = Some o
          ∧ samples_per_second o ≠ samples_per_second o0) →
  ∃ q o message,
    q ∈ rest ∧ store cs1 !! q = Some o
    ∧ samples_per_second o ≠ samples_per_second o0
    ∧ enable cs = Throw (ECA_ERROR "ECA-CHAINSETUP" message) cs1
    ∧ message
      = "All audio objects must have a common"
        +:+ " sampling rate; sampling rate of audio object '"
        +:+ label o
        +:+ "' differs from engine rate ("
        +:+ kvu_numtostr (samples_per_second o)
        +:+ " <-> "
        +:+ kvu_numtostr (samples_per_second o0)
        +:+ "); unable to continue."
    ∧ occurs_in (kvu_numtostr (samples_per_second o)) message
    ∧ occurs_in (kvu_numtostr (samples_per_second o0)) message
    ∧ kvu_numtostr (samples_per_second o)
      ≠ kvu_numtostr (samples_per_second o0)
    ∧ is_enabled_rep cs1 = false.
Proof.
  intros Hen Hbuf Hwf0 Hopen Hin Hq0 Hdiff.
  pose proof (runs_enable_open_inputs cs0 Hwf0) as Hruns.
  unfold runs in Hruns. rewrite Hopen in Hruns. destruct Hruns as [Hev1 _].
  pose proof (objects_wf_evolves _ _ Hwf0 Hev1) as Hwf1.
  destruct (run_check_rates (samples_per_second o0) cs1 rest)
    as (q & o & Hq & Hqo & Hne & Hrun); [|done|].
  { intros q Hq. apply (proj1 Hwf1). rewrite Hin. apply elem_of_app. left. by right. }
  exists q, o, (samplerate_message (label o) (samples_per_second o)
                  (samples_per_second o0)).
  split_and!; [done..| | | | | |].
  - rewrite (run_enable _ Hen), (run_bind_Ok _ _ _ _ _ Hbuf).
    unfold enable_objects. rewrite (run_bind_Ok _ _ _ _ _ Hopen), run_bind.
    unfold enable_check_input_rates.
    rewrite (run_bind_Ok _ _ _ _ _ (run_get cs1)), Hin.
    rewrite (run_bind_Ok _ _ _ _ _ (run_deref _ _ _ Hq0)).
    by rewrite run_bind, Hrun.
  - reflexivity.
  - unfold samplerate_message.
    exists ("All audio objects must have a common"
            +:+ " sampling rate; sampling rate of audio object '"
            +:+ label o +:+ "' differs from engine rate ("),
      (" <-> " +:+ kvu_numtostr (samples_per_second o0)
       +:+ "); unable to continue.").
    by rewrite !string_app_assoc.
  - unfold samplerate_message.
    exists ("All audio objects must have a common"
            +:+ " sampling rate; sampling rate of audio object '"
            +:+ label o +:+ "' differs from engine rate ("
            +:+ kvu_numtostr (samples_per_second o) +:+ " <-> "),
      "); unable to continue.".
    by rewrite !string_app_assoc.
  - intros E. by apply Hne, kvu_numtostr_inj.
  - destruct Hev1 as (_ & _ & -> & _).
    by rewrite (is_enabled_rep_after_buffering _ _ Hbuf).
Qed.

Lemma enable_rate_mismatch_witness :
  ∃ cs',
    enable two_rates
    = Throw (ECA_ERROR "ECA-CHAINSETUP"
               "All audio objects must have a common sampling rate; sampling rate of audio object 'b.wav' differs from engine rate (48000 <-> 44100); unable to continue.")
        cs'
    ∧ is_enabled_rep cs' = false.
Proof.
  edestruct (enable_rate_mismatch two_rates)
    as (q & o & message & Hq & Hqo & _ & Hrun & Hmsg & _ & _ & _ & Hen).
  - reflexivity.
  - vm_compute. reflexivity.
  - apply objects_wfb_correct. vm_compute. reflexivity.
  - vm_compute. reflexivity.
  - vm_compute. reflexivity.
  - vm_compute. reflexivity.
  - exists 2%positive. eexists. split; [left|].
    split; [vm_compute; reflexivity|]. vm_compute. discriminate.
  - apply elem_of_cons in Hq as [Hq|Hq];
      [|destruct (proj1 (elem_of_nil _) Hq)].
    rewrite Hq in Hqo. vm_compute in Hqo. injection Hqo as Ho.
    rewrite <-Ho in Hmsg. vm_compute in Hmsg. rewrite Hmsg in Hrun.
    eexists. split; [exact Hrun | exact Hen].
Defined.

(** C4.  A chainsetup that is not enabled, whose objects exist once the
    buffering mode is applied, and with an input or an output that
    cannot be opened (its [open], or for a proxy the [open] of its
    direct object, throws or leaves the object closed): [enable] throws
    an [ECA_ERROR] of section ECA-CHAINSETUP and the enabled flag is
    false afterwards. *)
Theorem enable_open_failure cs cs0 q :
  is_enabled_rep cs = false →
  enable_buffering cs = Ok tt cs0 →
  objects_wf cs0 →
  q ∈ inputs cs0 ++ outputs cs0 →
  cannot_open cs0 q →
  ∃ message cs',
    enable cs = Throw (ECA_ERROR "ECA-CHAINSETUP" message) cs'
    ∧ is_enabled_rep cs' = false.
Proof.
  intros Hen Hbuf Hwf0 Hq Hfail.
  pose proof (runs_enable_objects cs0 Hwf0) as Hruns. unfold runs in Hruns.
  rewrite (run_enable _ Hen), (run_bind_Ok _ _ _ _ _ Hbuf).
  destruct (enable_objects cs0) as [[] cs'|e cs'|]; [| |done].
  - destruct Hruns as [Hev Hall].
    destruct (opened_cannot_open cs' q); [by apply Hall|].
    by apply (cannot_open_evolves cs0).
  - destruct Hruns as [Hev He].
    assert (is_enabled_rep cs' = false) as Hen'.
    { destruct Hev as (_ & _ & -> & _).
      by rewrite (is_enabled_rep_after_buffering _ _ Hbuf). }
    destruct e as [m|s m]; [by eexists _, _|].
    cbn in He. subst s. by eexists _, _.
Qed.

Lemma enable_open_failure_witness :
  ∃ message cs',
    enable broken_output = Throw (ECA_ERROR "ECA-CHAINSETUP" message) cs'
    ∧ is_enabled_rep cs' = false.
Proof.
  eapply (enable_open_failure broken_output _ 2%positive).
  - reflexivity.
  - vm_compute. reflexivity.
  - apply objects_wfb_correct. vm_compute. reflexivity.
  - vm_compute. right. left.
  - eexists. split; [vm_compute; reflexivity|]. split; [reflexivity|].
    vm_compute. exact I.
Defined.

End enabling.

(** ** The chainsetup: chains, modes and devices *)

Section chains.
Import chainsetup.
Local Open Scope Z_scope.

Implicit Types (cs : ECA_CHAINSETUP) (q : CHAIN) (qs : list CHAIN)
  (a name : string) (sel : list string).

Lemma string_eqb_true a b : String.eqb a b = true ↔ a = b.
Proof. apply String.eqb_eq. Qed.

Lemma string_eqb_false a b : String.eqb a b = false ↔ a ≠ b.
Proof. apply String.eqb_neq. Qed.

Lemma chain_names_loop_spec qs : ∀ result,
  chain_names_loop qs result = result ++ (chainname <$> qs).
Proof.
  induction qs as [|q qs IH]; intros result; cbn; [by rewrite app_nil_r|].
  by rewrite IH, <-app_assoc.
Qed.

Lemma chain_names_fmap cs : chain_names cs = chainname <$> chains cs.
Proof. apply chain_names_loop_spec. Qed.

Lemma run_add_chain_helper (new_CHAIN : CHAIN) name cs :
  add_chain_helper new_CHAIN name cs
  = Ok tt (set_chains (chains cs ++ [set_chainname name new_CHAIN]) cs).
Proof.
  unfold add_chain_helper. rewrite run_bind, run_modify, run_modify.
  cbn [chains set_chains]. f_equal.
  destruct (chains cs ++ [new_CHAIN]) as [|q0 l0] eqn:E.
  { by destruct (chains cs). }
  rewrite <-E. rewrite last_last, length_app. cbn [length].
  replace (length (chains cs) + 1 - 1)%nat with (length (chains cs) + 0)%nat by lia.
  by rewrite insert_app_r.
Qed.

Lemma chain_exists_loop_spec a qs : ∀ e : bool,
  chain_exists_loop a qs e = e || bool_decide (a ∈ chainname <$> qs).
Proof.
  induction qs as [|q qs IH]; intros e; cbn [chain_exists_loop].
  - cbn. rewrite bool_decide_eq_false_2 by apply not_elem_of_nil.
    by rewrite orb_false_r.
  - rewrite IH. rewrite fmap_cons.
    destruct (String.eqb a (chainname q)) eqn:E.
    + apply string_eqb_true in E.
      rewrite (bool_decide_eq_true_2 (a ∈ chainname q :: _)) by (rewrite E; left).
      by rewrite orb_true_r.
    + apply string_eqb_false in E. destruct e; [done|]. cbn.
      apply bool_decide_ext. rewrite elem_of_cons. split; [by right|by intros [?|?]].
Qed.

(** [add_new_chains] appends chains. *)
Lemma run_add_new_chains (new_CHAIN : CHAIN) (newchains : list string) : ∀ cs,
  ∃ added,
    add_new_chains new_CHAIN newchains cs
    = Ok tt (set_chains (chains cs ++ added) cs)
    ∧ Forall (λ q, q = set_chainname (chainname q) new_CHAIN
                   ∧ chainname q ∈ newchains
                   ∧ chainname q ∉ chainname <$> chains cs) added
    ∧ NoDup (chainname <$> added)
    ∧ (∀ n, n ∈ newchains → n ∈ chainname <$> (chains cs ++ added)).
Proof.
  induction newchains as [|p newchains IH]; intros cs.
  - exists []. rewrite app_nil_r. split; [by rewrite set_chains_id|].
    split; [done|]. split; [constructor|]. by intros n ?%elem_of_nil.
  - unfold add_new_chains. cbn [for_each]. fold (add_new_chains new_CHAIN newchains).
    rewrite run_bind. rewrite (run_bind_Ok _ _ _ _ _ (run_get cs)).
    rewrite chain_exists_loop_spec. cbn [orb].
    case_bool_decide as Hp; cbn [negb when].
    + rewrite run_ret. destruct (IH cs) as (added & -> & Hadded & Hnd & Hall).
      exists added. split; [done|]. split.
      { eapply Forall_impl; [exact Hadded|]. intros q (? & ? & ?).
        split_and!; [done| by right |done]. }
      split; [done|]. intros n [->|Hn]%elem_of_cons; [|by apply Hall].
      rewrite fmap_app. apply elem_of_app. by left.
    + rewrite run_add_chain_helper.
      destruct (IH (set_chains (chains cs ++ [set_chainname p new_CHAIN]) cs))
        as (added & -> & Hadded & Hnd & Hall).
      cbn [chains set_chains] in *.
      exists (set_chainname p new_CHAIN :: added).
      split; [by rewrite <-app_assoc|]. split.
      { constructor; [split_and!; [done|by left|done]|].
        eapply Forall_impl; [exact Hadded|]. intros q (? & ? & Hq).
        split_and!; [done|by right|].
        intros Hin. apply Hq. rewrite fmap_app. apply elem_of_app. by left. }
      split.
      { cbn. constructor; [|done]. intros Hin.
        apply list_elem_of_fmap in Hin as (q & Hq & Hqin).
        rewrite Forall_forall in Hadded.
        destruct (Hadded q Hqin) as (_ & _ & Hno). apply Hno.
        rewrite fmap_app. apply elem_of_app. right. rewrite <-Hq. by left. }
      intros n [->|Hn]%elem_of_cons.
      * rewrite fmap_app. apply elem_of_app. right. by left.
      * specialize (Hall n Hn). by rewrite <-app_assoc in Hall.
Qed.

(** X16.  [add_new_chains] returns; it keeps the chains that are there
    and appends chains made by [CHAIN()] and given names of the list,
    so that every name of the list is the name of a chain afterwards;
    and chain names that differ from each other before still do
    afterwards. *)
Theorem add_new_chains_spec (new_CHAIN : CHAIN) (newchains : list string) cs :
  ∃ cs' added,
    add_new_chains new_CHAIN newchains cs = Ok tt cs'
    ∧ chains cs' = chains cs ++ added
    ∧ Forall (λ q, q = set_chainname (chainname q) new_CHAIN
                   ∧ chainname q ∈ newchains) added
    ∧ (∀ n, n ∈ newchains → n ∈ chain_names cs')
    ∧ (NoDup (chain_names cs) → NoDup (chain_names cs')).
Proof.
  destruct (run_add_new_chains new_CHAIN newchains cs)
    as (added & Hrun & Hadded & Hnd & Hall).
  eexists _, added. split; [exact Hrun|]. split; [done|].
  rewrite !chain_names_fmap. cbn [chains set_chains]. split_and!.
  - eapply Forall_impl; [exact Hadded|]. by intros q (? & ? & _).
  - exact Hall.
  - intros Hcs. rewrite fmap_app. apply NoDup_app. split; [done|].
    split; [|done]. intros n Hn Hn'.
    apply list_elem_of_fmap in Hn' as (q & -> & Hq).
    rewrite Forall_forall in Hadded. by destruct (Hadded q Hq) as (_ & _ & Hno).
Qed.

Lemma add_new_chains_spec_witness :
  ∃ cs',
    add_new_chains (example_chain "") ["c2"; "drums"; "drums"] (scenario_B true)
    = Ok tt cs'
    ∧ chain_names cs' = ["c1"; "c2"; "drums"]
    ∧ NoDup (chain_names cs').
Proof.
  destruct (add_new_chains_spec (example_chain "") ["c2"; "drums"; "drums"]
              (scenario_B true))
    as (cs' & added & Hrun & _ & _ & _ & Hnd).
  exists cs'. split; [exact Hrun|].
  vm_compute in Hrun. injection Hrun as <-. split; [reflexivity|].
  apply Hnd. vm_compute.
  repeat (constructor;
          [intros H; repeat (apply elem_of_cons in H as [H|H]; [discriminate|]);
           by apply elem_of_nil in H|]).
  constructor.
Defined.

(** *** Removing, selecting and renaming chains *)

Lemma run_remove_chains_loop sel : ∀ cs,
  for_each sel (λ a,
    modify (λ cs, set_chains (erase_first_named a (chains cs)) cs)) cs
  = Ok tt (set_chains (foldl (λ qs a, erase_first_named a qs) (chains cs) sel) cs).
Proof.
  induction sel as [|a sel IH]; intros cs; cbn [for_each foldl].
  - by rewrite set_chains_id.
  - rewrite run_bind, run_modify, IH. done.
Qed.

Lemma run_remove_chains cs :
  remove_chains cs
  = Ok tt (set_selected_chainids []
             (set_chains (foldl (λ qs a, erase_first_named a qs) (chains cs)
                            (selected_chainids cs)) cs)).
Proof.
  unfold remove_chains. rewrite (run_bind_Ok _ _ _ _ _ (run_get cs)).
  by rewrite run_bind, run_remove_chains_loop, run_modify.
Qed.

Lemma filter_all {A} (P : A → Prop) `{∀ x, Decision (P x)} (l : list A) :
  Forall P l → filter P l = l.
Proof.
  induction 1 as [|x l Hx Hl IH]; [done|].
  by rewrite filter_cons_True, IH.
Qed.

Lemma erase_first_named_filter a qs :
  NoDup (chainname <$> qs) →
  erase_first_named a qs = filter (λ q, chainname q ≠ a) qs.
Proof.
  induction qs as [|q qs IH]; [done|]. rewrite fmap_cons.
  intros [Hq Hnd]%NoDup_cons. cbn [erase_first_named].
  destruct (String.eqb a (chainname q)) eqn:E.
  - apply string_eqb_true in E as ->.
    rewrite filter_cons_False by (by intros H; apply H).
    symmetry. apply filter_all. apply Forall_forall. intros q' Hq' E.
    apply Hq. rewrite <-E. by apply list_elem_of_fmap_2.
  - apply string_eqb_false in E.
    rewrite filter_cons_True by done. by rewrite IH.
Qed.

Lemma erase_first_named_names a b qs :
  a ≠ b → a ∈ chainname <$> qs → a ∈ chainname <$> erase_first_named b qs.
Proof.
  intros Hab. induction qs as [|q qs IH]; [done|]. rewrite fmap_cons.
  intros Hin. cbn [erase_first_named].
  destruct (String.eqb b (chainname q)) eqn:E.
  - apply string_eqb_true in E as ->.
    by apply elem_of_cons in Hin as [?|?].
  - rewrite fmap_cons. apply elem_of_cons in Hin as [->|Hin]; [left|right; auto].
Qed.

Lemma erase_first_named_length a qs :
  a ∈ chainname <$> qs →
  S (length (erase_first_named a qs)) = length qs.
Proof.
  induction qs as [|q qs IH]; [by intros ?%elem_of_nil|]. rewrite fmap_cons.
  intros Hin. cbn [erase_first_named].
  destruct (String.eqb a (chainname q)) eqn:E; [done|].
  apply string_eqb_false in E. cbn [length]. f_equal. apply IH.
  by apply elem_of_cons in Hin as [?|?].
Qed.

Lemma erase_first_named_NoDup a qs :
  NoDup (chainname <$> qs) → NoDup (chainname <$> erase_first_named a qs).
Proof.
  intros Hnd. rewrite erase_first_named_filter by done.
  induction qs as [|q qs IH]; [done|].
  rewrite fmap_cons in Hnd. apply NoDup_cons in Hnd as [Hq Hnd].
  destruct (decide (chainname q ≠ a)).
  - rewrite filter_cons_True by done. rewrite fmap_cons. apply NoDup_cons.
    split; [|by apply IH]. intros Hin. apply Hq.
    apply list_elem_of_fmap in Hin as (q' & -> & Hq').
    apply list_elem_of_fmap_2. by apply list_elem_of_filter in Hq' as [_ ?].
  - rewrite filter_cons_False by done. by apply IH.
Qed.

Lemma remove_fold_filter sel : ∀ qs,
  NoDup (chainname <$> qs) →
  foldl (λ qs a, erase_first_named a qs) qs sel
  = filter (λ q, chainname q ∉ sel) qs.
Proof.
  induction sel as [|a sel IH]; intros qs Hnd; cbn [foldl].
  - symmetry. apply filter_all, Forall_forall. intros q _. apply not_elem_of_nil.
  - rewrite IH by (by apply erase_first_named_NoDup).
    rewrite erase_first_named_filter by done.
    rewrite list_filter_filter. apply list_filter_iff. intros q.
    rewrite not_elem_of_cons. tauto.
Qed.

Lemma remove_fold_length sel : ∀ qs,
  NoDup sel → (∀ a, a ∈ sel → a ∈ chainname <$> qs) →
  (length (foldl (λ qs a, erase_first_named a qs) qs sel) + length sel
   = length qs)%nat.
Proof.
  induction sel as [|a sel IH]; intros qs Hnd Hsub; cbn [foldl length]; [lia|].
  apply NoDup_cons in Hnd as [Ha Hnd].
  rewrite Nat.add_succ_r, IH; [|done|].
  - apply erase_first_named_length, Hsub. left.
  - intros b Hb. apply erase_first_named_names; [by intros ->|].
    apply Hsub. by right.
Qed.

Lemma remove_fold_all qs :
  foldl (λ qs a, erase_first_named a qs) qs (chainname <$> qs) = [].
Proof.
  induction qs as [|q qs IH]; [done|]. cbn [fmap list_fmap foldl erase_first_named].
  by rewrite String.eqb_refl.
Qed.

(** X17.  [remove_chains] returns and leaves no chain selected.  With
    selected names that differ from each other and are all names of
    chains, it removes as many chains as names are selected; with chain
    names that differ from each other, the chains left are those whose
    name is not selected. *)
Theorem remove_chains_spec cs :
  ∃ cs',
    remove_chains cs = Ok tt cs'
    ∧ selected_chainids cs' = []
    ∧ (NoDup (selected_chainids cs) →
       (∀ a, a ∈ selected_chainids cs → a ∈ chain_names cs) →
       (length (chains cs') + length (selected_chainids cs)
        = length (chains cs))%nat)
    ∧ (NoDup (chain_names cs) →
       chains cs' = filter (λ q, chainname q ∉ selected_chainids cs) (chains cs)).
Proof.
  eexists. split; [apply run_remove_chains|]. cbn. split; [done|].
  rewrite chain_names_fmap. split.
  - apply remove_fold_length.
  - apply remove_fold_filter.
Qed.

Lemma remove_chains_spec_witness :
  ∃ cs', remove_chains (scenario_B true) = Ok tt cs' ∧ chains cs' = [].
Proof.
  destruct (remove_chains_spec (scenario_B true))
    as (cs' & Hrun & _ & _ & Hleft).
  exists cs'. split; [exact Hrun|]. rewrite Hleft; [reflexivity|].
  vm_compute.
  repeat (constructor;
          [intros H; repeat (apply elem_of_cons in H as [H|H]; [discriminate|]);
           by apply elem_of_nil in H|]).
  constructor.
Defined.

Lemma run_select_all_chains_loop qs : ∀ cs,
  for_each qs (λ p,
    modify (λ cs,
      set_selected_chainids (selected_chainids cs ++ [chainname p]) cs)) cs
  = Ok tt (set_selected_chainids (selected_chainids cs ++ (chainname <$> qs)) cs).
Proof.
  induction qs as [|q qs IH]; intros cs; cbn [for_each].
  - rewrite app_nil_r. by destruct cs.
  - rewrite run_bind, run_modify, IH. cbn. by rewrite <-app_assoc.
Qed.

Lemma run_select_all_chains cs :
  select_all_chains cs
  = Ok tt (set_selected_chainids (chainname <$> chains cs) cs).
Proof.
  unfold select_all_chains. rewrite run_bind, run_modify.
  rewrite (run_bind_Ok _ _ _ _ _ (run_get _)).
  by rewrite run_select_all_chains_loop.
Qed.

(** X18.  [select_all_chains] selects the names of the chains, in the
    order of the chains; [remove_chains] right after it leaves no
    chain, also when several chains share a name. *)
Theorem select_all_then_remove_chains cs :
  (∃ cs1, select_all_chains cs = Ok tt cs1
          ∧ selected_chainids cs1 = chain_names cs
          ∧ chains cs1 = chains cs)
  ∧ ∃ cs', (select_all_chains;; remove_chains) cs = Ok tt cs'
           ∧ chains cs' = [] ∧ selected_chainids cs' = [].
Proof.
  split.
  - eexists. split; [apply run_select_all_chains|].
    by rewrite chain_names_fmap.
  - eexists. split.
    + rewrite run_bind, run_select_all_chains. apply run_remove_chains.
    + cbn. split; [apply remove_fold_all|done].
Qed.

Lemma first_named_from_spec a qs : ∀ p : nat,
  match first_named_from a qs p with
  | inl i =>
      ∃ (k : nat) q, i = (p + k)%nat ∧ qs !! k = Some q ∧ chainname q = a
  | inr p' => p' = (p + length qs)%nat ∧ a ∉ chainname <$> qs
  end.
Proof.
  induction qs as [|q qs IH]; intros p; cbn [first_named_from].
  - split; [cbn; lia|apply not_elem_of_nil].
  - destruct (String.eqb (chainname q) a) eqn:E.
    + apply string_eqb_true in E. exists 0%nat, q. split; [lia|done].
    + apply string_eqb_false in E. specialize (IH (S p)).
      destruct (first_named_from a qs (S p)) as [i|p'].
      * destruct IH as (k & q' & -> & Hk & Hq'). exists (S k), q'.
        split; [lia|done].
      * destruct IH as [-> Hno]. split; [cbn; lia|].
        rewrite fmap_cons. apply not_elem_of_cons. split; [congruence|done].
Qed.

Lemma rename_first_named_spec a name qs : ∀ p : nat,
  rename_first_named a name qs
  = match first_named_from a qs p with
    | inl i => Some (alter (set_chainname name) (i - p)%nat qs)
    | inr _ => None
    end.
Proof.
  induction qs as [|q qs IH]; intros p;
    cbn [rename_first_named first_named_from]; [done|].
  rewrite (String.eqb_sym a).
  destruct (String.eqb (chainname q) a).
  - by rewrite Nat.sub_diag.
  - rewrite (IH (S p)).
    pose proof (first_named_from_spec a qs (S p)) as Hs.
    destruct (first_named_from a qs (S p)) as [i|]; [|done].
    destruct Hs as (k & q' & -> & _). cbn [fmap option_fmap option_map].
    replace (S p + k - S p)%nat with k by lia.
    by replace (S p + k - p)%nat with (S k) by lia.
Qed.

Lemma alter_ge_id {A} (f : A → A) (l : list A) : ∀ i : nat,
  (length l ≤ i)%nat → alter f i l = l.
Proof.
  induction l as [|x l IH]; intros i Hi; [done|].
  destruct i as [|i]; [cbn in Hi; lia|]. cbn. f_equal. apply IH. cbn in Hi. lia.
Qed.

Lemma first_selected_chain_loop_spec name qs sel :
  let i := first_selected_chain_loop sel qs (length qs) in
  (i ≤ length qs)%nat
  ∧ (∀ q, qs !! i = Some q → chainname q ∈ sel)
  ∧ (i = length qs → ∀ q, q ∈ qs → chainname q ∉ sel)
  ∧ rename_chain_loop sel name qs = alter (set_chainname name) i qs.
Proof.
  induction sel as [|a sel IH];
    cbn [first_selected_chain_loop rename_chain_loop].
  - split; [done|]. split.
    { intros q Hq. apply lookup_lt_Some in Hq. lia. }
    split; [by intros _ q _ ?%elem_of_nil|].
    symmetry. by apply alter_ge_id.
  - rewrite (rename_first_named_spec a name qs 0).
    pose proof (first_named_from_spec a qs 0) as Hs.
    destruct (first_named_from a qs 0) as [i|p'].
    + destruct Hs as (k & q & -> & Hk & Hq). cbn [Nat.add].
      pose proof (lookup_lt_Some _ _ _ Hk). split; [lia|]. split.
      { intros q' Hq'. assert (q' = q) as -> by congruence. rewrite Hq. left. }
      split; [lia|]. by rewrite Nat.sub_0_r.
    + destruct Hs as [-> Hno]. cbn [Nat.add].
      destruct IH as (Hle & Hsel & Hnone & Hren). split; [done|]. split.
      { intros q Hq. right. by apply Hsel. }
      split; [|done]. intros Hi q Hq. apply not_elem_of_cons. split.
      * intros E. apply Hno. rewrite <-E. by apply list_elem_of_fmap_2.
      * by apply Hnone.
Qed.

(** X19.  [first_selected_chain] returns an index that is at most the
    number of chains; the chain at that index, when there is one, is
    selected; the index is the number of chains exactly when no chain
    is selected; and [rename_chain] gives the new name to the chain at
    that index and to no other, the selected names staying as they
    are. *)
Theorem first_selected_chain_spec cs name :
  let i := first_selected_chain cs in
  (i ≤ length (chains cs))%nat
  ∧ (∀ q, chains cs !! i = Some q → chainname q ∈ selected_chainids cs)
  ∧ (i = length (chains cs)
     ↔ ∀ q, q ∈ chains cs → chainname q ∉ selected_chainids cs)
  ∧ rename_chain name cs
    = Ok tt (set_chains (alter (set_chainname name) i (chains cs)) cs).
Proof.
  destruct (first_selected_chain_loop_spec name (chains cs) (selected_chainids cs))
    as (Hle & Hsel & Hnone & Hren).
  unfold first_selected_chain. cbn zeta. split; [done|]. split; [done|].
  split; [split; [done|]|].
  - intros Hno.
    destruct (decide (first_selected_chain_loop (selected_chainids cs)
                        (chains cs) (length (chains cs))
                      = length (chains cs))) as [|Hne]; [done|].
    destruct (lookup_lt_is_Some_2 (chains cs)
                (first_selected_chain_loop (selected_chainids cs) (chains cs)
                   (length (chains cs)))) as [q Hq]; [lia|].
    destruct (Hno q); [by eapply list_elem_of_lookup_2|by apply Hsel].
  - unfold rename_chain. by rewrite run_modify, Hren.
Qed.

Lemma first_selected_chain_spec_witness :
  first_selected_chain (set_selected_chainids ["c2"; "c1"] (scenario_B true))
  = 1%nat
  ∧ ∃ cs', rename_chain "bus"
             (set_selected_chainids ["c2"; "c1"] (scenario_B true))
           = Ok tt cs'
           ∧ chain_names cs' = ["c1"; "bus"].
Proof.
  split; [reflexivity|].
  destruct (first_selected_chain_spec
              (set_selected_chainids ["c2"; "c1"] (scenario_B true)) "bus")
    as (_ & _ & _ & Hrun).
  eexists. split; [exact Hrun|]. reflexivity.
Defined.

(** *** Looking a chain up by name *)

Lemma get_chain_with_name_loop_app name qs qs' :
  get_chain_with_name_loop name (qs ++ qs')
  = match get_chain_with_name_loop name qs with
    | Some c => Some c
    | None => get_chain_with_name_loop name qs'
    end.
Proof.
  induction qs as [|q qs IH]; cbn; [done|].
  by destruct (String.eqb (chainname q) name).
Qed.

Lemma get_chain_with_name_loop_None name qs :
  get_chain_with_name_loop name qs = None ↔ name ∉ chainname <$> qs.
Proof.
  induction qs as [|q qs IH]; cbn.
  - split; [intros _; apply not_elem_of_nil|done].
  - rewrite not_elem_of_cons.
    destruct (String.eqb (chainname q) name) eqn:E.
    + apply string_eqb_true in E. split; [done|]. by intros [? _].
    + apply string_eqb_false in E. rewrite IH. split; [|by intros [_ ?]].
      intros Hn. split; [|done]. by intros ->.
Qed.

Lemma get_chain_with_name_loop_Some name qs c :
  get_chain_with_name_loop name qs = Some c → chainname c = name ∧ c ∈ qs.
Proof.
  induction qs as [|q qs IH]; cbn; [done|].
  destruct (String.eqb (chainname q) name) eqn:E.
  - apply string_eqb_true in E. intros [= <-]. split; [done|]. by left.
  - intros Hc. destruct (IH Hc) as [? ?]. split; [done|]. by right.
Qed.

(** X20.  After [add_new_chains], [get_chain_with_name] finds a chain
    for every name of the list, and the chain has that name: the chain
    that it found before when the name was in use, and otherwise a chain
    made by [CHAIN()] with the name set. *)
Theorem get_chain_with_name_after_add_new_chains (new_CHAIN : CHAIN)
    (newchains : list string) cs name :
  name ∈ newchains →
  ∃ cs' c,
    add_new_chains new_CHAIN newchains cs = Ok tt cs'
    ∧ get_chain_with_name cs' name = Some c
    ∧ chainname c = name
    ∧ (name ∈ chain_names cs → get_chain_with_name cs name = Some c)
    ∧ (name ∉ chain_names cs → c = set_chainname name new_CHAIN).
Proof.
  intros Hname.
  destruct (run_add_new_chains new_CHAIN newchains cs)
    as (added & Hrun & Hadded & Hnd & Hall).
  specialize (Hall _ Hname). rewrite fmap_app, elem_of_app in Hall.
  rewrite chain_names_fmap. unfold get_chain_with_name.
  destruct (get_chain_with_name_loop name (chains cs)) as [c|] eqn:Ec.
  - exists (set_chains (chains cs ++ added) cs), c.
    split; [exact Hrun|]. cbn [chains set_chains].
    rewrite get_chain_with_name_loop_app, Ec.
    destruct (get_chain_with_name_loop_Some _ _ _ Ec) as [Hc Hin].
    split_and!; try done.
    intros Hno. exfalso. apply Hno. rewrite <-Hc.
    by apply list_elem_of_fmap_2.
  - pose proof Ec as Hno. apply get_chain_with_name_loop_None in Hno.
    destruct Hall as [Hin|Hin]; [done|].
    destruct (get_chain_with_name_loop name added) as [c|] eqn:Ea;
      [|by apply get_chain_with_name_loop_None in Ea].
    exists (set_chains (chains cs ++ added) cs), c.
    split; [exact Hrun|]. cbn [chains set_chains].
    rewrite get_chain_with_name_loop_app, Ec, Ea.
    destruct (get_chain_with_name_loop_Some _ _ _ Ea) as [Hc Hca].
    split_and!; try done.
    intros _. rewrite Forall_forall in Hadded.
    destruct (Hadded c Hca) as (Heq & _). by rewrite Hc in Heq.
Qed.

Lemma get_chain_with_name_after_add_new_chains_witness :
  ∃ cs',
    add_new_chains (example_chain "") ["c2"; "drums"] (scenario_B true)
    = Ok tt cs'
    ∧ get_chain_with_name cs' "drums"
      = Some (set_chainname "drums" (example_chain "")).
Proof.
  destruct (get_chain_with_name_after_add_new_chains (example_chain "")
              ["c2"; "drums"] (scenario_B true) "drums")
    as (cs' & c & Hrun & Hget & _ & _ & Hnew).
  - right. left.
  - exists cs'. split; [exact Hrun|]. rewrite Hget. f_equal. apply Hnew.
    vm_compute. intros H.
    repeat (apply elem_of_cons in H as [H|H]; [discriminate|]).
    by apply elem_of_nil in H.
Defined.

End chains.

Section modes.
Import chainsetup.
Local Open Scope Z_scope.

Implicit Types (cs : ECA_CHAINSETUP) (rti rto : Z).

Ltac run_selection cs rti rto Hi Ho :=
  unfold select_active_buffering_mode;
  unfold mbind at 1; unfold M_bind at 1; unfold get at 1; cbn beta iota;
  rewrite (multitrack_condition_counts cs rti rto Hi Ho);
  rewrite (has_realtime_objects_counts cs rti rto Hi Ho);
  rewrite (one_way_condition_counts cs rti rto Hi Ho);
  unfold mbind, M_bind, mret, M_ret, get, modify, lift, when,
    toggle_raised_priority, set_bmode_active.

(** X21.  After [set_buffering_mode], whatever its argument,
    [select_active_buffering_mode] on a chainsetup whose objects can be
    counted ends with one of the modes nonrt, rt and rtlowlatency as
    the active mode, the mode asked for when it is one of these, and
    with the parameters of that mode as the active parameters.  A
    chainsetup whose [buffering_mode_rep] is [cs_bmode_none], which
    [set_buffering_mode] never stores, ends with [cs_bmode_none] as the
    active mode and its active parameters untouched. *)
Theorem set_buffering_mode_then_select cs rti rto :
  number_of_realtime_inputs cs = Some rti →
  number_of_realtime_outputs cs = Some rto →
  (∀ value, ∃ cs',
     (set_buffering_mode value;; select_active_buffering_mode) cs = Ok tt cs'
     ∧ buffering_mode_rep cs'
       = (if bool_decide (value = cs_bmode_none) then cs_bmode_auto else value)
     ∧ real_mode (active_buffering_mode_rep cs')
     ∧ (real_mode value → active_buffering_mode_rep cs' = value)
     ∧ bmode_active_rep (impl_repp cs')
       = bmode_params cs (active_buffering_mode_rep cs'))
  ∧ (buffering_mode_rep cs = cs_bmode_none →
     ∃ cs', select_active_buffering_mode cs = Ok tt cs'
            ∧ active_buffering_mode_rep cs' = cs_bmode_none
            ∧ bmode_active_rep (impl_repp cs') = bmode_active_rep (impl_repp cs)).
Proof.
  intros Hi Ho. split.
  - intros value. unfold set_buffering_mode.
    set (v := if bool_decide (value = cs_bmode_none) then cs_bmode_auto else value).
    assert ((if bool_decide (value = cs_bmode_none)
             then modify (set_buffering_mode_rep cs_bmode_auto)
             else modify (set_buffering_mode_rep value))
            = modify (set_buffering_mode_rep v)) as ->
      by (unfold v; by destruct (bool_decide _)).
    rewrite run_bind, run_modify.
    assert (v ≠ cs_bmode_none) as Hv
      by (unfold v; case_bool_decide; [done|done]).
    assert (real_mode value → v = value) as Hreal.
    { unfold v. intros [->| [->| ->]]; done. }
    generalize dependent v. intros v Hv Hreal.
    run_selection (set_buffering_mode_rep v cs) rti rto Hi Ho.
    cbn [buffering_mode_rep set_buffering_mode_rep].
    destruct v; [| | | |done];
      cbn [bool_decide decide_rel Buffering_mode_t_eq_dec];
      destruct (if multitrack_mode_override_rep _ then _ else _);
      destruct ((0 <? rti) || (0 <? rto));
      destruct (rtcaps_rep _);
      destruct ((number_of_chain_operators _ =? 0) && _);
      cbn; (eexists; split; [reflexivity|]); cbn;
      (split; [done|]); (split; [unfold real_mode; tauto|]);
      (split; [|done]); intros Hr; specialize (Hreal Hr); subst value;
      first [done | by destruct Hr as [?|[?|?]]].
  - intros Hnone.
    run_selection cs rti rto Hi Ho. rewrite Hnone.
    cbn [bool_decide decide_rel Buffering_mode_t_eq_dec].
    eexists. split; [reflexivity|]. by cbn.
Qed.

Lemma set_buffering_mode_then_select_witness :
  ∃ cs',
    (set_buffering_mode cs_bmode_none;; select_active_buffering_mode)
      (scenario_B true) = Ok tt cs'
    ∧ real_mode (active_buffering_mode_rep cs').
Proof.
  destruct (proj1 (set_buffering_mode_then_select (scenario_B true) 1 1
                     eq_refl eq_refl) cs_bmode_none)
    as (cs' & Hrun & _ & Hreal & _).
  exists cs'. split; [exact Hrun | exact Hreal].
Defined.

End modes.

(** ** The chainsetup: MIDI devices and the chains of an object *)

Section attachments.
Import chainsetup.
Local Open Scope Z_scope.

Implicit Types (cs : ECA_CHAINSETUP) (q : CHAIN) (qs : list CHAIN)
  (aiod : loc) (s : side) (d : MIDI_IO) (ds : list MIDI_IO).

Lemma erase_first_labelled_present name ds :
  name ∈ midi_label <$> ds →
  S (length (erase_first_labelled name ds)) = length ds
  ∧ ∀ ds', erase_first_labelled name (ds ++ ds')
           = erase_first_labelled name ds ++ ds'.
Proof.
  induction ds as [|d ds IH]; cbn; [by intros ?%elem_of_nil|].
  intros Hin. destruct (String.eqb name (midi_label d)) eqn:E; [done|].
  apply String.eqb_neq in E. apply elem_of_cons in Hin as [?|Hin]; [done|].
  destruct (IH Hin) as [Hlen Happ]. cbn. split; [by rewrite Hlen|].
  intros ds'. by rewrite Happ.
Qed.

Lemma erase_first_labelled_last d ds :
  midi_label d ∉ midi_label <$> ds →
  erase_first_labelled (midi_label d) (ds ++ [d]) = ds.
Proof.
  induction ds as [|d' ds IH]; cbn.
  - intros _. by rewrite String.eqb_refl.
  - rewrite not_elem_of_cons. intros [Hd Hds].
    destruct (String.eqb (midi_label d) (midi_label d')) eqn:E.
    + by apply String.eqb_eq in E.
    + by rewrite IH.
Qed.

(** X22.  [remove_midi_device] removes the first device that has the
    label.  So adding a device and then removing its label gives the
    devices back as they were when the label was not in use; when it
    was, the device that goes is the older one of that label and the new
    one stays.  Either way the number of devices is as before.  The
    registration that [add_midi_device] made with the MIDI server is
    not undone: apart from the devices, the chainsetup differs from the
    one before by what [register_client] did, and by nothing else. *)
Theorem add_then_remove_midi_device
    (midi_server_register_client :
       MIDI_IO → ECA_CHAINSETUP_impl → ECA_CHAINSETUP_impl) cs d :
  ∃ cs',
    (add_midi_device midi_server_register_client d;;
     remove_midi_device (midi_label d)) cs = Ok tt cs'
    ∧ midi_devices cs'
      = (if bool_decide (midi_label d ∈ midi_label <$> midi_devices cs)
         then erase_first_labelled (midi_label d) (midi_devices cs) ++ [d]
         else midi_devices cs)
    ∧ length (midi_devices cs') = length (midi_devices cs)
    ∧ impl_repp cs' = midi_server_register_client d (impl_repp cs)
    ∧ cs' = set_midi_devices (midi_devices cs')
              (set_impl_repp (midi_server_register_client d (impl_repp cs))
                 cs).
Proof.
  eexists. split; [reflexivity|].
  cbn [midi_devices set_midi_devices set_impl_repp impl_repp].
  case_bool_decide as Hin.
  - destruct (erase_first_labelled_present _ _ Hin) as [Hlen Happ].
    rewrite Happ. split_and!; [done| |done|done].
    rewrite length_app. cbn [length]. lia.
  - rewrite erase_first_labelled_last by done. by destruct cs.
Qed.

(** *** The chains attached to an object *)

Lemma attached_chains_loop_spec s cs aiod qs : ∀ res,
  Forall (λ q, is_Some (vector_at (front s cs) (connected s q))) qs →
  attached_chains_loop s cs aiod qs res
  = Some (res ++ (chainname <$> filter (attached s cs aiod) qs)).
Proof.
  induction qs as [|q qs IH]; intros res Hall.
  { cbn. by rewrite app_nil_r. }
  apply Forall_cons in Hall as [[p Hp] Hall].
  rewrite filter_cons. cbn [attached_chains_loop]. rewrite Hp. cbn [mbind option_bind].
  rewrite IH by done. f_equal.
  case_bool_decide as E.
  - subst p. rewrite decide_True by done. cbn. by rewrite <-app_assoc.
  - rewrite decide_False; [done|]. unfold attached. rewrite Hp.
    by intros [= ->].
Qed.

Lemma number_of_attached_chains_loop_spec s cs aiod qs : ∀ count,
  Forall (λ q, is_Some (vector_at (front s cs) (connected s q))) qs →
  0 ≤ count → count + Z.of_nat (length qs) < 2 ^ 31 →
  number_of_attached_chains_loop s cs aiod qs count
  = Some (count + Z.of_nat (length (filter (attached s cs aiod) qs))).
Proof.
  induction qs as [|q qs IH]; intros count Hall H0 Hmax.
  { cbn. f_equal. lia. }
  apply Forall_cons in Hall as [[p Hp] Hall].
  rewrite filter_cons. cbn [number_of_attached_chains_loop].
  rewrite Hp. cbn [mbind option_bind].
  cbn [length] in Hmax.
  case_bool_decide as E.
  - subst p. rewrite decide_True by done. cbn [length].
    assert (to_int (count + 1) = count + 1) as ->.
    { unfold to_int. rewrite Z.mod_small by lia. lia. }
    rewrite IH by (done || lia). f_equal. lia.
  - rewrite decide_False by (unfold attached; rewrite Hp; by intros [= ->]).
    by rewrite IH by (done || lia).
Qed.

(** X23.  With every chain connected inside the vector on a side,
    [get_attached_chains_to_input] returns the names of the chains whose
    connected input is the object, in the order of the chains, and
    [number_of_attached_chains_to_input] is the number of these names;
    and so for the outputs. *)
Theorem attached_chains_agree cs aiod :
  Z.of_nat (length (chains cs)) < 2 ^ 31 →
  (Forall (λ q, is_Some (vector_at (inputs cs) (connected_input q)))
     (chains cs) →
   ∃ names,
     get_attached_chains_to_input cs aiod = Some names
     ∧ names = chainname <$> filter (attached input_side cs aiod) (chains cs)
     ∧ number_of_attached_chains_to_input cs aiod
       = Some (Z.of_nat (length names)))
  ∧ (Forall (λ q, is_Some (vector_at (outputs cs) (connected_output q)))
       (chains cs) →
     ∃ names,
       get_attached_chains_to_output cs aiod = Some names
       ∧ names = chainname <$> filter (attached output_side cs aiod) (chains cs)
       ∧ number_of_attached_chains_to_output cs aiod
         = Some (Z.of_nat (length names))).
Proof.
  intros Hmax. split; intros Hall.
  - eexists. split; [|split; [reflexivity|]].
    + unfold get_attached_chains_to_input.
      by rewrite (attached_chains_loop_spec input_side).
    + unfold number_of_attached_chains_to_input.
      rewrite (number_of_attached_chains_loop_spec input_side) by (done || lia).
      by rewrite length_fmap.
  - eexists. split; [|split; [reflexivity|]].
    + unfold get_attached_chains_to_output.
      by rewrite (attached_chains_loop_spec output_side).
    + unfold number_of_attached_chains_to_output.
      rewrite (number_of_attached_chains_loop_spec output_side) by (done || lia).
      by rewrite length_fmap.
Qed.

Lemma attached_loops_unconnected s cs aiod q qs :
  q ∈ qs → vector_at (front s cs) (connected s q) = None →
  ∀ res count,
    attached_chains_loop s cs aiod qs res = None
    ∧ number_of_attached_chains_loop s cs aiod qs count = None.
Proof.
  intros Hq Hout. induction qs as [|q' qs IH]; [by apply elem_of_nil in Hq|].
  intros res count. cbn [attached_chains_loop number_of_attached_chains_loop].
  apply elem_of_cons in Hq as [<-|Hq].
  - by rewrite Hout.
  - destruct (vector_at (front s cs) (connected s q')); [|done].
    cbn [mbind option_bind]. split; by apply IH.
Qed.

(** X24.  A chain whose input connection is no index of the input
    vector, as that of a chain connected to no input, makes the question
    undefined for every object: the functions index the vector with the
    connection of each chain. *)
Theorem attached_chains_unconnected cs aiod q :
  q ∈ chains cs → vector_at (inputs cs) (connected_input q) = None →
  get_attached_chains_to_input cs aiod = None
  ∧ number_of_attached_chains_to_input cs aiod = None.
Proof.
  intros Hq Hout.
  by apply (attached_loops_unconnected input_side cs aiod q).
Qed.

(** *** Realtime target outputs *)

Lemma is_realtime_target_output_loop_spec cs output_id qs :
  ∀ result output_found : bool,
  (∀ q, q ∈ qs → connected_output q = output_id →
        ∃ p o, vector_at (inputs cs) (connected_input q) = Some p
               ∧ store cs !! p = Some o) →
  ∃ result' output_found' : bool,
    is_realtime_target_output_loop cs output_id qs result output_found
    = Some (result', output_found')
    ∧ (output_found' = true
       ↔ output_found = true ∨ ∃ q, q ∈ qs ∧ connected_output q = output_id)
    ∧ (result' = true
       ↔ result = true
         ∧ ∀ q, q ∈ qs → connected_output q = output_id → fed_by_device cs q).
Proof.
  induction qs as [|q qs IH]; intros result found Hdef; cbn.
  { eexists _, _. split; [done|]. split.
    - split; [by left|]. intros [?|(q & ?%elem_of_nil & _)]; done.
    - split; [|by intros [? _]]. intros ?. split; [done|].
      by intros q ?%elem_of_nil. }
  destruct (Z.eqb_spec (connected_output q) output_id) as [Eq|Eq].
  - destruct (Hdef q) as (p & o & Hp & Ho); [by left|done|].
    rewrite Hp. cbn. unfold dynamic_cast_DEVICE. rewrite Ho. cbn.
    destruct (IH (if is_device o then result else false) true)
      as (r' & f' & Hrun & Hf & Hr).
    { intros q' Hq'. apply Hdef. by right. }
    rewrite Hrun. eexists _, _. split; [done|]. split.
    + split; [|intros _; apply Hf; by left].
      intros _. right. exists q. split; [by left|done].
    + rewrite Hr. split.
      * intros [Hres Hall].
        destruct (is_device o) eqn:Ed; [|done]. split; [done|].
        intros q' [->|Hq']%elem_of_cons Hc; [|by apply Hall].
        by exists p, o.
      * intros [Hres Hall]. destruct (Hall q) as (p' & o' & Hp' & Ho' & Hd');
          [by left|done|].
        rewrite Hp in Hp'. injection Hp' as <-. rewrite Ho in Ho'.
        injection Ho' as <-. rewrite Hd'. split; [done|].
        intros q' Hq'. apply Hall. by right.
  - destruct (IH result found) as (r' & f' & Hrun & Hf & Hr).
    { intros q' Hq'. apply Hdef. by right. }
    rewrite Hrun. eexists _, _. split; [done|]. split.
    + rewrite Hf. split.
      * intros [?|(q' & Hq' & Hc)]; [by left|]. right. exists q'.
        split; [by right|done].
      * intros [?|(q' & [->|Hq']%elem_of_cons & Hc)]; [by left|done|].
        right. by exists q'.
    + rewrite Hr. split.
      * intros [Hres Hall]. split; [done|].
        intros q' [->|Hq']%elem_of_cons Hc; [done|by apply Hall].
      * intros [Hres Hall]. split; [done|].
        intros q' Hq'. apply Hall. by right.
Qed.

(** X25.  On a chainsetup whose connections lead to objects,
    [is_realtime_target_output] answers true exactly when some chain is
    connected to the output and every chain connected to it takes its
    input from a device; an output that no chain is connected to is not
    a realtime target. *)
Theorem is_realtime_target_output_spec cs output_id :
  (∀ q, q ∈ chains cs → connected_output q = output_id →
        ∃ p o, vector_at (inputs cs) (connected_input q) = Some p
               ∧ store cs !! p = Some o) →
  (∃ p o, vector_at (outputs cs) output_id = Some p ∧ store cs !! p = Some o) →
  ∃ b : bool,
    is_realtime_target_output cs output_id = Some b
    ∧ (b = true
       ↔ (∃ q, q ∈ chains cs ∧ connected_output q = output_id)
         ∧ ∀ q, q ∈ chains cs → connected_output q = output_id →
                fed_by_device cs q).
Proof.
  intros Hdef (p & o & Hp & Ho).
  destruct (is_realtime_target_output_loop_spec cs output_id (chains cs)
              true false Hdef) as (r' & f' & Hrun & Hf & Hr).
  unfold is_realtime_target_output. rewrite Hrun. cbn.
  destruct f', r'; cbn; rewrite ?Hp; cbn; rewrite ?Ho; cbn;
    (eexists; split; [done|]).
  - split; [|done]. intros _. split.
    + by destruct (proj1 Hf eq_refl) as [|?].
    + by apply Hr.
  - split; [done|]. intros [_ Hall]. apply Hr. by split.
  - split; [done|]. intros [Hex _]. apply Hf. by right.
  - split; [done|]. intros [Hex _]. apply Hf. by right.
Qed.

End attachments.

Lemma attached_chains_agree_witness :
  chainsetup.get_attached_chains_to_input (chainsetup.scenario_B true) 5%positive
  = Some ["c1"; "c2"]
  ∧ chainsetup.number_of_attached_chains_to_input (chainsetup.scenario_B true)
      5%positive
    = Some 2%Z.
Proof.
  destruct (attached_chains_agree (chainsetup.scenario_B true) 5%positive)
    as [Hin _]; [vm_compute; reflexivity|].
  destruct Hin as (names & Hget & Hnames & Hcount).
  - apply Forall_forall. intros q Hq. vm_compute in Hq.
    repeat (apply elem_of_cons in Hq as [Hq|Hq];
            [rewrite Hq; vm_compute; eauto|]).
    destruct (proj1 (elem_of_nil _) Hq).
  - rewrite Hcount, Hget, Hnames. split; vm_compute; reflexivity.
Defined.

Lemma is_realtime_target_output_spec_witness :
  chainsetup.is_realtime_target_output (chainsetup.scenario_B true) 1
  = Some false.
Proof.
  destruct (is_realtime_target_output_spec (chainsetup.scenario_B true) 1)
    as (b & Hrun & _).
  - intros q Hq _. vm_compute in Hq.
    apply elem_of_cons in Hq as [->|Hq];
      [|apply elem_of_cons in Hq as [->|Hq]; [|by apply elem_of_nil in Hq]];
      vm_compute; eauto.
  - vm_compute. eauto.
  - rewrite Hrun. vm_compute in Hrun. symmetry. exact Hrun.
Defined.

Lemma attached_chains_unconnected_witness :
  chainsetup.get_attached_chains_to_input
    (chainsetup.set_chains [chainsetup.example_chain "c1"]
       (chainsetup.scenario_B true)) 1%positive
  = None.
Proof.
  refine (proj1 (attached_chains_unconnected _ 1%positive
                   (chainsetup.example_chain "c1") _ _)).
  - left.
  - reflexivity.
Defined.

(** ** The chainsetup: a successful [enable] *)

Section enabled.
Import chainsetup.
Local Open Scope Z_scope.

Implicit Types (cs : ECA_CHAINSETUP) (p q c : loc) (o : AUDIO_IO).

Lemma settles_refl cs : settles cs cs.
Proof.
  split; [apply evolves_refl|]. split; [done|].
  intros x ox ox' H1 H2 _. congruence.
Qed.

Lemma settles_trans cs1 cs2 cs3 :
  settles cs1 cs2 → settles cs2 cs3 → settles cs1 cs3.
Proof.
  intros (H12 & Hr12 & Hk12) (H23 & Hr23 & Hk23).
  split; [by eapply evolves_trans|]. split; [congruence|].
  intros x ox ox3 H1 H3 Hop.
  destruct (evolves_lookup _ _ _ _ H12 H1) as (ox2 & H2 & _ & _ & Hm & _).
  rewrite (Hk23 x ox2 ox3 H2 H3 (Hm Hop)). by apply (Hk12 x).
Qed.

Lemma settles_same cs cs' :
  store cs' = store cs → inputs cs' = inputs cs → outputs cs' = outputs cs →
  is_enabled_rep cs' = is_enabled_rep cs →
  cs_samples_per_second cs' = cs_samples_per_second cs →
  settles cs cs'.
Proof.
  intros Hs Hi Ho He Hr. split; [by apply evolves_same|]. split; [done|].
  intros x ox ox' H1 H2 _. rewrite Hs in H2. congruence.
Qed.

Lemma settles_insert cs x ox o' :
  store cs !! x = Some ox →
  aio_type o' = aio_type ox → on_open o' = on_open ox →
  (open_rep ox = true → open_rep o' = true) →
  (open_rep o' = true →
   open_rep ox = true
   ∨ match proxy_child ox with
     | None => ¬ open_fails (on_open ox)
     | Some c => ∃ oc', <[x := o']> (store cs) !! c = Some oc'
                        ∧ open_rep oc' = true
     end) →
  (open_rep ox = true → samples_per_second o' = samples_per_second ox) →
  settles cs (set_store (<[x := o']> (store cs)) cs).
Proof.
  intros Hx Ht Hoo Hm Hl Hr. split; [by apply (evolves_insert _ _ ox)|].
  split; [done|]. intros y oy oy' Hy Hy' Hop. cbn in Hy'.
  destruct (decide (x = y)) as [->|Hne].
  - rewrite lookup_insert_eq in Hy'. simplify_eq. auto.
  - rewrite lookup_insert_ne in Hy' by done. congruence.
Qed.

Section steps.
Context (cs0 : ECA_CHAINSETUP) (Hwf0 : objects_wf cs0).

Local Abbreviation keeps := (λ _ cs', settles cs0 cs').
Local Abbreviation fails := (λ e cs', settles cs0 cs' ∧ enable_exn e).

Lemma runs_benign_update_settles p (g : AUDIO_IO → AUDIO_IO) cs :
  settles cs0 cs → is_Some (store cs0 !! p) →
  (∀ o, aio_type (g o) = aio_type o ∧ on_open (g o) = on_open o
        ∧ open_rep (g o) = open_rep o
        ∧ samples_per_second (g o) = samples_per_second o) →
  runs (update p g) cs keeps fails.
Proof.
  intros Hev [o0 Hp0] Hg.
  destruct (evolves_lookup _ _ _ _ (proj1 Hev) Hp0) as (o & Hp & _).
  apply (runs_update _ _ o); [done|].
  destruct (Hg o) as (Ht & Hoo & Hop & Hr).
  eapply settles_trans; [exact Hev|].
  apply (settles_insert _ _ o); [done..| | |done]; rewrite Hop; auto.
Qed.

Lemma runs_aio_set_buffersize_settles p v cs :
  settles cs0 cs → is_Some (store cs0 !! p) →
  runs (aio_set_buffersize p v) cs keeps fails.
Proof.
  intros Hev [o0 Hp0].
  destruct (evolves_lookup _ _ _ _ (proj1 Hev) Hp0) as (o & Hp & Ht & _).
  unfold aio_set_buffersize. apply (runs_deref_bind _ o); [done|].
  rewrite (proxy_child_aio_type _ _ Ht).
  destruct (proxy_child o0) as [c|] eqn:Hc.
  - destruct (proj2 Hwf0 p o0 c Hp0 Hc) as (oc & Hoc & _).
    apply runs_benign_update_settles; [done|by exists oc|done].
  - apply runs_modify. eapply settles_trans; [exact Hev|].
    apply (settles_insert _ _ o); auto.
Qed.

Lemma runs_open_direct_settles p o cs :
  settles cs0 cs → store cs !! p = Some o → open_rep o = false →
  proxy_child o = None →
  runs (open_direct p) cs
    (λ _ cs', settles cs0 cs' ∧ ∀ y, y ≠ p → store cs' !! y = store cs !! y)
    fails.
Proof.
  intros Hev Hp Hcl Hdirect.
  unfold open_direct. apply (runs_deref_bind _ o); [done|].
  destruct (on_open o) as [[r|]| |msg] eqn:Hoo.
  - apply runs_modify. split; [|by intros y Hy; cbn; rewrite lookup_insert_ne].
    eapply settles_trans; [exact Hev|].
    apply (settles_insert _ _ o); [done..| | |congruence]; [done|].
    intros _. right. rewrite Hdirect, Hoo. auto.
  - apply runs_modify. split; [|by intros y Hy; cbn; rewrite lookup_insert_ne].
    eapply settles_trans; [exact Hev|].
    apply (settles_insert _ _ o); [done..| | |congruence]; [done|].
    intros _. right. rewrite Hdirect, Hoo. auto.
  - by apply runs_ret.
  - by apply runs_throw.
Qed.

Lemma runs_aio_open_settles p o cs :
  settles cs0 cs → store cs !! p = Some o → open_rep o = false →
  runs (aio_open p) cs keeps fails.
Proof.
  intros Hev Hp Hcl.
  pose proof (objects_wf_evolves _ _ Hwf0 (proj1 Hev)) as [_ Hwf].
  unfold aio_open. apply (runs_deref_bind _ o); [done|].
  destruct (proxy_child o) as [c|] eqn:Hc.
  2: { eapply runs_mono; [by apply (runs_open_direct_settles _ o)| |done].
       by intros _ cs' [? _]. }
  destruct (Hwf p o c Hp Hc) as (oc & Hoc & Hdirect).
  assert (p ≠ c) as Hne by (intros ->; congruence).
  apply (runs_deref_bind _ oc); [done|].
  apply (runs_bind _ _ _
           (λ _ cs1, settles cs0 cs1 ∧ store cs1 !! p = Some o)).
  { apply runs_when; [intros Hop | by intros _].
    eapply runs_mono;
      [apply (runs_open_direct_settles _ oc); [done..| |done]| |done].
    - by destruct (open_rep oc).
    - intros _ cs1 [Hev1 Hframe]. split; [done|]. by rewrite Hframe. }
  intros _ cs1 [Hev1 Hp1]. cbn beta.
  assert (is_Some (store cs1 !! c)) as [oc1 Hoc1].
  { apply (evolves_allocated _ _ _ (proj1 Hev1)),
      (evolves_allocated _ _ _ (proj1 Hev)). eauto. }
  apply (runs_deref_bind _ oc1); [done|].
  apply (runs_update _ _ o); [done|].
  eapply settles_trans; [exact Hev1|].
  apply (settles_insert _ _ o); [done..| | |congruence].
  - intros ?. congruence.
  - cbn. intros Hop. right. rewrite Hc. exists oc1.
    by rewrite lookup_insert_ne.
Qed.

(** Reading the position or the length throws nothing. *)
Lemma runs_aio_position_in_samples_reads p cs
    (E : exn → ECA_CHAINSETUP → Prop) :
  settles cs0 cs → is_Some (store cs0 !! p) →
  runs (aio_position_in_samples p) cs (λ _ cs', cs' = cs) E.
Proof.
  intros Hev [o0 Hp0].
  destruct (evolves_lookup _ _ _ _ (proj1 Hev) Hp0) as (o & Hp & Ht & _).
  unfold aio_position_in_samples. apply (runs_deref_bind _ o); [done|].
  rewrite (proxy_child_aio_type _ _ Ht).
  destruct (proxy_child o0) as [c|] eqn:Hc; [|done].
  destruct (proj2 Hwf0 p o0 c Hp0 Hc) as (oc0 & Hoc0 & _).
  destruct (evolves_lookup _ _ _ _ (proj1 Hev) Hoc0) as (oc & Hoc & _).
  by apply (runs_deref_bind _ oc).
Qed.

Lemma runs_aio_length_in_samples_reads p cs
    (E : exn → ECA_CHAINSETUP → Prop) :
  settles cs0 cs → is_Some (store cs0 !! p) →
  runs (aio_length_in_samples p) cs (λ _ cs', cs' = cs) E.
Proof.
  intros Hev [o0 Hp0].
  destruct (evolves_lookup _ _ _ _ (proj1 Hev) Hp0) as (o & Hp & Ht & _).
  unfold aio_length_in_samples. apply (runs_deref_bind _ o); [done|].
  rewrite (proxy_child_aio_type _ _ Ht).
  destruct (proxy_child o0) as [c|] eqn:Hc; [|done].
  destruct (proj2 Hwf0 p o0 c Hp0 Hc) as (oc0 & Hoc0 & _).
  destruct (evolves_lookup _ _ _ _ (proj1 Hev) Hoc0) as (oc & Hoc & _).
  by apply (runs_deref_bind _ oc).
Qed.

Lemma runs_enable_audio_object_helper_settles p cs :
  settles cs0 cs → is_Some (store cs0 !! p) →
  runs (enable_audio_object_helper p) cs keeps fails.
Proof.
  intros Hev Hp0.
  assert (∀ cs', settles cs0 cs' → ∃ o, store cs' !! p = Some o) as Hat.
  { intros cs' Hev'. destruct Hp0 as [o0 Hp0].
    destruct (evolves_lookup _ _ _ _ (proj1 Hev') Hp0) as (o & Hp & _). eauto. }
  unfold enable_audio_object_helper. apply runs_get_bind.
  eapply runs_bind; [by apply runs_aio_set_buffersize_settles|].
  intros [] cs1 Hev1; cbn beta in Hev1 |- *.
  destruct (Hat _ Hev1) as [o1 Hp1].
  apply (runs_deref_bind _ o1); [done|].
  apply (runs_bind _ _ _ keeps).
  { apply runs_when; [intros _|done].
    eapply runs_bind; [by apply runs_benign_update_settles|].
    intros [] cs2 Hev2; cbn beta in Hev2. by apply runs_benign_update_settles. }
  intros _ cs2 Hev2. cbn beta.
  destruct (Hat _ Hev2) as [o2 Hp2].
  apply (runs_deref_bind _ o2); [done|].
  apply (runs_bind _ _ _ keeps).
  { apply runs_when; [intros Hcl|done].
    apply (runs_aio_open_settles _ o2); [done..|]. by destruct (open_rep o2). }
  intros _ cs3 Hev3. cbn beta.
  destruct (Hat _ Hev3) as [o3 Hp3].
  apply (runs_deref_bind _ o3); [done|].
  apply runs_when; [intros _|done].
  eapply runs_bind; [by apply runs_aio_position_in_samples_reads|].
  by intros ? cs4 ->.
Qed.

End steps.
Local Abbreviation fails cs0 := (λ e cs', settles cs0 cs' ∧ enable_exn e).

Lemma fails_settles cs0 cs1 e cs' :
  settles cs0 cs1 → fails cs1 e cs' → fails cs0 e cs'.
Proof. intros H01 [H1 He]. split; [by eapply settles_trans|done]. Qed.

Lemma opened_rate_settles cs cs' q r :
  settles cs cs' → opened cs q ∧ rate_is r cs q →
  opened cs' q ∧ rate_is r cs' q.
Proof.
  intros (Hev & _ & Hk) [(o & Hq & Hop) (o2 & Hq2 & Hr)].
  assert (o2 = o) as -> by congruence.
  destruct (evolves_lookup _ _ _ _ Hev Hq) as (o' & Hq' & _ & _ & Hm & _).
  split; exists o'; split; [done|auto|done|].
  by rewrite (Hk q o o' Hq Hq' Hop).
Qed.

Lemma runs_open_output_settles cs q r :
  objects_wf cs → q ∈ inputs cs ++ outputs cs →
  runs (enable_audio_object_helper q;;
        o ← deref q;
        when (negb (open_rep o))
          (throw (ECA_ERROR "ECA-CHAINSETUP"
                    "Open failed without explicit exception!"));;
        check_object_samplerate q r)
    cs (λ _ cs', settles cs cs' ∧ opened cs' q ∧ rate_is r cs' q) (fails cs).
Proof.
  intros Hwf Hq. pose proof (proj1 Hwf q Hq) as Hq0.
  eapply runs_bind;
    [by apply runs_enable_audio_object_helper_settles; [|apply settles_refl|]|].
  intros [] cs1 Hev1; cbn beta in Hev1 |- *.
  destruct Hq0 as [o0 Hq0].
  destruct (evolves_lookup _ _ _ _ (proj1 Hev1) Hq0) as (o & Hq1 & _).
  apply (runs_deref_bind _ o); [done|].
  destruct (open_rep o) eqn:Hop; cbn [negb when]; [|by apply runs_throw_bind].
  apply runs_ret_bind. unfold check_object_samplerate.
  apply (runs_deref_bind _ o); [done|].
  destruct (Z.eqb_spec (samples_per_second o) r) as [Hr|Hr]; cbn [negb].
  - apply runs_ret. split; [done|]. split; by exists o.
  - by apply runs_throw.
Qed.

Lemma runs_open_outputs_loop r (v : list loc) :
  ∀ cs0, objects_wf cs0 → (∀ q, q ∈ v → q ∈ inputs cs0 ++ outputs cs0) →
    runs (for_each v (λ q,
            enable_audio_object_helper q;;
            o ← deref q;
            when (negb (open_rep o))
              (throw (ECA_ERROR "ECA-CHAINSETUP"
                        "Open failed without explicit exception!"));;
            check_object_samplerate q r)) cs0
      (λ _ cs', settles cs0 cs' ∧ ∀ q, q ∈ v → opened cs' q ∧ rate_is r cs' q)
      (fails cs0).
Proof.
  induction v as [|a v IH]; intros cs0 Hwf0 Hv; cbn [for_each].
  - apply runs_ret. split; [apply settles_refl|]. by intros q ?%elem_of_nil.
  - eapply runs_bind; [apply runs_open_output_settles; [done|apply Hv; left]|].
    intros [] cs1 [Hev1 Hop1]; cbn beta.
    eapply runs_mono.
    + apply IH; [by eapply objects_wf_evolves, Hev1|].
      intros q Hq. destruct Hev1 as ((-> & -> & _) & _). apply Hv. by right.
    + intros [] cs2 [Hev2 Hop2]; cbn beta. split; [by eapply settles_trans|].
      intros q [->|Hq]%elem_of_cons; [by eapply opened_rate_settles|by apply Hop2].
    + intros e cs2. by apply fails_settles.
Qed.

Lemma runs_enable_open_outputs_settles r cs :
  objects_wf cs →
  runs (enable_open_outputs r) cs
    (λ _ cs', settles cs cs'
              ∧ ∀ q, q ∈ outputs cs → opened cs' q ∧ rate_is r cs' q)
    (fails cs).
Proof.
  intros Hwf. unfold enable_open_outputs. apply runs_get_bind.
  apply runs_open_outputs_loop; [done|].
  intros q Hq. apply elem_of_app. by right.
Qed.

Lemma runs_enable_midi_devices_settles cs0 (todo : list MIDI_IO) : ∀ done cs,
  settles cs0 cs →
  runs (enable_midi_devices done todo) cs (λ _ cs', settles cs0 cs') (fails cs0).
Proof.
  induction todo as [|q todo IH]; intros done' cs Hev; cbn [enable_midi_devices].
  - apply runs_modify. eapply settles_trans; [exact Hev|]. by apply settles_same.
  - destruct (midi_open_rep _) eqn:Hop; [by apply IH|].
    unfold runs, mbind, M_bind, modify, throw. split; [|done].
    eapply settles_trans; [exact Hev|]. by apply settles_same.
Qed.

Lemma runs_enable_midi_settles cs :
  runs enable_midi cs (λ _ cs', settles cs cs') (fails cs).
Proof.
  unfold enable_midi. apply runs_get_bind.
  eapply (runs_bind _ _ _ (λ _ cs', settles cs cs')).
  - apply runs_when; [intros _|intros _; apply settles_refl].
    apply runs_modify. by apply settles_same.
  - intros [] cs1 Hev1. by apply runs_enable_midi_devices_settles.
Qed.

Lemma runs_max_input_length_loop_reads cs (v : list loc)
    (E : exn → ECA_CHAINSETUP → Prop) : ∀ acc,
  objects_wf cs → (∀ q, q ∈ v → q ∈ inputs cs ++ outputs cs) →
  runs (max_input_length_loop v acc) cs (λ _ cs', cs' = cs) E.
Proof.
  induction v as [|q v IH]; intros acc Hwf Hv; cbn [max_input_length_loop]; [done|].
  eapply runs_bind.
  - apply (runs_aio_length_in_samples_reads cs); [done|apply settles_refl|].
    apply (proj1 Hwf), Hv. by left.
  - intros len cs' ->. apply IH; [done|]. intros q' Hq'. apply Hv. by right.
Qed.

Lemma runs_calculate_processing_length_settles cs :
  objects_wf cs →
  runs calculate_processing_length cs (λ _ cs', settles cs cs') (fails cs).
Proof.
  intros Hwf. unfold calculate_processing_length. apply runs_get_bind.
  eapply runs_bind.
  - apply runs_max_input_length_loop_reads; [done|].
    intros q Hq. apply elem_of_app. by left.
  - intros len cs' ->. apply runs_when; [intros _|intros _; apply settles_refl].
    apply runs_modify. by apply settles_same.
Qed.

(** Step 3 when it returns: the rate returned is the rate of every
    input. *)
Lemma runs_enable_check_input_rates_rate cs :
  objects_wf cs →
  runs enable_check_input_rates cs
    (λ r cs', cs' = cs ∧ ∀ q, q ∈ inputs cs → rate_is r cs q)
    (λ e cs', True).
Proof.
  intros Hwf. unfold enable_check_input_rates. apply runs_get_bind.
  destruct (inputs cs) as [|q0 rest] eqn:Hin.
  { apply runs_ret. split; [done|]. by intros q ?%elem_of_nil. }
  assert (∀ q, q ∈ q0 :: rest → is_Some (store cs !! q)) as Hall.
  { intros q Hq. apply (proj1 Hwf). rewrite Hin. apply elem_of_app. by left. }
  destruct (Hall q0) as [o0 Hq0]; [left|].
  apply (runs_deref_bind _ o0); [done|].
  assert (∀ v, (∀ q, q ∈ v → q ∈ rest) →
            runs (for_each v (λ q,
                    check_object_samplerate q (samples_per_second o0))) cs
              (λ _ cs', cs' = cs
                        ∧ ∀ q, q ∈ v → rate_is (samples_per_second o0) cs q)
              (λ _ _, True)) as Hloop.
  { induction v as [|a v IH]; intros Hv; cbn [for_each].
    - apply runs_ret. split; [done|]. by intros q ?%elem_of_nil.
    - destruct (Hall a) as [oa Ha]; [right; apply Hv; left|].
      eapply (runs_bind _ _ _
                (λ _ cs', cs' = cs ∧ rate_is (samples_per_second o0) cs a)).
      + unfold check_object_samplerate. apply (runs_deref_bind _ oa); [done|].
        destruct (Z.eqb_spec (samples_per_second oa) (samples_per_second o0));
          cbn [negb]; [|done].
        apply runs_ret. split; [done|]. by exists oa.
      + intros [] cs' [-> Ha']. eapply runs_mono; [apply IH| |done].
        * intros q Hq. apply Hv. by right.
        * intros [] cs' [-> Hrest]. split; [done|].
          intros q [->|Hq]%elem_of_cons; [done|by apply Hrest]. }
  eapply runs_bind; [apply (Hloop rest); auto|].
  intros [] cs' [-> Hrest]. apply runs_ret. split; [done|].
  intros q [->|Hq]%elem_of_cons; [by exists o0|by apply Hrest].
Qed.

(** Step 4: every input and output gets the rate. *)
Lemma runs_set_rate_loop r cs (v : list loc) : ∀ cs1 (D : list loc),
  evolves cs cs1 → (∀ q, q ∈ v → is_Some (store cs !! q)) →
  (∀ q, q ∈ D → rate_is r cs1 q) →
  runs (for_each v (λ q, update q (set_samples_per_second r))) cs1
    (λ _ cs2, evolves cs cs2 ∧ ∀ q, q ∈ D ++ v → rate_is r cs2 q)
    (λ _ _, False).
Proof.
  induction v as [|a v IH]; intros cs1 D Hev Hv HD; cbn [for_each].
  - apply runs_ret. split; [done|]. by rewrite app_nil_r.
  - destruct (Hv a) as [oa0 Ha0]; [left|].
    destruct (evolves_lookup _ _ _ _ Hev Ha0) as (oa & Ha & _).
    eapply (runs_bind _ _ _
              (λ _ cs2, evolves cs cs2 ∧ ∀ q, q ∈ D ++ [a] → rate_is r cs2 q)).
    + apply (runs_update _ _ oa); [done|]. split.
      * eapply evolves_trans; [exact Hev|]. apply (evolves_insert _ _ oa); auto.
      * intros q Hq. unfold rate_is. cbn.
        destruct (decide (a = q)) as [->|Hne].
        -- rewrite lookup_insert_eq. by eexists.
        -- rewrite lookup_insert_ne by done. apply HD.
           apply elem_of_app in Hq as [Hq|Hq]; [done|].
           by apply list_elem_of_singleton in Hq.
    + intros [] cs2 [Hev2 HD2]. eapply runs_mono; [apply (IH cs2 (D ++ [a]))| |done].
      * done.
      * intros q Hq. apply Hv. by right.
      * done.
      * intros [] cs3 [Hev3 HD3]. split; [done|]. intros q Hq. apply HD3.
        rewrite <-app_assoc. done.
Qed.

Lemma runs_cs_set_samples_per_second_rate r cs :
  objects_wf cs →
  runs (cs_set_samples_per_second r) cs
    (λ _ cs', evolves cs cs' ∧ cs_samples_per_second cs' = r
              ∧ ∀ q, q ∈ inputs cs ++ outputs cs → rate_is r cs' q)
    (λ _ _, False).
Proof.
  intros Hwf. unfold cs_set_samples_per_second. apply runs_get_bind.
  eapply runs_bind.
  { apply (runs_set_rate_loop r cs (inputs cs) cs []); [apply evolves_refl| |].
    - intros q Hq. apply (proj1 Hwf), elem_of_app. by left.
    - by intros q ?%elem_of_nil. }
  intros [] cs1 [Hev1 H1]; cbn beta.
  eapply runs_bind.
  { apply (runs_set_rate_loop r cs (outputs cs) cs1 (inputs cs)); [done| |done].
    intros q Hq. apply (proj1 Hwf), elem_of_app. by right. }
  intros [] cs2 [Hev2 H2]; cbn beta.
  apply runs_modify. cbn. split; [|split; [done|]].
  - eapply evolves_trans; [exact Hev2|]. by apply evolves_same.
  - exact H2.
Qed.

(** The steps after the buffering mode, when they return. *)
Lemma runs_enable_objects_rates cs :
  objects_wf cs →
  runs enable_objects cs
    (λ _ cs', evolves cs cs'
              ∧ ∀ q, q ∈ inputs cs ++ outputs cs →
                     opened cs' q ∧ rate_is (cs_samples_per_second cs') cs' q)
    (λ _ _, True).
Proof.
  intros Hwf. unfold enable_objects.
  eapply runs_bind.
  { eapply runs_mono; [by apply runs_enable_open_inputs| |done].
    intros a cs1 H. exact H. }
  intros [] cs1 [Hev1 Hin]; cbn beta.
  pose proof (objects_wf_evolves _ _ Hwf Hev1) as Hwf1.
  eapply runs_bind; [by apply runs_enable_check_input_rates_rate|].
  intros r cs2 [-> _]; cbn beta.
  eapply runs_bind.
  { eapply runs_mono; [by apply runs_cs_set_samples_per_second_rate| |done].
    intros a cs2 H. exact H. }
  intros [] cs2 (Hev2 & Hr2 & Hrate2); cbn beta.
  pose proof (objects_wf_evolves _ _ Hwf1 Hev2) as Hwf2.
  eapply runs_bind.
  { eapply runs_mono; [by apply runs_enable_open_outputs_settles| |done].
    intros a cs3 H. exact H. }
  intros [] cs3 [Hev3 Hout]; cbn beta.
  pose proof (objects_wf_evolves _ _ Hwf2 (proj1 Hev3)) as Hwf3.
  eapply runs_bind.
  { eapply runs_mono; [by apply runs_enable_midi_settles| |done].
    intros a cs4 H. exact H. }
  intros [] cs4 Hev4; cbn beta in Hev4 |- *.
  pose proof (objects_wf_evolves _ _ Hwf3 (proj1 Hev4)) as Hwf4.
  eapply runs_mono; [by apply runs_calculate_processing_length_settles| |done].
  intros [] cs5 Hev5; cbn beta in Hev5.
  pose proof (settles_trans _ _ _ Hev4 Hev5) as Hev35.
  pose proof (settles_trans _ _ _ Hev3 Hev35) as Hev25.
  split.
  { eapply evolves_trans; [exact Hev1|]. eapply evolves_trans; [exact Hev2|].
    exact (proj1 Hev25). }
  assert (cs_samples_per_second cs5 = r) as ->
    by (destruct Hev25 as (_ & -> & _); done).
  intros q [Hq|Hq]%elem_of_app.
  - apply (opened_rate_settles cs2); [done|]. split.
    + by apply (opened_evolves cs1), Hin.
    + apply Hrate2. destruct Hev1 as (-> & -> & _). apply elem_of_app. by left.
  - apply (opened_rate_settles cs3); [done|]. apply Hout.
    destruct Hev2 as (_ & -> & _). by destruct Hev1 as (_ & -> & _).
Qed.

Lemma set_is_enabled_rep_id cs :
  is_enabled_rep cs = true → set_is_enabled_rep true cs = cs.
Proof. destruct cs. cbn. by intros ->. Qed.

(** X26.  When [enable] returns on a chainsetup that was not enabled and
    whose objects exist once the buffering mode is applied, the
    chainsetup is enabled, its vectors are those the buffering mode
    left, every input and every output is open and has the sampling
    rate of the chainsetup, and a second [enable] changes nothing. *)
Theorem enable_success cs cs0 cs' :
  is_enabled_rep cs = false →
  enable_buffering cs = Ok tt cs0 →
  objects_wf cs0 →
  enable cs = Ok tt cs' →
  is_enabled_rep cs' = true
  ∧ inputs cs' = inputs cs0 ∧ outputs cs' = outputs cs0
  ∧ (∀ q, q ∈ inputs cs' ++ outputs cs' →
       ∃ o, store cs' !! q = Some o ∧ open_rep o = true
            ∧ samples_per_second o = cs_samples_per_second cs')
  ∧ enable cs' = Ok tt cs'.
Proof.
  intros Hen Hbuf Hwf0 Hrun.
  pose proof (runs_enable_objects_rates cs0 Hwf0) as Hruns. unfold runs in Hruns.
  rewrite (run_enable _ Hen), (run_bind_Ok _ _ _ _ _ Hbuf) in Hrun.
  destruct (enable_objects cs0) as [[] cs2|[m|s m] cs2|]; [|done..].
  injection Hrun as <-. destruct Hruns as [Hev Hall].
  pose proof Hev as (Hi & Ho & _).
  split; [done|]. split; [done|]. split; [done|]. split.
  - intros q Hq. cbn in Hq. rewrite Hi, Ho in Hq.
    destruct (Hall q Hq) as [(o & Hqo & Hop) (o2 & Hqo2 & Hr)].
    exists o. cbn. split; [done|]. split; [done|]. congruence.
  - unfold enable, try_catch.
    rewrite (run_bind_Ok _ _ _ _ _ (run_get _)). cbn [is_enabled_rep set_is_enabled_rep negb when].
    rewrite run_bind, run_ret, run_modify. by rewrite set_is_enabled_rep_id.
Qed.

Lemma enable_success_witness :
  ∃ cs', enable (scenario_B true) = Ok tt cs'
         ∧ is_enabled_rep cs' = true
         ∧ (∀ q, q ∈ inputs cs' ++ outputs cs' →
              ∃ o, store cs' !! q = Some o ∧ open_rep o = true
                   ∧ samples_per_second o = cs_samples_per_second cs').
Proof.
  eexists. split; [vm_compute; reflexivity|].
  edestruct (enable_success (scenario_B true)) as (Hen & _ & _ & Hall & _).
  - reflexivity.
  - vm_compute. reflexivity.
  - apply objects_wfb_correct. vm_compute. reflexivity.
  - vm_compute. reflexivity.
  - split; [exact Hen | exact Hall].
Defined.

End enabled.

(** ** The chainsetup: leaving the proxy mode *)

Section direct_mode.
Import chainsetup.
Local Open Scope Z_scope.

Implicit Types (cs : ECA_CHAINSETUP) (p f d : loc) (o : AUDIO_IO) (s : side)
  (h : gmap loc AUDIO_IO).


Lemma count_proxies_app h v w :
  count_proxies h (v ++ w) = count_proxies h v + count_proxies h w.
Proof.
  unfold count_proxies. rewrite filter_app, length_app. lia.
Qed.









End direct_mode.

(** ** The chainsetup: entering the proxy mode *)

Section proxy_mode.
Import chainsetup.
Local Open Scope Z_scope.

Implicit Types (cs : ECA_CHAINSETUP) (p f d : loc) (o : AUDIO_IO) (s : side)
  (h : gmap loc AUDIO_IO).


















End proxy_mode.
